(** * Citation matching and highlighting engine of the clinical data extractor

    A shallow embedding of the text index builder ([handleFileChange]), the
    citation matcher ([searchForCitedText], [findItemsForCharRange]), the
    highlight map builder ([buildPreciseHighlights]) of [src/App.tsx] and of
    the field-path heuristic ([inferFieldPath]) of the citation service.
    It goes on with the code around them: the mappings and the citations
    made from the extraction results ([getMappings],
    [createCitationFromExtraction], [buildCitationsFromResults]) and, in
    the citation service, the parser of the cited response
    ([parseCitationResponse]), the citation of a field
    ([findBestMatchingCitation], with the map of [enrichWithCitationFlags])
    and the enrichment with the citations of the Search Results API
    ([enrichExtractionWithSearchCitations]).

    Conventions of the embedding.
    - A JavaScript string is the list of its code units.  The code units
      are those of the Latin-1 range and two more, U+0130 (LATIN CAPITAL
      LETTER I WITH DOT ABOVE) and U+0307 (COMBINING DOT ABOVE).  On these
      [toLowerCase], [trim] and the regular-expression classes [\d] and [\s]
      are modelled exactly, and [length] is the JavaScript [length].  U+0130
      is the one character whose lower case, U+0069 U+0307, has more code
      units than itself: where a text has none, [toLowerCase] keeps its
      length and the offsets in it, and where it has one, the offsets of the
      lowercased text and of the text differ from there on.  The matcher
      takes an offset of the lowercased page text for one of the page text,
      so both cases are in the model; other code units are not.
    - JavaScript numbers that count things (page numbers, item indices,
      character offsets) are [nat]; [indexOf]'s [-1] is [None].
    - An optional argument or field is an [option]; a [Map] with string keys
      is a [gmap] over strings, and the list of its entries in insertion
      order ([JsMap]) where the code iterates over it. *)

From Stdlib Require Import Ascii String QArith.
From stdpp Require Import base list sorting gmap strings pretty.

Local Open Scope nat_scope.

(** ** JavaScript strings *)

(** A code unit: one of the Latin-1 range, LATIN CAPITAL LETTER I WITH DOT
    ABOVE (U+0130), or COMBINING DOT ABOVE (U+0307). *)
Inductive CodeUnit :=
  | Latin1 (c : ascii)
  | DottedI
  | DotAbove.

Coercion Latin1 : ascii >-> CodeUnit.

#[global] Instance CodeUnit_eq_dec : EqDecision CodeUnit :=
  ltac:(solve_decision).

#[global] Instance CodeUnit_countable : Countable CodeUnit :=
  inj_countable'
    (fun c => match c with
              | Latin1 a => inl a
              | DottedI => inr true
              | DotAbove => inr false
              end)
    (fun x => match x with
              | inl a => Latin1 a
              | inr true => DottedI
              | inr false => DotAbove
              end)
    ltac:(by intros []).

Abbreviation jsstring := (list CodeUnit).

(** String literals of the source, as code-unit lists. *)
Definition str (s : string) : jsstring := map Latin1 (list_ascii_of_string s).

Definition code (c : CodeUnit) : N :=
  match c with
  | Latin1 a => N_of_ascii a
  | DottedI => 304
  | DotAbove => 775
  end.

(** [a === b] on code units. *)
Definition eqbUnit (a b : CodeUnit) : bool :=
  match a, b with
  | Latin1 x, Latin1 y => Ascii.eqb x y
  | DottedI, DottedI | DotAbove, DotAbove => true
  | _, _ => false
  end.

(** The class [\d] of a regular expression without the [u] flag: [0-9]. *)
Definition isDigit (c : CodeUnit) : bool :=
  ((48 <=? code c) && (code c <=? 57))%N.

(** The class [\s], which is also what [trim] strips: TAB, LF, VT, FF, CR,
    SPACE and NO-BREAK SPACE are its members among these code units. *)
Definition isSpace (c : CodeUnit) : bool :=
  ((9 <=? code c) && (code c <=? 13) || (code c =? 32) || (code c =? 160))%N.

(** The lower case of a Latin-1 character: [A-Z] and the capitals
    U+00C0..U+00DE (U+00D7, the multiplication sign, apart) move by 32. *)
Definition lowerChar (c : ascii) : ascii :=
  if ((65 <=? code c) && (code c <=? 90)
      || (192 <=? code c) && (code c <=? 222) && negb (code c =? 215))%N
  then ascii_of_N (code c + 32)
  else c.

(** What [toLowerCase] makes of one code unit.  U+0130 becomes the two code
    units U+0069 U+0307; every other code unit becomes one. *)
Definition lowerUnit (c : CodeUnit) : jsstring :=
  match c with
  | Latin1 a => [Latin1 (lowerChar a)]
  | DottedI => [Latin1 "i"; DotAbove]
  | DotAbove => [DotAbove]
  end.

Definition toLowerCase (s : jsstring) : jsstring := concat (map lowerUnit s).

Fixpoint trimStart (s : jsstring) : jsstring :=
  match s with
  | [] => []
  | c :: r => if isSpace c then trimStart r else s
  end.

Definition trimEnd (s : jsstring) : jsstring := rev (trimStart (rev s)).

Definition trim (s : jsstring) : jsstring := trimEnd (trimStart s).

(** [s.replace(/\s+/g, ' ')]: every maximal run of white space becomes one
    space.  [inRun] tells that the previous code unit was white space. *)
Fixpoint replaceSpaceRuns (inRun : bool) (s : jsstring) : jsstring :=
  match s with
  | [] => []
  | c :: r =>
      if isSpace c
      then (if inRun then replaceSpaceRuns true r
            else (Latin1 " ") :: replaceSpaceRuns true r)
      else c :: replaceSpaceRuns false r
  end.

Definition collapseSpaces (s : jsstring) : jsstring := replaceSpaceRuns false s.

(** [texts.join(' ')]. *)
Fixpoint join (texts : list jsstring) : jsstring :=
  match texts with
  | [] => []
  | t :: rest =>
      match rest with
      | [] => t
      | _ :: _ => t ++ (Latin1 " ") :: join rest
      end
  end.

Fixpoint startsWith (needle hay : jsstring) : bool :=
  match needle, hay with
  | [], _ => true
  | _ :: _, [] => false
  | n :: ns, h :: hs => eqbUnit n h && startsWith ns hs
  end.

Fixpoint indexOfFrom (needle hay : jsstring) (pos : nat) : option nat :=
  if startsWith needle hay then Some pos
  else match hay with
       | [] => None
       | _ :: hs => indexOfFrom needle hs (S pos)
       end.

(** [hay.indexOf(needle)], with [None] for [-1]. *)
Definition indexOf (hay needle : jsstring) : option nat :=
  indexOfFrom needle hay 0.

(** [hay.includes(needle)]. *)
Definition includes (hay needle : jsstring) : bool :=
  match indexOf hay needle with Some _ => true | None => false end.

Fixpoint skipDigits (s : jsstring) : jsstring :=
  match s with
  | [] => []
  | c :: r => if isDigit c then skipDigits r else s
  end.

(** [/^\d+\.?\d*$/.test(s)]. *)
Definition isPureNumber (s : jsstring) : bool :=
  match s with
  | [] => false
  | c :: r =>
      isDigit c &&
      match skipDigits r with
      | [] => true
      | d :: r' =>
          eqbUnit d (Latin1 ".") &&
          match skipDigits r' with [] => true | _ :: _ => false end
      end
  end.

(** [query.toLowerCase().trim().replace(/\s+/g, ' ')]. *)
Definition normalizeQuery (query : jsstring) : jsstring :=
  collapseSpaces (trim (toLowerCase query)).

(** ** Data model *)

(** One item of a page's [textContent.items], with the device position that
    [pdfjsLib.Util.transform] gives it ([transform[4]], [transform[5]]). *)
Module TextItem.
Record t := mk { str : option jsstring; x : Q; y : Q }.
End TextItem.

Module TextPosition.
Record t := mk {
  pageNum : nat;
  itemIndex : nat;
  text : jsstring;
  normalizedText : jsstring;
  charStart : nat;
  charEnd : nat;
  x : Q;
  y : Q
}.
End TextPosition.

Module SearchMatch.
Record t := mk {
  pageNum : nat;
  itemIndices : list nat;
  exactMatch : bool;
  confidence : Q
}.
End SearchMatch.

Inductive MappingType := manual | ai.

Module MappingItem.
Record t := mk {
  page : nat;
  text : jsstring;
  label : jsstring;
  path : jsstring;
  type : MappingType;
  verified : bool;
  citedText : option jsstring
}.
End MappingItem.

Module PreciseHighlight.
Record t := mk {
  pageNum : nat;
  itemIndex : nat;
  path : jsstring;
  verified : bool;
  citedText : jsstring
}.
End PreciseHighlight.

(** ** Text index builder (the loop of [handleFileChange]) *)

(** [item.str || ''] *)
Definition itemText (item : TextItem.t) : jsstring :=
  match TextItem.str item with
  | Some ((_ :: _) as s) => s
  | _ => []
  end.

(** The body of [textContent.items.forEach((item, idx) => ...)] on page [i];
    the state is [newTextIndex] and [charOffset]. *)
Definition pushItem (i idx : nat) (item : TextItem.t)
    (st : list TextPosition.t * nat) : list TextPosition.t * nat :=
  let '(newTextIndex, charOffset) := st in
  let text := itemText item in
  (newTextIndex ++
     [ {| TextPosition.pageNum := i;
          TextPosition.itemIndex := idx;
          TextPosition.text := text;
          TextPosition.normalizedText := trim (toLowerCase text);
          TextPosition.charStart := charOffset;
          TextPosition.charEnd := charOffset + length text;
          TextPosition.x := TextItem.x item;
          TextPosition.y := TextItem.y item |} ],
   charOffset + (length text + 1)).

Fixpoint indexItems (i idx : nat) (items : list TextItem.t)
    (st : list TextPosition.t * nat) : list TextPosition.t * nat :=
  match items with
  | [] => st
  | item :: rest => indexItems i (S idx) rest (pushItem i idx item st)
  end.

(** [for (let i = ...; ...; i++)] over the pages that remain. *)
Fixpoint indexPages (i : nat) (pages : list (list TextItem.t))
    (st : list TextPosition.t * nat) : list TextPosition.t * nat :=
  match pages with
  | [] => st
  | items :: rest => indexPages (S i) rest (indexItems i 0 items st)
  end.

(** The index that [handleFileChange] stores with [setTextIndex]: pages
    [1 .. Math.min(pdf.numPages, 10)], starting from an empty index and
    offset 0. *)
Definition buildIndex (pages : list (list TextItem.t)) : list TextPosition.t :=
  fst (indexPages 1 (take 10 pages) ([], 0)).

(** ** Citation matcher *)

(** [findItemsForCharRange]: the [for (const item of pageItems)] loop, with
    its two variables [currentChar] and [indices]. *)
Fixpoint findItemsLoop (pageItems : list TextPosition.t)
    (startChar endChar currentChar : nat) (indices : list nat) : list nat :=
  match pageItems with
  | [] => indices
  | item :: rest =>
      let itemStart := currentChar in
      let itemEnd := currentChar + length (TextPosition.text item) in
      let indices' :=
        if (startChar <? itemEnd) && (itemStart <? endChar)
        then indices ++ [TextPosition.itemIndex item]
        else indices in
      findItemsLoop rest startChar endChar (itemEnd + 1) indices'
  end.

Definition findItemsForCharRange (pageItems : list TextPosition.t)
    (startChar endChar : nat) : list nat :=
  findItemsLoop pageItems startChar endChar 0 [].

(** The items of the index that are on page [hintPage]:
    [textIndex.filter(t => t.pageNum === hintPage)]. *)
Definition pageItemsOf (textIndex : list TextPosition.t) (hintPage : nat)
    : list TextPosition.t :=
  filter (fun t => TextPosition.pageNum t = hintPage) textIndex.

(** [pageItems.map(t => t.text).join(' ').toLowerCase()]. *)
Definition normalizedPageTextOf (pageItems : list TextPosition.t) : jsstring :=
  toLowerCase (join (map TextPosition.text pageItems)).

(** [searchForCitedText(query, hintPage)], with the [textIndex] state that the
    callback closes over as a first argument.  [None] is [null]; an absent
    [hintPage] is [None], and [!hintPage] also holds of page 0. *)
Definition searchForCitedText (textIndex : list TextPosition.t)
    (query : jsstring) (hintPage : option nat) : option SearchMatch.t :=
  if match query with [] => true | _ :: _ => false end
     || (length query <? 12) || (length textIndex =? 0)
  then None
  else if isPureNumber (trim query) then None
  else
    let normalizedQuery := normalizeQuery query in
    match hintPage with
    | None | Some 0 => None
    | Some hintPage =>
        let pageItems := pageItemsOf textIndex hintPage in
        if length pageItems =? 0 then None
        else
          let normalizedPageText := normalizedPageTextOf pageItems in
          match indexOf normalizedPageText normalizedQuery with
          | Some matchIndex =>
              let itemIndices :=
                findItemsForCharRange pageItems matchIndex
                  (matchIndex + length normalizedQuery) in
              if (0 <? length itemIndices) && (length itemIndices <=? 5)
              then Some {| SearchMatch.pageNum := hintPage;
                           SearchMatch.itemIndices := itemIndices;
                           SearchMatch.exactMatch := true;
                           SearchMatch.confidence := 1 |}
              else None
          | None => None
          end
    end.

(** ** Highlight map builder *)

(** [a || b] on an optional string and a string: the first operand unless it
    is [undefined] or empty. *)
Definition orElse (a : option jsstring) (b : jsstring) : jsstring :=
  match a with
  | Some ((_ :: _) as s) => s
  | _ => b
  end.

(** The key [`${pageNum}-${itemIdx}`]. *)
Definition highlightKey (pageNum itemIdx : nat) : jsstring :=
  str (pretty pageNum) ++ (Latin1 "-") :: str (pretty itemIdx).

(** The first two statements of the loop body of [buildPreciseHighlights]:
    the query that is searched, or [None] when the [continue] is taken. *)
Definition searchQueryOf (mapping : MappingItem.t) : option jsstring :=
  let searchQuery :=
    orElse (MappingItem.citedText mapping) (MappingItem.text mapping) in
  if match searchQuery with [] => true | _ :: _ => false end
     || (length searchQuery <? 2)
  then None
  else Some searchQuery.

(** The inner loop [for (const itemIdx of match.itemIndices)]. *)
Definition setHighlights (mapping : MappingItem.t) (searchQuery : jsstring)
    (m : SearchMatch.t) (highlights : gmap jsstring PreciseHighlight.t)
    : gmap jsstring PreciseHighlight.t :=
  foldl
    (fun highlights itemIdx =>
       <[ highlightKey (SearchMatch.pageNum m) itemIdx :=
            {| PreciseHighlight.pageNum := SearchMatch.pageNum m;
               PreciseHighlight.itemIndex := itemIdx;
               PreciseHighlight.path := MappingItem.path mapping;
               PreciseHighlight.verified := MappingItem.verified mapping;
               PreciseHighlight.citedText :=
                 orElse (MappingItem.citedText mapping) searchQuery |} ]>
         highlights)
    highlights (SearchMatch.itemIndices m).

(** One iteration of [for (const mapping of mappingItems)]. *)
Definition highlightMapping (textIndex : list TextPosition.t)
    (highlights : gmap jsstring PreciseHighlight.t) (mapping : MappingItem.t)
    : gmap jsstring PreciseHighlight.t :=
  match searchQueryOf mapping with
  | None => highlights
  | Some searchQuery =>
      match searchForCitedText textIndex searchQuery
              (Some (MappingItem.page mapping)) with
      | Some m => setHighlights mapping searchQuery m highlights
      | None => highlights
      end
  end.

Definition buildPreciseHighlights (textIndex : list TextPosition.t)
    (mappingItems : list MappingItem.t) : gmap jsstring PreciseHighlight.t :=
  foldl (highlightMapping textIndex) ∅ mappingItems.

(** ** Field-path inference *)

(** [inferFieldPath(context)]: the cascade of [if (...) return ...]. *)
Definition inferFieldPath (context : jsstring) : jsstring :=
  let lowerContext := toLowerCase context in
  let has (s : string) : bool := includes lowerContext (str s) in
  if has "author" || has "citation" then str "studyId.citation"
  else if has "doi" then str "studyId.doi"
  else if has "pmid" then str "studyId.pmid"
  else if has "journal" then str "studyId.journal"
  else if has "year" || has "published" then str "studyId.year"
  else if has "country" || has "countries" then str "studyId.country"
  else if has "sample size" || has "total n" || has "patients enrolled"
    then str "baseline.sampleSize.totalN"
  else if has "surgical" && has "n " then str "baseline.sampleSize.surgicalN"
  else if has "control" && has "n " then str "baseline.sampleSize.controlN"
  else if has "age" && has "mean" then str "baseline.age.mean"
  else if has "age" && has "median" then str "baseline.age.median"
  else if has "male" then str "baseline.gender.maleN"
  else if has "female" then str "baseline.gender.femaleN"
  else if has "nihss" then str "baseline.clinicalScores.nihssMeanOrMedian"
  else if has "gcs" then str "baseline.clinicalScores.gcsMeanOrMedian"
  else if has "mrs" && negb (has "outcome")
    then str "baseline.clinicalScores.prestrokeMRS"
  else if has "population" || has "inclusion" || has "eligib"
    then str "picoT.population"
  else if has "intervention" && negb (has "type") then str "picoT.intervention"
  else if has "comparator" || has "control group" then str "picoT.comparator"
  else if has "outcome" && has "measure" then str "picoT.outcomesMeasured"
  else if has "follow" && has "up" then str "picoT.timingFollowUp"
  else if has "study type" || has "design" then str "picoT.studyType"
  else if has "mortality" || has "death" then str "outcomes.mortality"
  else if has "mrs" && has "outcome" then str "outcomes.mrs"
  else if has "complication" || has "adverse" then str "complications.items"
  else str "extractionLog.extracted_data".

(** ** Worked inputs *)

Definition rawItem (s : string) : TextItem.t :=
  {| TextItem.str := Some (str s); TextItem.x := 0; TextItem.y := 0 |}.

(** An item without [str], as the renderer gives for marked content. *)
Definition blankItem : TextItem.t :=
  {| TextItem.str := None; TextItem.x := 0; TextItem.y := 0 |}.

(** Five pages.  Page 1 ends with an item without text, page 2 is empty,
    page 3 has the six fragments
    [Sample | size | was | 42 | patients | total.], page 4 has a phrase that
    is split over two fragments, page 5 a sentence of ten fragments. *)
Definition samplePages : list (list TextItem.t) :=
  [ [rawItem "Title"; blankItem];
    [];
    map rawItem ["Sample"; "size"; "was"; "42"; "patients"; "total."];
    map rawItem ["Signs of"; "brainstem"; "compression"; "were seen"];
    map rawItem ["Mortality"; "rate"; "was"; "twenty"; "percent"; "in";
                 "this"; "cohort"; "of"; "patients"] ].

Definition sampleIndex : list TextPosition.t := buildIndex samplePages.

(** An item whose text is [n] times U+0130. *)
Definition dottedItem (n : nat) : TextItem.t :=
  {| TextItem.str := Some (replicate n DottedI);
     TextItem.x := 0; TextItem.y := 0 |}.

(** Documents of one page, each with U+0130 in its first fragment: a phrase
    after 25 of them; six words of two letters after 20 of them, and a long
    word; a word after two of them, then a fragment without text; two words
    of twelve letters after 13 of them. *)
Definition lostMatchPages : list (list TextItem.t) :=
  [ [dottedItem 25; rawItem "size was 42 patients"; rawItem "next"] ].

Definition widePages : list (list TextItem.t) :=
  [ dottedItem 20
      :: map rawItem ["aa"; "bb"; "cc"; "dd"; "ee"; "ff";
                      "gggggggggggggggggggg"] ].

Definition emptyAfterPages : list (list TextItem.t) :=
  [ [dottedItem 2; rawItem "abcdefghijkl"; rawItem "";
     rawItem "zzzzzzzzzzzzzzzz"] ].

Definition shiftedPages : list (list TextItem.t) :=
  [ [dottedItem 13; rawItem "abcdefghijkl"; rawItem "mnopqrstuvwx"] ].

Definition sampleMapping (page : nat) (path text : string)
    (citedText : option string) : MappingItem.t :=
  {| MappingItem.page := page;
     MappingItem.text := str text;
     MappingItem.label := str path;
     MappingItem.path := str path;
     MappingItem.type := ai;
     MappingItem.verified := true;
     MappingItem.citedText := str <$> citedText |}.

(** Two mappings of page 3 whose matches share the fragments 2, 3 and 4. *)
Definition totalNMapping : MappingItem.t :=
  sampleMapping 3 "baseline.sampleSize.totalN" "42"
    (Some "size was 42 patients").

Definition surgicalNMapping : MappingItem.t :=
  sampleMapping 3 "baseline.sampleSize.surgicalN" "42"
    (Some "was 42 patients total.").

(** ** Notions used to state the properties *)

(** [needle] occurs in [hay] at offset [i]. *)
Definition occursAt (hay needle : jsstring) (i : nat) : Prop :=
  exists pre post, hay = pre ++ needle ++ post /\ length pre = i.

(** [needle] occurs in [hay], and [i] is the offset of its first occurrence. *)
Definition firstOccurrence (hay needle : jsstring) (i : nat) : Prop :=
  occursAt hay needle i /\ forall j, occursAt hay needle j -> i <= j.

(** The lower case of a code unit that has one of one code unit (every one
    but U+0130, which is left as it is here). *)
Definition lowerOne (c : CodeUnit) : CodeUnit :=
  match c with
  | Latin1 a => Latin1 (lowerChar a)
  | DottedI => DottedI
  | DotAbove => DotAbove
  end.

(** The characters that a pure number is made of. *)
Definition numChar (c : CodeUnit) : bool := isDigit c || eqbUnit c (Latin1 ".").

(** The entry pushed for [item], the [idx]-th item of page [i], when the
    running offset is [charOffset]. *)
Definition entryOf (i idx charOffset : nat) (item : TextItem.t)
    : TextPosition.t :=
  {| TextPosition.pageNum := i;
     TextPosition.itemIndex := idx;
     TextPosition.text := itemText item;
     TextPosition.normalizedText := trim (toLowerCase (itemText item));
     TextPosition.charStart := charOffset;
     TextPosition.charEnd := charOffset + length (itemText item);
     TextPosition.x := TextItem.x item;
     TextPosition.y := TextItem.y item |}.

(** What one page adds to the running offset. *)
Definition weight (items : list TextItem.t) : nat :=
  sum_list_with (fun item => length (itemText item) + 1) items.

(** The entries of one page, and of the pages from page [i] on, as lists. *)
Fixpoint block (i idx charOffset : nat) (items : list TextItem.t)
    : list TextPosition.t :=
  match items with
  | [] => []
  | item :: rest =>
      entryOf i idx charOffset item
        :: block i (S idx) (charOffset + (length (itemText item) + 1)) rest
  end.

Fixpoint blocks (i charOffset : nat) (pages : list (list TextItem.t))
    : list TextPosition.t :=
  match pages with
  | [] => []
  | items :: rest =>
      block i 0 charOffset items ++ blocks (S i) (charOffset + weight items) rest
  end.

(** The length of a run of fragments in the concatenation, each fragment
    counted with the separator that follows it. *)
Definition textWeight (l : list TextPosition.t) : nat :=
  sum_list_with (fun t => length (TextPosition.text t) + 1) l.

(** The offsets of [l] are chained from [off] on: each fragment starts where
    the previous one ended, plus one. *)
Fixpoint chained (off : nat) (l : list TextPosition.t) : Prop :=
  match l with
  | [] => True
  | t :: r =>
      TextPosition.charStart t = off /\
      TextPosition.charEnd t = off + length (TextPosition.text t) /\
      chained (TextPosition.charEnd t + 1) r
  end.

(** The page-local offset of the [k]-th fragment of a page: where its text
    starts in the page's concatenated text. *)
Definition pageOffset (pageItems : list TextPosition.t) (k : nat) : nat :=
  textWeight (take k pageItems).

(** The [k]-th fragment of the page overlaps the range
    [startChar, endChar) of the page text, when the text of the page starts
    at [currentChar]. *)
Definition overlapsFrom (currentChar : nat) (pageItems : list TextPosition.t)
    (startChar endChar k : nat) : bool :=
  match pageItems !! k with
  | Some t =>
      (startChar <? currentChar + pageOffset pageItems k
                    + length (TextPosition.text t))
      && (currentChar + pageOffset pageItems k <? endChar)
  | None => false
  end.

(** The positions, in page order, of the fragments whose span overlaps the
    range [startChar, endChar) of the page text. *)
Definition overlapping (pageItems : list TextPosition.t)
    (startChar endChar : nat) : list nat :=
  filter (fun k => overlapsFrom 0 pageItems startChar endChar k = true)
    (seq 0 (length pageItems)).

(** Lowercasing keeps the length of the text of every fragment of
    [pageItems]: the fragments then have the same offsets in the text of the
    page and in its lower case. *)
Definition keepsLength (pageItems : list TextPosition.t) : Prop :=
  Forall (fun t => length (toLowerCase (TextPosition.text t))
                   = length (TextPosition.text t)) pageItems.

(** A fragment with its text in lower case, and the fragments of a page so:
    their spans are the spans of the fragments in the lowercased text of the
    page. *)
Definition lowered (t : TextPosition.t) : TextPosition.t :=
  {| TextPosition.pageNum := TextPosition.pageNum t;
     TextPosition.itemIndex := TextPosition.itemIndex t;
     TextPosition.text := toLowerCase (TextPosition.text t);
     TextPosition.normalizedText := TextPosition.normalizedText t;
     TextPosition.charStart := TextPosition.charStart t;
     TextPosition.charEnd := TextPosition.charEnd t;
     TextPosition.x := TextPosition.x t;
     TextPosition.y := TextPosition.y t |}.

(** The positions, in page order, of the fragments that the range
    [startChar, endChar) of the lowercased text of the page lies over: those
    whose span in that text overlaps the range. *)
Definition covering (pageItems : list TextPosition.t)
    (startChar endChar : nat) : list nat :=
  overlapping (map lowered pageItems) startChar endChar.

(** The item index of the fragment at position [k]. *)
Definition itemIndexAt (pageItems : list TextPosition.t) (k : nat) : nat :=
  from_option TextPosition.itemIndex 0 (pageItems !! k).

(** The item indices of [l] are [base], [base + 1], ... in this order. *)
Definition indexedFrom (base : nat) (l : list TextPosition.t) : Prop :=
  map TextPosition.itemIndex l = seq base (length l).

(** [sub] is a substring of [s]. *)
Definition contains (s sub : jsstring) : Prop :=
  exists pre post, s = pre ++ sub ++ post.

(** The highlight that [mapping], searched with [searchQuery], sets for item
    [itemIdx] of page [pageNum]. *)
Definition highlightOf (mapping : MappingItem.t) (searchQuery : jsstring)
    (pageNum itemIdx : nat) : PreciseHighlight.t :=
  {| PreciseHighlight.pageNum := pageNum;
     PreciseHighlight.itemIndex := itemIdx;
     PreciseHighlight.path := MappingItem.path mapping;
     PreciseHighlight.verified := MappingItem.verified mapping;
     PreciseHighlight.citedText :=
       orElse (MappingItem.citedText mapping) searchQuery |}.

(** [mapping] is not skipped and its match on [textIndex] has item [itemIdx]
    of page [pageNum]. *)
Definition touches (textIndex : list TextPosition.t) (mapping : MappingItem.t)
    (pageNum itemIdx : nat) : Prop :=
  exists searchQuery m,
    searchQueryOf mapping = Some searchQuery /\
    searchForCitedText textIndex searchQuery (Some (MappingItem.page mapping))
    = Some m /\
    SearchMatch.pageNum m = pageNum /\
    itemIdx ∈ SearchMatch.itemIndices m.

(** The choice of the query in the words of the specification: the cited
    text if it is present, non-empty and at least 2 characters long, else
    the display text. *)
Definition specSearchQuery (mapping : MappingItem.t) : jsstring :=
  match MappingItem.citedText mapping with
  | Some c => if 2 <=? length c then c else MappingItem.text mapping
  | None => MappingItem.text mapping
  end.

(** The skip in the words of the specification: neither text exists, or
    both are too short. *)
Definition specSkipped (mapping : MappingItem.t) : bool :=
  match MappingItem.citedText mapping with
  | Some c => (length c <? 2) && (length (MappingItem.text mapping) <? 2)
  | None => length (MappingItem.text mapping) <? 2
  end.


(** The effect that rebuilds the precise highlights when the mappings or
    the text index change: what it passes to [setPreciseHighlights]. *)
Definition rebuildPreciseHighlights (textIndex : list TextPosition.t)
    (mappings : list MappingItem.t) : gmap jsstring PreciseHighlight.t :=
  if (0 <? length textIndex) && (0 <? length mappings)
  then buildPreciseHighlights textIndex mappings
  else ∅.

(** ** Parsing a response of the Citations API ([parseCitationResponse]) *)

Module CitationBlock.
Record t := mk {
  cited_text : jsstring;
  document_index : nat;
  start_page_number : option nat;
  end_page_number : option nat
}.
End CitationBlock.

Module CitedDataPoint.
Record t := mk {
  field_path : jsstring;
  extracted_value : jsstring;
  citation : CitationBlock.t
}.
End CitedDataPoint.

(** A block of [response.content]: a text block, a citation block with the
    fields that the parser reads, or a block of another type. *)
Inductive ContentBlock :=
  | TextBlock (text : jsstring)
  | CiteBlock (cited_text : jsstring)
      (document_index start_page_number end_page_number : option nat)
  | OtherBlock.

(** [s.split(sep)] for a separator of one character. *)
Fixpoint splitOn (sep : CodeUnit) (s : jsstring) : list jsstring :=
  match s with
  | [] => [[]]
  | c :: r =>
      if eqbUnit c sep then [] :: splitOn sep r
      else match splitOn sep r with
           | seg :: segs => (c :: seg) :: segs
           | [] => [[c]]
           end
  end.

(** [currentContext.trim().split('\n').pop() || ""] *)
Definition lastLineOf (currentContext : jsstring) : jsstring :=
  match last (splitOn (Latin1 "010") (trim currentContext)) with
  | Some line => line
  | None => []
  end.

(** The loop of [parseCitationResponse], with its three variables. *)
Fixpoint parseBlocks (blocks : list ContentBlock)
    (cited_data : list CitedDataPoint.t) (raw_text currentContext : jsstring)
    : list CitedDataPoint.t * jsstring :=
  match blocks with
  | [] => (cited_data, raw_text)
  | TextBlock text :: rest =>
      parseBlocks rest cited_data (raw_text ++ text) text
  | CiteBlock cited_text document_index start_page_number end_page_number
      :: rest =>
      parseBlocks rest
        (cited_data ++
           [ {| CitedDataPoint.field_path := inferFieldPath currentContext;
                CitedDataPoint.extracted_value := lastLineOf currentContext;
                CitedDataPoint.citation :=
                  {| CitationBlock.cited_text := cited_text;
                     CitationBlock.document_index :=
                       match document_index with Some n => n | None => 0 end;
                     CitationBlock.start_page_number := start_page_number;
                     CitationBlock.end_page_number := end_page_number |} |} ])
        raw_text currentContext
  | OtherBlock :: rest => parseBlocks rest cited_data raw_text currentContext
  end.

(** [parseCitationResponse(response)]: the pair of [cited_data] and
    [raw_text]. *)
Definition parseCitationResponse (blocks : list ContentBlock)
    : list CitedDataPoint.t * jsstring :=
  parseBlocks blocks [] [] [].

(** The text of a text block, and nothing for the other blocks. *)
Definition blockText (block : ContentBlock) : jsstring :=
  match block with TextBlock text => text | _ => [] end.

Definition isCite (block : ContentBlock) : bool :=
  match block with CiteBlock _ _ _ _ => true | _ => false end.

(** The text of the last text block of [blocks], empty when there is none:
    the context in which a citation that follows [blocks] is read. *)
Fixpoint contextAfter (blocks : list ContentBlock) (context : jsstring)
    : jsstring :=
  match blocks with
  | [] => context
  | TextBlock text :: rest => contextAfter rest text
  | _ :: rest => contextAfter rest context
  end.

(** The number of citation blocks of [blocks]. *)
Definition citeCount (blocks : list ContentBlock) : nat :=
  length (filter (fun block => isCite block = true) blocks).

(** ** The extraction result tree *)

(** The fields of a [source_location] that the code reads.  [page] is 0
    when the page is missing or falsy. *)
Module SourceLocation.
Record t := mk {
  page : nat;
  exact_text_reference : option jsstring;
  cited_text : option jsstring;
  citation_verified : option bool
}.
End SourceLocation.

(** [Number.MAX_SAFE_INTEGER], 2^53 - 1. *)
Definition MAX_SAFE_INTEGER : N := 9007199254740991.

(** The [content] of an extracted field: a string; a whole number from 0
    to [Number.MAX_SAFE_INTEGER], which [String(...)] writes with all its
    decimal digits; a boolean; [null]; or a truthy value of another kind (an
    object, a number that is negative, has decimals or is larger) given by
    the string that [String(...)] makes of it. *)
Inductive Content :=
  | CString (s : jsstring)
  | CNumber (n : N) (safe : (n <=? MAX_SAFE_INTEGER)%N = true)
  | CBoolean (b : bool)
  | CNull
  | COther (image : jsstring).

(** A node of the result tree: a primitive or [null]; an array; or an
    object with its [source_location], [content] and [notes], when it has
    them, and its other members in the order of [Object.keys]. *)
#[warnings="-register-all"]
Inductive Json :=
  | JPrimitive
  | JArray (items : list Json)
  | JObject (source_location : option SourceLocation.t)
      (content : option Content) (notes : option jsstring)
      (fields : list (jsstring * Json)).

(** Whether a content is truthy. *)
Definition truthy (c : Content) : bool :=
  match c with
  | CString s => match s with [] => false | _ :: _ => true end
  | CNumber n _ => negb (n =? 0)%N
  | CBoolean b => b
  | CNull => false
  | COther _ => true
  end.

(** [String(content)] *)
Definition contentString (c : Content) : jsstring :=
  match c with
  | CString s => s
  | CNumber n _ => str (pretty n)
  | CBoolean true => str "true"
  | CBoolean false => str "false"
  | CNull => str "null"
  | COther image => image
  end.

(** [path ? `${path}.${key}` : key] *)
Definition childPath (path key : jsstring) : jsstring :=
  match path with
  | [] => key
  | _ :: _ => path ++ (Latin1 ".") :: key
  end.

(** [path.split('.').pop() || path] *)
Definition labelOf (path : jsstring) : jsstring :=
  match last (splitOn (Latin1 ".") path) with
  | Some ((_ :: _) as segment) => segment
  | _ => path
  end.

(** [notes?.toLowerCase().includes('manual') ||
     notes?.toLowerCase().includes('user') ? 'manual' : 'ai'] *)
Definition mappingTypeOf (notes : option jsstring) : MappingType :=
  match notes with
  | Some n =>
      if includes (toLowerCase n) (str "manual")
         || includes (toLowerCase n) (str "user")
      then manual else ai
  | None => ai
  end.

(** The mapping that [traverse] pushes for an object at [path]. *)
Definition mappingOf (path : jsstring) (sl : SourceLocation.t) (c : Content)
    (notes : option jsstring) : MappingItem.t :=
  let citedText := SourceLocation.cited_text sl in
  let exactRef := SourceLocation.exact_text_reference sl in
  let contentStr := contentString c in
  let textForMatching := orElse citedText (orElse exactRef contentStr) in
  {| MappingItem.page := SourceLocation.page sl;
     MappingItem.text := textForMatching;
     MappingItem.label := labelOf path;
     MappingItem.path := path;
     MappingItem.type := mappingTypeOf notes;
     MappingItem.verified :=
       match SourceLocation.citation_verified sl with
       | Some b => b
       | None => false
       end;
     MappingItem.citedText := citedText |}.

(** The keys that [traverse] does not descend into. *)
Definition reservedKey (key : jsstring) : bool :=
  bool_decide (key ∈ [str "source_location"; str "content"; str "confidence";
                      str "notes"]).

(** [traverse(obj, path)] of [getMappings]: the mappings it pushes, in the
    order of the pushes. *)
Fixpoint traverse (obj : Json) (path : jsstring) {struct obj}
    : list MappingItem.t :=
  match obj with
  | JPrimitive => []
  | JArray items =>
      (fix elements (items : list Json) (i : nat) : list MappingItem.t :=
         match items with
         | [] => []
         | item :: rest =>
             traverse item (childPath path (str (pretty i)))
               ++ elements rest (S i)
         end) items 0
  | JObject source_location content notes fields =>
      match source_location, content with
      | Some sl, Some c =>
          if negb (SourceLocation.page sl =? 0) && truthy c
          then [mappingOf path sl c notes]
          else []
      | _, _ => []
      end
      ++ (fix members (fields : list (jsstring * Json)) : list MappingItem.t :=
            match fields with
            | [] => []
            | (key, value) :: rest =>
                (if reservedKey key then []
                 else traverse value (childPath path key))
                  ++ members rest
            end) fields
  end.

(** [getMappings()], for the [results] state ([None] when it is [null]). *)
Definition getMappings (results : option Json) : list MappingItem.t :=
  match results with
  | None => []
  | Some r => traverse r []
  end.

(** ** Citations built from the results *)

Inductive CitationCategory :=
  | figure | table | method | result | conclusion | reference.

(** [CITATION_COLORS] *)
Definition CITATION_COLORS (category : CitationCategory) : jsstring :=
  match category with
  | figure => str "rgb(147, 51, 234)"
  | table => str "rgb(59, 130, 246)"
  | method => str "rgb(16, 185, 129)"
  | result => str "rgb(245, 158, 11)"
  | conclusion => str "rgb(239, 68, 68)"
  | reference => str "rgb(107, 114, 128)"
  end.

Module Citation.
Record t := mk {
  id : jsstring;
  text : jsstring;
  source : jsstring;
  pageNum : nat;
  charStart : nat;
  charEnd : nat;
  itemIndices : list nat;
  color : jsstring;
  category : CitationCategory;
  confidence : Q;
  sectionName : option jsstring
}.
End Citation.

(** [createCitationFromExtraction(text, pageNum, category, metadata)], with
    the [textIndex] and the name of the file that it closes over, and the
    identifier that [generateCitationId] makes up for it. *)
Definition createCitationFromExtraction (textIndex : list TextPosition.t)
    (fileName : option jsstring) (id : jsstring) (text : jsstring)
    (pageNum : nat) (category : CitationCategory)
    (sectionName : option jsstring) : Citation.t :=
  let m := searchForCitedText textIndex text (Some pageNum) in
  {| Citation.id := id;
     Citation.text := text;
     Citation.source := orElse fileName (str "document");
     Citation.pageNum := pageNum;
     Citation.charStart :=
       match m with
       | Some m => default 0 (head (SearchMatch.itemIndices m))
       | None => 0
       end;
     Citation.charEnd :=
       match m with
       | Some m => default 0 (last (SearchMatch.itemIndices m))
       | None => 0
       end;
     Citation.itemIndices :=
       match m with Some m => SearchMatch.itemIndices m | None => [] end;
     Citation.color := CITATION_COLORS category;
     Citation.category := category;
     Citation.confidence :=
       match m with Some m => SearchMatch.confidence m | None => 0 end;
     Citation.sectionName := sectionName |}.

(** [extractFieldCitations(obj, path, category)] of
    [buildCitationsFromResults].  The state is the array [newCitations] and
    the number of identifiers generated so far; [ids k] is the identifier
    that the [k]-th call of [generateCitationId] returns.  A member that is
    a primitive is not visited, or is [null] and left at once: in both
    cases the state is kept. *)
Fixpoint extractFieldCitations (textIndex : list TextPosition.t)
    (fileName : option jsstring) (ids : nat -> jsstring)
    (obj : Json) (path : jsstring) (category : CitationCategory)
    (st : list Citation.t * nat) {struct obj} : list Citation.t * nat :=
  match obj with
  | JPrimitive => st
  | JArray _ => st
  | JObject source_location _ _ fields =>
      let st1 :=
        match source_location with
        | Some sl =>
            match SourceLocation.cited_text sl with
            | Some ((_ :: _) as cited_text) =>
                let citation :=
                  createCitationFromExtraction textIndex fileName
                    (ids (snd st)) cited_text
                    (match SourceLocation.page sl with
                     | 0 => 1
                     | page => page
                     end)
                    category (Some path) in
                (if 0 <? length (Citation.itemIndices citation)
                 then fst st ++ [citation] else fst st,
                 S (snd st))
            | _ => st
            end
        | None => st
        end in
      (fix members (fields : list (jsstring * Json))
           (st : list Citation.t * nat) : list Citation.t * nat :=
         match fields with
         | [] => st
         | (key, value) :: rest =>
             members rest
               (if bool_decide (key ∈ [str "source_location"; str "content"])
                then st
                else extractFieldCitations textIndex fileName ids value
                       (path ++ (Latin1 ".") :: key) category st)
         end) fields st1
  end.

(** [extractionResults.key] *)
Definition member (obj : Json) (key : jsstring) : option Json :=
  match obj with
  | JObject _ _ _ fields =>
      snd <$> find (fun kv => bool_decide (fst kv = key)) fields
  | _ => None
  end.

(** The sections that [buildCitationsFromResults] reads, in its order, with
    the category it gives to each. *)
Definition citedSections : list (string * CitationCategory) :=
  [ ("studyId", reference); ("picoT", method); ("baseline", result);
    ("imaging", figure); ("outcomes", result);
    ("complications", result) ]%string.

(** [buildCitationsFromResults(extractionResults)] *)
Definition buildCitationsFromResults (textIndex : list TextPosition.t)
    (fileName : option jsstring) (ids : nat -> jsstring)
    (extractionResults : Json) : list Citation.t :=
  fst (foldl
         (fun st section =>
            match member extractionResults (str (fst section)) with
            | Some obj =>
                extractFieldCitations textIndex fileName ids obj
                  (str (fst section)) (snd section) st
            | None => st
            end)
         ([], 0) citedSections).

(** ** A worked result tree *)

Definition sampleField (c : Content) (page : nat) (cited_text : option string)
    : Json :=
  JObject (Some (SourceLocation.mk page None (str <$> cited_text) (Some true)))
    (Some c) None [].

(** A result tree with a cited title that is too short to be searched, a
    year whose content is 0, a sample size cited from page 3, and a death
    count inside an array. *)
Definition sampleResults : Json :=
  JObject None None None
    [ (str "studyId",
       JObject None None None
         [ (str "citation",
            sampleField (CString (str "Mattar et al.")) 1 (Some "Title"));
           (str "year", sampleField (CNumber 0 eq_refl) 1 None) ]);
      (str "baseline",
       JObject None None None
         [ (str "sampleSize",
            JObject None None None
              [ (str "totalN",
                 sampleField (CNumber 42 eq_refl) 3 (Some "size was 42 patients")) ])
         ]);
      (str "outcomes",
       JObject None None None
         [ (str "mortality",
            JArray
              [ JObject None None None
                  [ (str "deathsN",
                     sampleField (CNumber 4 eq_refl) 3
                       (Some "was 42 patients total.")) ] ]) ]) ].


(** The identifiers [cite-0], [cite-1], ... *)
Definition sampleIds (k : nat) : jsstring := str "cite-" ++ str (pretty k).

(** ** The citation of a field ([enrichWithCitationFlags],
       [findBestMatchingCitation]) *)

(** A [Map] with string keys, with its entries in insertion order, the
    order in which [for ... of] goes through it. *)
Definition JsMap (V : Type) := list (jsstring * V).

Definition CitationMap := JsMap CitedDataPoint.t.

(** [map.get(key)] *)
Fixpoint mapGet {V : Type} (key : jsstring) (map : JsMap V) : option V :=
  match map with
  | [] => None
  | (k, v) :: rest =>
      if bool_decide (k = key) then Some v else mapGet key rest
  end.

(** [map.set(key, value)]: the value of a key of the map is replaced where
    the key is, a new key goes to the end. *)
Fixpoint mapSet {V : Type} (key : jsstring) (value : V) (map : JsMap V)
    : JsMap V :=
  match map with
  | [] => [(key, value)]
  | (k, v) :: rest =>
      if bool_decide (k = key) then (k, value) :: rest
      else (k, v) :: mapSet key value rest
  end.

(** The loop at the head of [enrichWithCitationFlags]: the map from field
    paths to cited data points. *)
Definition citationMapOf (cited_data : list CitedDataPoint.t) : CitationMap :=
  foldl (fun citationMap dataPoint =>
           mapSet (CitedDataPoint.field_path dataPoint) dataPoint citationMap)
    [] cited_data.

(** [parts.join(sep)] for a separator of one character. *)
Fixpoint joinWith (sep : CodeUnit) (parts : list jsstring) : jsstring :=
  match parts with
  | [] => []
  | t :: rest =>
      match rest with
      | [] => t
      | _ :: _ => t ++ sep :: joinWith sep rest
      end
  end.

(** The length of a match of [\d+\]] at the head of [s]. *)
Definition indexLength (s : jsstring) : option nat :=
  match s with
  | c :: _ =>
      if isDigit c then
        match skipDigits s with
        | close :: _ =>
            if eqbUnit close (Latin1 "]")
            then Some (S (length s - length (skipDigits s)))
            else None
        | [] => None
        end
      else None
  | [] => None
  end.

(** [s.replace(/\[\d+\]/g, '')], with [skip] the number of characters of
    the current match that are still to be dropped. *)
Fixpoint stripIndicesFrom (skip : nat) (s : jsstring) : jsstring :=
  match s with
  | [] => []
  | c :: r =>
      match skip with
      | S k => stripIndicesFrom k r
      | 0 =>
          if eqbUnit c (Latin1 "[") then
            match indexLength r with
            | Some k => stripIndicesFrom k r
            | None => c :: stripIndicesFrom 0 r
            end
          else c :: stripIndicesFrom 0 r
      end
  end.

Definition stripIndices (s : jsstring) : jsstring := stripIndicesFrom 0 s.

(** The loop [while (parts.length > 1) { parts.pop(); ... }] of
    [findBestMatchingCitation]; [rparts] is [parts] from its last element
    to its first, so that [pop] takes the head. *)
Fixpoint parentLoop (rparts : list jsstring) (citationMap : CitationMap)
    : option CitedDataPoint.t :=
  match rparts with
  | [] => None
  | _ :: rest =>
      match rest with
      | [] => None
      | _ :: _ =>
          match mapGet (joinWith (Latin1 ".") (rev rest)) citationMap with
          | Some dataPoint => Some dataPoint
          | None => parentLoop rest citationMap
          end
      end
  end.

(** The test of the last loop of [findBestMatchingCitation]:
    [fieldPath.startsWith(path) ||
     path.startsWith(fieldPath.replace(/\[\d+\]/g, ''))]. *)
Definition partialMatch (fieldPath path : jsstring) : bool :=
  startsWith path fieldPath || startsWith (stripIndices fieldPath) path.

(** [findBestMatchingCitation(fieldPath, citationMap)] *)
Definition findBestMatchingCitation (fieldPath : jsstring)
    (citationMap : CitationMap) : option CitedDataPoint.t :=
  match mapGet fieldPath citationMap with
  | Some dataPoint => Some dataPoint
  | None =>
      match parentLoop (rev (splitOn (Latin1 ".") fieldPath)) citationMap with
      | Some dataPoint => Some dataPoint
      | None =>
          match find (fun entry => partialMatch fieldPath (fst entry))
                  citationMap with
          | Some (_, dataPoint) => Some dataPoint
          | None => None
          end
      end
  end.

(** Cited data points for worked examples. *)
Definition samplePoint (field_path extracted_value : string)
    : CitedDataPoint.t :=
  {| CitedDataPoint.field_path := str field_path;
     CitedDataPoint.extracted_value := str extracted_value;
     CitedDataPoint.citation :=
       {| CitationBlock.cited_text := str extracted_value;
          CitationBlock.document_index := 0;
          CitationBlock.start_page_number := Some 3;
          CitationBlock.end_page_number := None |} |}.

Definition sampleCitedData : list CitedDataPoint.t :=
  [ samplePoint "baseline.sampleSize.totalN" "42 patients";
    samplePoint "outcomes.mortality" "4 deaths";
    samplePoint "baseline.sampleSize.totalN" "42 patients in total" ].

(** The ancestors of a field path: the dotted paths of its first [k]
    parts. *)
Definition ancestor (fieldPath : jsstring) (k : nat) : jsstring :=
  joinWith (Latin1 ".") (take k (splitOn (Latin1 ".") fieldPath)).

(** ** Citations of the Search Results API ([extractWithSearchResults],
       [enrichExtractionWithSearchCitations]) *)

(** The fields of a citation of a text block that the code reads. *)
Module SearchResultCitation.
Record t := mk {
  source : jsstring;
  cited_text : jsstring
}.
End SearchResultCitation.

(** A block of [response.content], as the loop that collects the citations
    sees it: a text block with its [citations], when it has them, or a
    block of another type. *)
Inductive ResponseBlock :=
  | TextWithCitations (citations : option (list SearchResultCitation.t))
  | OtherResponseBlock.

(** [`${citation.source}:${citation.cited_text.substring(0, 50)}`] *)
Definition citationKeyOf (citation : SearchResultCitation.t) : jsstring :=
  SearchResultCitation.source citation
    ++ (Latin1 ":") :: take 50 (SearchResultCitation.cited_text citation).

(** The loop of [extractWithSearchResults] over [response.content], for
    what it does to [citationsMap]. *)
Definition collectCitations (content : list ResponseBlock) : JsMap jsstring :=
  foldl (fun citationsMap block =>
           match block with
           | TextWithCitations (Some citations) =>
               foldl (fun citationsMap citation =>
                        mapSet (citationKeyOf citation)
                          (SearchResultCitation.cited_text citation)
                          citationsMap)
                 citationsMap citations
           | _ => citationsMap
           end)
    [] content.

(** [`page-${page}`], the [source] of the search result of a page and the
    [pageKey] of a source location. *)
Definition pageKeyOf (page : nat) : jsstring :=
  str "page-" ++ str (pretty page).

(** The loop [for (const [citationKey, citedText] of citationsMap)]: the
    value of the first key that starts with [pageKey]. *)
Definition firstCitationOf (pageKey : jsstring) (citationsMap : JsMap jsstring)
    : option jsstring :=
  match find (fun entry => startsWith pageKey (fst entry)) citationsMap with
  | Some (_, citedText) => Some citedText
  | None => None
  end.

(** What [enrichExtractionWithSearchCitations] does to a
    [source_location]. *)
Definition enrichSourceLocation (citationsMap : JsMap jsstring)
    (sourceLocation : SourceLocation.t) : SourceLocation.t :=
  if SourceLocation.page sourceLocation =? 0 then sourceLocation
  else
    match firstCitationOf (pageKeyOf (SourceLocation.page sourceLocation))
            citationsMap with
    | Some citedText =>
        {| SourceLocation.page := SourceLocation.page sourceLocation;
           SourceLocation.exact_text_reference :=
             SourceLocation.exact_text_reference sourceLocation;
           SourceLocation.cited_text := Some citedText;
           SourceLocation.citation_verified := Some true |}
    | None => sourceLocation
    end.

(** [enrichExtractionWithSearchCitations(obj, citationsMap)]: the tree that
    [obj] is after the call, which updates it in place.  The [content] of a
    field is a leaf. *)
Fixpoint enrichExtractionWithSearchCitations (citationsMap : JsMap jsstring)
    (obj : Json) {struct obj} : Json :=
  match obj with
  | JPrimitive => JPrimitive
  | JArray items =>
      JArray (map (enrichExtractionWithSearchCitations citationsMap) items)
  | JObject source_location content notes fields =>
      JObject
        (match source_location with
         | Some sourceLocation =>
             Some (enrichSourceLocation citationsMap sourceLocation)
         | None => None
         end)
        content notes
        (map (fun member =>
                match member with
                | (key, value) =>
                    (key,
                     enrichExtractionWithSearchCitations citationsMap value)
                end) fields)
  end.

(** All the citations of the text blocks of a response, in order. *)
Definition citationsOf (content : list ResponseBlock)
    : list SearchResultCitation.t :=
  concat (map (fun block =>
                 match block with
                 | TextWithCitations (Some citations) => citations
                 | _ => []
                 end) content).

(** A response with citations of pages 10 and 2. *)
Definition sampleResponse : list ResponseBlock :=
  [ TextWithCitations
      (Some [ SearchResultCitation.mk (pageKeyOf 10)
                (str "Mortality at 90 days was 4 of 42.") ]);
    OtherResponseBlock;
    TextWithCitations None;
    TextWithCitations
      (Some [ SearchResultCitation.mk (pageKeyOf 2)
                (str "We enrolled 42 patients.") ]) ].

(** What enrichment may change of a mapping: a mapping [m'] of the enriched
    tree is at the place of [m], with the same path, page, label and type;
    it is [m] when its page has no citation, and otherwise it is verified
    and has the citation of its page as cited text, and as text when the
    citation is not empty. *)
Definition enriched (citationsMap : JsMap jsstring) (m m' : MappingItem.t)
    : Prop :=
  MappingItem.path m' = MappingItem.path m /\
  MappingItem.page m' = MappingItem.page m /\
  MappingItem.label m' = MappingItem.label m /\
  MappingItem.type m' = MappingItem.type m /\
  match firstCitationOf (pageKeyOf (MappingItem.page m)) citationsMap with
  | None => m' = m
  | Some citedText =>
      MappingItem.verified m' = true /\
      MappingItem.citedText m' = Some citedText /\
      (citedText <> [] -> MappingItem.text m' = citedText)
  end.

(** ** Notions for the coverage of a match *)

(** The fragments that the loop of [findItemsForCharRange] selects, instead
    of their item indices. *)
Fixpoint selectedItems (pageItems : list TextPosition.t)
    (startChar endChar currentChar : nat) : list TextPosition.t :=
  match pageItems with
  | [] => []
  | item :: rest =>
      let itemEnd := currentChar + length (TextPosition.text item) in
      (if (startChar <? itemEnd) && (currentChar <? endChar)
       then [item] else [])
        ++ selectedItems rest startChar endChar (itemEnd + 1)
  end.

(** The fragments of a page at the positions [indices]. *)
Definition fragmentsAt (pageItems : list TextPosition.t) (indices : list nat)
    : list TextPosition.t :=
  omap (fun idx => pageItems !! idx) indices.

(** No white space at either end of [s]. *)
Definition trimmed (s : jsstring) : Prop :=
  (forall c, head s = Some c -> isSpace c = false) /\
  (forall c, last s = Some c -> isSpace c = false).

(** No two adjacent characters of [s] are white space. *)
Fixpoint noSpaceRun (s : jsstring) : Prop :=
  match s with
  | [] => True
  | c1 :: r =>
      (isSpace c1 = true -> forall c2, head r = Some c2 -> isSpace c2 = false)
      /\ noSpaceRun r
  end.

(** A fragment with a character that is not white space. *)
Definition nonBlank (t : TextPosition.t) : Prop :=
  exists c, c ∈ TextPosition.text t /\ isSpace c = false.

(** ** Strings: occurrences and [indexOf] *)

Lemma eqbUnit_eq a b : eqbUnit a b = true <-> a = b.
Proof.
  destruct a as [x| |], b as [y| |]; simpl; try (split; [done | done]).
  rewrite Ascii.eqb_eq. split; [by intros -> | by intros [= ->]].
Qed.

Lemma eqbUnit_refl a : eqbUnit a a = true.
Proof. by apply eqbUnit_eq. Qed.

Lemma eqbUnit_neq a b : eqbUnit a b = false <-> a <> b.
Proof.
  rewrite <- eqbUnit_eq. by destruct (eqbUnit a b).
Qed.

Lemma startsWith_true needle hay :
  startsWith needle hay = true <-> exists post, hay = needle ++ post.
Proof.
  revert hay; induction needle as [|n ns IH]; intros hay; simpl.
  - split; [intros _; by exists hay | done].
  - destruct hay as [|h hs].
    + split; [done | by intros [post ?]].
    + rewrite andb_true_iff, eqbUnit_eq, IH. split.
      * intros [-> [post ->]]. by exists post.
      * intros [post [= -> ->]]. eauto.
Qed.

Lemma occursAt_0 hay needle :
  occursAt hay needle 0 <-> startsWith needle hay = true.
Proof.
  rewrite startsWith_true. split.
  - intros ([|] & post & -> & Hl); [by exists post | done].
  - intros [post ->]. by exists [], post.
Qed.

Lemma occursAt_S c hay needle j :
  occursAt (c :: hay) needle (S j) <-> occursAt hay needle j.
Proof.
  split.
  - intros ([|c' pre] & post & Heq & Hl); [done|].
    simpl in Heq, Hl. injection Heq as -> ->. injection Hl as Hl.
    by exists pre, post.
  - intros (pre & post & -> & Hl). exists (c :: pre), post. simpl. auto.
Qed.

Lemma occursAt_nil needle j : occursAt [] needle j -> j = 0.
Proof.
  intros ([|] & post & Heq & Hl); [by rewrite <- Hl | done].
Qed.

Lemma occursAt_bound hay needle i :
  occursAt hay needle i -> i + length needle <= length hay.
Proof.
  intros (pre & post & -> & <-). rewrite !length_app. lia.
Qed.

Lemma indexOfFrom_Some needle hay pos i :
  indexOfFrom needle hay pos = Some i ->
  pos <= i /\ firstOccurrence hay needle (i - pos).
Proof.
  revert pos; induction hay as [|c hs IH]; intros pos; simpl.
  - destruct (startsWith needle []) eqn:Hs; [|done].
    intros [= <-]. rewrite Nat.sub_diag. split; [done|].
    split; [by apply occursAt_0 | lia].
  - destruct (startsWith needle (c :: hs)) eqn:Hs.
    + intros [= <-]. rewrite Nat.sub_diag. split; [done|].
      split; [by apply occursAt_0 | lia].
    + intros [Hle [Hocc Hmin]]%IH.
      replace (i - pos) with (S (i - S pos)) by lia.
      split; [lia|]. split; [by apply occursAt_S|].
      intros [|j] Hj.
      * apply occursAt_0 in Hj. congruence.
      * apply occursAt_S, Hmin in Hj. lia.
Qed.

Lemma indexOfFrom_None needle hay pos j :
  indexOfFrom needle hay pos = None -> ~ occursAt hay needle j.
Proof.
  revert pos j; induction hay as [|c hs IH]; intros pos j; simpl.
  - destruct (startsWith needle []) eqn:Hs; [done|].
    intros _ Hj. pose proof (occursAt_nil _ _ Hj) as ->.
    apply occursAt_0 in Hj. congruence.
  - destruct (startsWith needle (c :: hs)) eqn:Hs; [done|].
    intros Hnone Hj. destruct j as [|j].
    + apply occursAt_0 in Hj. congruence.
    + apply occursAt_S in Hj. by eapply IH.
Qed.

Lemma firstOccurrence_unique hay needle i j :
  firstOccurrence hay needle i -> firstOccurrence hay needle j -> i = j.
Proof.
  intros [Hi Hmi] [Hj Hmj]. apply Hmi in Hj. apply Hmj in Hi. lia.
Qed.

(** [indexOf] returns the offset of the first occurrence, and [-1] only when
    there is none. *)
Lemma indexOf_first hay needle i :
  indexOf hay needle = Some i <-> firstOccurrence hay needle i.
Proof.
  split.
  - intros [_ H]%indexOfFrom_Some. by rewrite Nat.sub_0_r in H.
  - intros Hi. destruct (indexOf hay needle) as [k|] eqn:Hk.
    + f_equal. apply indexOfFrom_Some in Hk as [_ Hk].
      rewrite Nat.sub_0_r in Hk. eauto using firstOccurrence_unique.
    + destruct Hi as [Hi _]. by apply indexOfFrom_None with (j := i) in Hk.
Qed.

Lemma includes_true hay needle :
  includes hay needle = true <-> exists pre post, hay = pre ++ needle ++ post.
Proof.
  unfold includes. destruct (indexOf hay needle) as [i|] eqn:Hi.
  - apply indexOf_first in Hi as [(pre & post & -> & _) _]. split; eauto.
  - split; [done|]. intros (pre & post & ->).
    exfalso. eapply indexOfFrom_None; [exact Hi|]. by exists pre, post.
Qed.

(** ** Strings: normalisation *)

Ltac by_bits c :=
  destruct c as [[] [] [] [] [] [] [] []]; vm_compute; try done.

Ltac by_code_units c :=
  destruct c as [c| |]; [by_bits c | vm_compute; try done..].

Lemma numChar_not_space c : numChar c = true -> isSpace c = false.
Proof. by_code_units c. Qed.

Lemma isDigit_numChar c : isDigit c = true -> numChar c = true.
Proof. unfold numChar. by intros ->. Qed.

(** [toLowerCase] on one code unit: white space, digits and the dot are
    left alone, and what is not white space does not become white space. *)
Lemma lowerUnit_space c : isSpace c = true -> lowerUnit c = [c].
Proof. by_code_units c. Qed.

Lemma lowerUnit_not_space c :
  isSpace c = false -> forallb (fun d => negb (isSpace d)) (lowerUnit c) = true.
Proof. by_code_units c. Qed.

Lemma lowerUnit_numChar c : numChar c = true -> lowerUnit c = [c].
Proof. by_code_units c. Qed.

Lemma numChar_lowerUnit c :
  forallb numChar (lowerUnit c) = true -> lowerUnit c = [c].
Proof. by_code_units c. Qed.

Lemma lowerUnit_nonempty c : lowerUnit c <> [].
Proof. by destruct c. Qed.

Lemma lowerUnit_head c d :
  isSpace c = false -> head (lowerUnit c) = Some d -> isSpace d = false.
Proof.
  intros Hc%lowerUnit_not_space. destruct (lowerUnit c) as [|x l]; [done|].
  simpl in *. intros [= ->]. by destruct (isSpace d).
Qed.

Lemma lowerUnit_last c d :
  isSpace c = false -> last (lowerUnit c) = Some d -> isSpace d = false.
Proof.
  intros Hc%lowerUnit_not_space Hd. apply last_Some in Hd as [l Hl].
  rewrite Hl, forallb_app in Hc. simpl in Hc.
  apply andb_true_iff in Hc as [_ Hc]. by destruct (isSpace d).
Qed.

Lemma toLowerCase_cons c r :
  toLowerCase (c :: r) = lowerUnit c ++ toLowerCase r.
Proof. reflexivity. Qed.

Lemma toLowerCase_app s1 s2 :
  toLowerCase (s1 ++ s2) = toLowerCase s1 ++ toLowerCase s2.
Proof. unfold toLowerCase. by rewrite map_app, concat_app. Qed.

(** Lowercasing never makes a string shorter; it keeps the length of a
    string exactly when the string has no U+0130, and is then the map of
    [lowerOne]. *)
Lemma length_toLowerCase_ge s : length s <= length (toLowerCase s).
Proof.
  induction s as [|c r IH]; [done|].
  rewrite toLowerCase_cons, length_app. destruct c; simpl in *; lia.
Qed.

Lemma toLowerCase_map s : DottedI ∉ s -> toLowerCase s = map lowerOne s.
Proof.
  induction s as [|c r IH]; [done|].
  intros [Hc Hr]%not_elem_of_cons. rewrite toLowerCase_cons, IH by done.
  by destruct c.
Qed.

Lemma length_toLowerCase s :
  length (toLowerCase s) = length s <-> DottedI ∉ s.
Proof.
  split.
  - induction s as [|c r IH]; [intros _; apply not_elem_of_nil|].
    rewrite toLowerCase_cons, length_app. intros Hlen.
    pose proof (length_toLowerCase_ge r).
    apply not_elem_of_cons.
    destruct c; simpl in Hlen;
      [split; [done | apply IH; lia] | lia | split; [done | apply IH; lia]].
  - intros Hs. by rewrite toLowerCase_map, length_map.
Qed.

Lemma length_trimStart s : length (trimStart s) <= length s.
Proof.
  induction s as [|c r IH]; simpl; [done|]. destruct (isSpace c); simpl; lia.
Qed.

Lemma length_trim s : length (trim s) <= length s.
Proof.
  unfold trim, trimEnd. rewrite length_rev.
  etrans; [apply length_trimStart|]. rewrite length_rev. apply length_trimStart.
Qed.

Lemma length_replaceSpaceRuns b s : length (replaceSpaceRuns b s) <= length s.
Proof.
  revert b; induction s as [|c r IH]; intros b; simpl; [done|].
  pose proof (IH true). pose proof (IH false).
  destruct (isSpace c), b; simpl; lia.
Qed.

(** Normalising a query never makes it longer than its lower case. *)
Lemma length_normalizeQuery query :
  length (normalizeQuery query) <= length (toLowerCase query).
Proof.
  unfold normalizeQuery, collapseSpaces.
  etrans; [apply length_replaceSpaceRuns|]. apply length_trim.
Qed.

Lemma trimStart_toLowerCase s :
  trimStart (toLowerCase s) = toLowerCase (trimStart s).
Proof.
  induction s as [|c r IH]; [done|].
  rewrite toLowerCase_cons. simpl. destruct (isSpace c) eqn:Hc.
  - rewrite (lowerUnit_space c Hc). simpl. by rewrite Hc.
  - rewrite toLowerCase_cons.
    pose proof (lowerUnit_head c) as Hhead.
    destruct (lowerUnit c) as [|d l] eqn:Hd; [by destruct c|].
    simpl. by rewrite (Hhead d Hc eq_refl).
Qed.

Lemma trimEnd_snoc s c :
  trimEnd (s ++ [c]) = if isSpace c then trimEnd s else s ++ [c].
Proof.
  unfold trimEnd. rewrite rev_app_distr. simpl.
  destruct (isSpace c); [done|]. simpl. by rewrite rev_involutive.
Qed.

Lemma trimEnd_toLowerCase s :
  trimEnd (toLowerCase s) = toLowerCase (trimEnd s).
Proof.
  induction s as [|c s IH] using rev_ind; [done|].
  rewrite toLowerCase_app, trimEnd_snoc.
  change (toLowerCase [c]) with (lowerUnit c ++ []). rewrite app_nil_r.
  destruct (isSpace c) eqn:Hc.
  - by rewrite (lowerUnit_space c Hc), trimEnd_snoc, Hc.
  - rewrite toLowerCase_app.
    change (toLowerCase [c]) with (lowerUnit c ++ []). rewrite app_nil_r.
    pose proof (lowerUnit_last c) as Hlast.
    destruct (lowerUnit c) as [|d l] eqn:Hd using rev_ind; [by destruct c|].
    rewrite app_assoc. rewrite trimEnd_snoc.
    by rewrite (Hlast d Hc (last_snoc _ _)).
Qed.

Lemma trim_toLowerCase s : trim (toLowerCase s) = toLowerCase (trim s).
Proof.
  unfold trim. by rewrite trimStart_toLowerCase, trimEnd_toLowerCase.
Qed.

Lemma toLowerCase_numChar s :
  forallb numChar s = true -> toLowerCase s = s.
Proof.
  induction s as [|c r IH]; [done|]. simpl.
  intros [Hc Hr]%andb_true_iff.
  by rewrite toLowerCase_cons, (lowerUnit_numChar c Hc), IH.
Qed.

Lemma numChar_toLowerCase s :
  forallb numChar (toLowerCase s) = true -> toLowerCase s = s.
Proof.
  induction s as [|c r IH]; [done|].
  rewrite toLowerCase_cons, forallb_app.
  intros [Hc Hr]%andb_true_iff.
  by rewrite (numChar_lowerUnit c Hc), IH.
Qed.

Lemma collapseSpaces_numChar s :
  forallb numChar (collapseSpaces s) = true -> collapseSpaces s = s.
Proof.
  unfold collapseSpaces.
  induction s as [|c r IH]; simpl; [done|].
  destruct (isSpace c) eqn:Hc; simpl; [done|].
  intros [_ Hr]%andb_true_iff. by rewrite IH.
Qed.

Lemma numChar_collapseSpaces s :
  forallb numChar s = true -> collapseSpaces s = s.
Proof.
  unfold collapseSpaces.
  induction s as [|c r IH]; simpl; [done|].
  intros [Hc Hr]%andb_true_iff.
  by rewrite (numChar_not_space c Hc), IH.
Qed.

Lemma skipDigits_numChar s :
  forallb numChar (skipDigits s) = true -> forallb numChar s = true.
Proof.
  induction s as [|c r IH]; simpl; [done|].
  destruct (isDigit c) eqn:Hc; [|done].
  intros H. by rewrite (isDigit_numChar c Hc), IH.
Qed.

Lemma skipDigits_split s :
  exists ds, s = ds ++ skipDigits s /\ forallb isDigit ds = true.
Proof.
  induction s as [|c r (ds & Hr & Hds)]; simpl; [by exists []|].
  destruct (isDigit c) eqn:Hc; [|by exists []].
  exists (c :: ds). simpl. rewrite Hc, Hds. split; [by f_equal | done].
Qed.

Lemma skipDigits_app ds rest :
  forallb isDigit ds = true ->
  skipDigits (ds ++ rest) = skipDigits rest.
Proof.
  induction ds as [|c ds IH]; simpl; [done|].
  intros [-> Hds]%andb_true_iff. by apply IH.
Qed.

(** [isPureNumber] decides the language of [^\d+\.?\d*$]: one digit or
    more, then possibly a dot and digits. *)
Lemma isPureNumber_language s :
  isPureNumber s = true <->
  exists int frac,
    int <> [] /\ forallb isDigit int = true /\ forallb isDigit frac = true /\
    (s = int \/ s = int ++ (Latin1 ".") :: frac).
Proof.
  split.
  - destruct s as [|c r]; simpl; [done|].
    intros [Hc Hr]%andb_true_iff.
    destruct (skipDigits_split r) as (ds & Heq & Hds).
    destruct (skipDigits r) as [|d r'].
    + exists (c :: ds), []. simpl. rewrite Hc, Hds.
      rewrite app_nil_r in Heq. rewrite Heq. auto.
    + apply andb_true_iff in Hr as [->%eqbUnit_eq Hr'].
      destruct (skipDigits_split r') as (ds' & Heq' & Hds').
      destruct (skipDigits r'); [|done]. rewrite app_nil_r in Heq'.
      exists (c :: ds), ds'. simpl. rewrite Hc, Hds.
      repeat split; try done. right. by rewrite Heq, Heq'.
  - intros (int & frac & Hne & Hint & Hfrac & Hs).
    destruct int as [|c ds]; [done|]. simpl in Hint.
    apply andb_true_iff in Hint as [Hc Hds].
    assert (skipDigits frac = []) as Hf.
    { rewrite <- (app_nil_r frac). by rewrite skipDigits_app. }
    destruct Hs as [-> | ->]; simpl; rewrite Hc; simpl.
    + rewrite <- (app_nil_r ds). by rewrite skipDigits_app.
    + rewrite skipDigits_app by done. simpl. by rewrite Hf.
Qed.

(** A string that passes the pure-number test is made of digits and dots. *)
Lemma isPureNumber_numChar s :
  isPureNumber s = true -> forallb numChar s = true.
Proof.
  destruct s as [|c r]; simpl; [done|].
  intros [Hc Hr]%andb_true_iff. rewrite (isDigit_numChar c Hc). simpl.
  apply skipDigits_numChar.
  destruct (skipDigits r) as [|d r']; [done|].
  apply andb_true_iff in Hr as [Hd Hr']. simpl.
  apply eqbUnit_eq in Hd as ->. simpl.
  apply skipDigits_numChar. by destruct (skipDigits r').
Qed.

(** The test that [searchForCitedText] makes on the trimmed query decides
    whether the normalised query is a pure number. *)
Lemma isPureNumber_normalizeQuery query :
  isPureNumber (normalizeQuery query) = isPureNumber (trim query).
Proof.
  unfold normalizeQuery. rewrite trim_toLowerCase.
  destruct (isPureNumber (trim query)) eqn:Ht.
  - pose proof (isPureNumber_numChar _ Ht) as Hn.
    rewrite (toLowerCase_numChar _ Hn), (numChar_collapseSpaces _ Hn). done.
  - destruct (isPureNumber (collapseSpaces _)) eqn:Hq; [|done].
    pose proof (isPureNumber_numChar _ Hq) as Hn.
    pose proof (collapseSpaces_numChar _ Hn) as Hc. rewrite Hc in Hq, Hn.
    pose proof (numChar_toLowerCase _ Hn) as Hl. rewrite Hl in Hq. congruence.
Qed.

(** ** The text index *)

Lemma pushItem_entryOf i idx item acc off :
  pushItem i idx item (acc, off)
  = (acc ++ [entryOf i idx off item], off + (length (itemText item) + 1)).
Proof. reflexivity. Qed.

Lemma indexItems_block i idx items acc off :
  indexItems i idx items (acc, off)
  = (acc ++ block i idx off items, off + weight items).
Proof.
  revert idx acc off; induction items as [|item rest IH]; intros idx acc off.
  - simpl. by rewrite app_nil_r, Nat.add_0_r.
  - cbn [indexItems]. rewrite pushItem_entryOf, IH.
    unfold weight. simpl. rewrite <- app_assoc. f_equal. lia.
Qed.

Lemma indexPages_blocks i pages acc off :
  fst (indexPages i pages (acc, off)) = acc ++ blocks i off pages.
Proof.
  revert i acc off; induction pages as [|items rest IH]; intros i acc off.
  - simpl. by rewrite app_nil_r.
  - cbn [indexPages]. rewrite indexItems_block, IH. simpl.
    by rewrite app_assoc.
Qed.

Lemma buildIndex_blocks pages : buildIndex pages = blocks 1 0 (take 10 pages).
Proof. unfold buildIndex. by rewrite indexPages_blocks. Qed.

Lemma textWeight_app l1 l2 :
  textWeight (l1 ++ l2) = textWeight l1 + textWeight l2.
Proof. apply sum_list_with_app. Qed.

Lemma textWeight_block i idx off items :
  textWeight (block i idx off items) = weight items.
Proof.
  revert idx off; induction items as [|item rest IH]; intros idx off; [done|].
  unfold textWeight, weight in *. simpl. by rewrite IH.
Qed.

Lemma chained_app off l1 l2 :
  chained off (l1 ++ l2) <-> chained off l1 /\ chained (off + textWeight l1) l2.
Proof.
  revert off; induction l1 as [|t r IH]; intros off; simpl.
  - unfold textWeight. simpl. rewrite Nat.add_0_r. tauto.
  - rewrite IH. unfold textWeight. simpl. split.
    + intros (Hs & He & Hr & Hl). repeat split; try done.
      rewrite He in Hl. by replace (off + _) with
        (off + length (TextPosition.text t) + 1 + textWeight r)
        by (unfold textWeight; lia).
    + intros ((Hs & He & Hr) & Hl). repeat split; try done.
      rewrite He. by replace (off + length (TextPosition.text t) + 1 + _)
        with (off + (length (TextPosition.text t) + 1 + textWeight r))
        by (unfold textWeight; lia).
Qed.

Lemma chained_block i idx off items : chained off (block i idx off items).
Proof.
  revert idx off; induction items as [|item rest IH]; intros idx off; [done|].
  simpl. repeat split. rewrite <- Nat.add_assoc. apply IH.
Qed.

Lemma chained_blocks i off pages : chained off (blocks i off pages).
Proof.
  revert i off; induction pages as [|items rest IH]; intros i off; [done|].
  simpl. apply chained_app. split; [apply chained_block|].
  rewrite textWeight_block. apply IH.
Qed.

Lemma chained_lookup off l k t :
  chained off l -> l !! k = Some t ->
  TextPosition.charEnd t
  = TextPosition.charStart t + length (TextPosition.text t).
Proof.
  revert off k; induction l as [|t0 r IH]; intros off k; [done|].
  intros (Hs & He & Hr). destruct k as [|k]; simpl.
  - intros [= <-]. by rewrite Hs.
  - by apply (IH _ _ Hr).
Qed.

Lemma chained_lookup_next off l k t t' :
  chained off l -> l !! k = Some t -> l !! S k = Some t' ->
  TextPosition.charStart t' = TextPosition.charEnd t + 1.
Proof.
  revert off k; induction l as [|t0 r IH]; intros off k; [done|].
  intros (Hs & He & Hr). destruct k as [|k]; simpl.
  - intros [= <-]. destruct r as [|t1 r]; [done|].
    intros [= <-]. by destruct Hr as [-> _].
  - by apply (IH _ _ Hr).
Qed.

(** C3 -- index offset invariant.  In the index that [buildIndex] returns,
    every fragment ends [len(rawText)] after its start, and each fragment of
    the whole-document sequence starts one character after the end of the
    fragment before it, whatever the pages and also for empty fragments. *)
Theorem buildIndex_offset_invariant (pages : list (list TextItem.t)) :
  (forall k t, buildIndex pages !! k = Some t ->
     TextPosition.charEnd t
     = TextPosition.charStart t + length (TextPosition.text t)) /\
  (forall k t t', buildIndex pages !! k = Some t ->
     buildIndex pages !! S k = Some t' ->
     TextPosition.charStart t' = TextPosition.charEnd t + 1).
Proof.
  rewrite buildIndex_blocks.
  pose proof (chained_blocks 1 0 (take 10 pages)) as Hc. split.
  - intros k t. by apply chained_lookup with (off := 0).
  - intros k t t'. by apply chained_lookup_next with (off := 0).
Qed.

(** ** The fragments of one page *)

Lemma pageItemsOf_app l1 l2 p :
  pageItemsOf (l1 ++ l2) p = pageItemsOf l1 p ++ pageItemsOf l2 p.
Proof. apply filter_app. Qed.

Lemma pageItemsOf_block_eq i idx off items :
  pageItemsOf (block i idx off items) i = block i idx off items.
Proof.
  revert idx off; induction items as [|item rest IH]; intros idx off; [done|].
  simpl. unfold pageItemsOf in *. rewrite filter_cons_True by done.
  by rewrite IH.
Qed.

Lemma pageItemsOf_block_ne i idx off items p :
  p <> i -> pageItemsOf (block i idx off items) p = [].
Proof.
  intros Hne.
  revert idx off; induction items as [|item rest IH]; intros idx off; [done|].
  simpl. unfold pageItemsOf in *. rewrite filter_cons_False by (simpl; lia).
  apply IH.
Qed.

Lemma pageItemsOf_blocks_lt i off pages p :
  p < i -> pageItemsOf (blocks i off pages) p = [].
Proof.
  revert i off; induction pages as [|items rest IH]; intros i off Hlt; [done|].
  simpl. rewrite pageItemsOf_app, pageItemsOf_block_ne by lia.
  apply IH. lia.
Qed.

(** The items of the index on one page are the block of that page, when the
    page was indexed, and there are none otherwise. *)
Lemma pageItemsOf_blocks i off pages p :
  pageItemsOf (blocks i off pages) p = [] \/
  exists k items off',
    i + k = p /\ pages !! k = Some items /\
    pageItemsOf (blocks i off pages) p = block p 0 off' items.
Proof.
  revert i off; induction pages as [|items rest IH]; intros i off; [by left|].
  simpl. rewrite pageItemsOf_app. destruct (decide (p = i)) as [->|Hne].
  - right. exists 0, items, off.
    rewrite pageItemsOf_block_eq, pageItemsOf_blocks_lt by lia.
    by rewrite app_nil_r, Nat.add_0_r.
  - rewrite pageItemsOf_block_ne by done. simpl.
    destruct (IH (S i) (off + weight items)) as [->|(k & its & off' & ? & ? & ->)];
      [by left|].
    right. exists (S k), its, off'. repeat split; [lia | done].
Qed.

Lemma length_block i idx off items :
  length (block i idx off items) = length items.
Proof.
  revert idx off; induction items as [|item rest IH]; intros idx off; [done|].
  simpl. by rewrite IH.
Qed.

Lemma indexedFrom_block i idx off items :
  indexedFrom idx (block i idx off items).
Proof.
  unfold indexedFrom.
  revert idx off; induction items as [|item rest IH]; intros idx off; [done|].
  simpl. by rewrite IH.
Qed.

Lemma text_block i idx off items :
  map TextPosition.text (block i idx off items) = map itemText items.
Proof.
  revert idx off; induction items as [|item rest IH]; intros idx off; [done|].
  simpl. by rewrite IH.
Qed.

(** On every page of the built index, the item indices are the positions
    [0, 1, 2, ...] of the fragments on that page. *)
Lemma pageItemsOf_buildIndex_indexed pages p :
  indexedFrom 0 (pageItemsOf (buildIndex pages) p).
Proof.
  rewrite buildIndex_blocks.
  destruct (pageItemsOf_blocks 1 0 (take 10 pages) p)
    as [->|(k & items & off' & _ & _ & ->)]; [done|].
  apply indexedFrom_block.
Qed.

(** The fragments of page [p] in the built index carry the texts of the
    renderer's items of that page, in the renderer's order. *)
Lemma pageItemsOf_buildIndex_text pages p items :
  1 <= p <= 10 -> pages !! (p - 1) = Some items ->
  map TextPosition.text (pageItemsOf (buildIndex pages) p) = map itemText items.
Proof.
  intros Hp Hitems. rewrite buildIndex_blocks.
  assert (take 10 pages !! (p - 1) = Some items) as Htake
    by (rewrite lookup_take_lt by lia; done).
  revert Htake. generalize (take 10 pages) as pgs. intros pgs.
  replace p with (1 + (p - 1)) at 2 by lia.
  generalize (p - 1) as k. generalize 1 as i. generalize 0 as off.
  clear. intros off i k. revert off i k.
  induction pgs as [|its rest IH]; intros off i k; [done|].
  simpl. rewrite pageItemsOf_app. destruct k as [|k]; simpl.
  - intros [= ->]. rewrite Nat.add_0_r.
    rewrite pageItemsOf_block_eq, pageItemsOf_blocks_lt by lia.
    by rewrite app_nil_r, text_block.
  - intros Hk. rewrite pageItemsOf_block_ne by lia. simpl.
    replace (i + S k) with (S i + k) by lia. by apply IH.
Qed.

(** ** From a character range to fragments *)

Lemma findItemsLoop_acc items s e cur acc :
  findItemsLoop items s e cur acc = acc ++ findItemsLoop items s e cur [].
Proof.
  revert cur acc; induction items as [|item rest IH]; intros cur acc; simpl.
  - by rewrite app_nil_r.
  - destruct (_ && _).
    + rewrite IH, (IH _ [_]). by rewrite <- app_assoc.
    + apply IH.
Qed.

Lemma findItemsLoop_cons item rest s e cur :
  findItemsLoop (item :: rest) s e cur []
  = (if (s <? cur + length (TextPosition.text item)) && (cur <? e)
     then [TextPosition.itemIndex item] else [])
    ++ findItemsLoop rest s e (cur + length (TextPosition.text item) + 1) [].
Proof.
  simpl. destruct (_ && _); [|done]. by rewrite findItemsLoop_acc.
Qed.

Lemma indexedFrom_cons base item rest :
  indexedFrom base (item :: rest) ->
  TextPosition.itemIndex item = base /\ indexedFrom (S base) rest.
Proof. unfold indexedFrom. simpl. by intros [= -> ->]. Qed.

(** Once the loop is past the end of the range, nothing more is collected. *)
Lemma findItemsLoop_past items s e cur :
  e <= cur -> findItemsLoop items s e cur [] = [].
Proof.
  revert cur; induction items as [|item rest IH]; intros cur Hle; [done|].
  rewrite findItemsLoop_cons.
  replace (cur <? e) with false by (symmetry; apply Nat.ltb_ge; lia).
  rewrite andb_false_r. simpl. apply IH. lia.
Qed.

(** Once the loop is past the start of the range, it collects a prefix. *)
Lemma findItemsLoop_inside base items s e cur :
  s < cur -> indexedFrom base items ->
  exists n, findItemsLoop items s e cur [] = seq base n /\ n <= length items.
Proof.
  revert base cur; induction items as [|item rest IH]; intros base cur Hlt Hidx.
  - by exists 0.
  - apply indexedFrom_cons in Hidx as [Hitem Hrest].
    rewrite findItemsLoop_cons, Hitem.
    replace (s <? cur + length (TextPosition.text item)) with true
      by (symmetry; apply Nat.ltb_lt; lia).
    destruct (cur <? e) eqn:He; simpl.
    + destruct (IH (S base) (cur + length (TextPosition.text item) + 1))
        as (n & -> & Hn); [lia | done |].
      exists (S n). split; [done | lia].
    + apply Nat.ltb_ge in He.
      rewrite findItemsLoop_past by lia. exists 0. split; [done | lia].
Qed.

(** The fragments collected for a range form one block of the page. *)
Lemma findItemsLoop_block base items s e cur :
  indexedFrom base items ->
  exists a n, findItemsLoop items s e cur [] = seq a n /\
              base <= a /\ a + n <= base + length items.
Proof.
  revert base cur; induction items as [|item rest IH]; intros base cur Hidx.
  - exists base, 0. simpl. split; [done | lia].
  - pose proof Hidx as [Hitem Hrest]%indexedFrom_cons.
    rewrite findItemsLoop_cons, Hitem.
    destruct ((s <? cur + length (TextPosition.text item)) && (cur <? e))
      eqn:Hc.
    + apply andb_true_iff in Hc as [Hs%Nat.ltb_lt _].
      destruct (findItemsLoop_inside (S base) rest s e
                  (cur + length (TextPosition.text item) + 1))
        as (n & -> & Hn); [lia | done |].
      exists base, (S n). simpl. split; [done | lia].
    + destruct (IH (S base) (cur + length (TextPosition.text item) + 1) Hrest)
        as (a & n & -> & Ha & Hn).
      exists a, n. simpl. split; [done | lia].
Qed.

Lemma length_join_cons t rest :
  length (join (t :: rest))
  = length t + match rest with [] => 0 | _ :: _ => 1 + length (join rest) end.
Proof.
  destruct rest; simpl; [lia|]. rewrite length_app. simpl. lia.
Qed.

(** A range of two characters or more inside the page text always meets a
    fragment: its first character is in a fragment, or it is a separator and
    the next fragment starts inside the range. *)
Lemma findItemsLoop_nonempty items s e cur :
  items <> [] -> cur <= s + 1 -> s + 2 <= e ->
  e <= cur + length (join (map TextPosition.text items)) ->
  findItemsLoop items s e cur [] <> [].
Proof.
  revert cur; induction items as [|item rest IH]; intros cur Hne Hcur Hlen He;
    [done|].
  rewrite findItemsLoop_cons.
  replace (cur <? e) with true by (symmetry; apply Nat.ltb_lt; lia).
  rewrite andb_true_r.
  destruct (s <? cur + length (TextPosition.text item)) eqn:Hs; [done|].
  apply Nat.ltb_ge in Hs. simpl.
  cbn [map] in He. rewrite length_join_cons in He.
  destruct rest as [|item' rest]; [simpl in He; lia|].
  apply IH; [done | lia | done |].
  cbn [map] in *. lia.
Qed.

Lemma pageOffset_0 items : pageOffset items 0 = 0.
Proof. unfold pageOffset. by rewrite take_0. Qed.

Lemma pageOffset_S item rest k :
  pageOffset (item :: rest) (S k)
  = length (TextPosition.text item) + 1 + pageOffset rest k.
Proof. reflexivity. Qed.

(** Which fragments [findItemsForCharRange] collects: those whose span, at
    its page-local offset, overlaps the range. *)
Lemma findItemsLoop_elem items s e cur idx :
  idx ∈ findItemsLoop items s e cur [] <->
  exists k t, items !! k = Some t /\ TextPosition.itemIndex t = idx /\
              s < cur + pageOffset items k + length (TextPosition.text t) /\
              cur + pageOffset items k < e.
Proof.
  revert cur; induction items as [|item rest IH]; intros cur.
  - simpl. split; [by intros ?%elem_of_nil | by intros (k & t & ? & _)].
  - rewrite findItemsLoop_cons, elem_of_app, IH. split.
    + intros [Hhd|(k & t & Hk & Hidx & Hs & He)].
      * destruct (_ && _) eqn:Hc; [|by apply elem_of_nil in Hhd].
        apply list_elem_of_singleton in Hhd as ->.
        apply andb_true_iff in Hc as [Hs%Nat.ltb_lt He%Nat.ltb_lt].
        exists 0, item. rewrite pageOffset_0. repeat split; lia.
      * exists (S k), t. rewrite pageOffset_S. repeat split; try done; lia.
    + intros ([|k] & t & Hk & Hidx & Hs & He).
      * left. simpl in Hk. injection Hk as <-. rewrite pageOffset_0 in Hs, He.
        replace (s <? _) with true by (symmetry; apply Nat.ltb_lt; lia).
        replace (cur <? e) with true by (symmetry; apply Nat.ltb_lt; lia).
        simpl. rewrite Hidx. apply list_elem_of_singleton. done.
      * right. exists k, t. rewrite pageOffset_S in Hs, He.
        repeat split; try done; lia.
Qed.

Lemma filter_seq_S (P : nat -> Prop) `{!forall k, Decision (P k)} a n :
  filter P (seq (S a) n) = S <$> filter (fun k => P (S k)) (seq a n).
Proof.
  revert a; induction n as [|n IH]; intros a; [done|].
  cbn [seq]. rewrite !filter_cons.
  destruct (decide (P (S a))); simpl; by rewrite IH.
Qed.

Lemma overlapsFrom_0 cur item rest s e :
  overlapsFrom cur (item :: rest) s e 0
  = (s <? cur + length (TextPosition.text item)) && (cur <? e).
Proof.
  unfold overlapsFrom. simpl. by rewrite pageOffset_0, Nat.add_0_r.
Qed.

Lemma overlapsFrom_S cur item rest s e k :
  overlapsFrom cur (item :: rest) s e (S k)
  = overlapsFrom (cur + length (TextPosition.text item) + 1) rest s e k.
Proof.
  unfold overlapsFrom. simpl. destruct (rest !! k) as [t|]; [|done].
  rewrite pageOffset_S. by rewrite !Nat.add_assoc.
Qed.

(** [findItemsForCharRange] returns, in page order, the item indices of the
    fragments whose span overlaps the range. *)
Lemma findItemsLoop_overlapping items s e cur :
  findItemsLoop items s e cur []
  = itemIndexAt items
      <$> filter (fun k => overlapsFrom cur items s e k = true)
            (seq 0 (length items)).
Proof.
  revert cur; induction items as [|item rest IH]; intros cur; [done|].
  rewrite findItemsLoop_cons, IH. cbn [length seq].
  rewrite filter_cons, overlapsFrom_0, filter_seq_S.
  rewrite (list_filter_iff
    (fun k => overlapsFrom cur (item :: rest) s e (S k) = true)
    (fun k => overlapsFrom (cur + length (TextPosition.text item) + 1)
                rest s e k = true))
    by (intros k; by rewrite overlapsFrom_S).
  destruct (decide (_ = true)) as [->|Hc%not_true_is_false].
  - cbn [fmap list_fmap app]. f_equal. by rewrite <- list_fmap_compose.
  - rewrite Hc. simpl. by rewrite <- list_fmap_compose.
Qed.

Lemma findItemsForCharRange_overlapping pageItems s e :
  findItemsForCharRange pageItems s e
  = itemIndexAt pageItems <$> overlapping pageItems s e.
Proof. apply findItemsLoop_overlapping. Qed.

Lemma length_findItemsForCharRange pageItems s e :
  length (findItemsForCharRange pageItems s e)
  = length (overlapping pageItems s e).
Proof. by rewrite findItemsForCharRange_overlapping, length_fmap. Qed.

Lemma indexedFrom_lookup base items k t :
  indexedFrom base items -> items !! k = Some t ->
  TextPosition.itemIndex t = base + k.
Proof.
  unfold indexedFrom. intros Hidx Hk.
  assert (map TextPosition.itemIndex items !! k
          = Some (TextPosition.itemIndex t)) as Hm
    by (by rewrite list_lookup_fmap, Hk).
  rewrite Hidx in Hm. by apply lookup_seq in Hm as [-> _].
Qed.

(** On a page whose item indices are the positions, the matcher returns
    the positions of the overlapping fragments. *)
Lemma findItemsForCharRange_indexed pageItems s e :
  indexedFrom 0 pageItems ->
  findItemsForCharRange pageItems s e = overlapping pageItems s e.
Proof.
  intros Hidx. rewrite findItemsForCharRange_overlapping.
  rewrite <- (list_fmap_id (overlapping pageItems s e)) at 2.
  apply list_fmap_ext. intros j k Hk.
  apply list_elem_of_lookup_2, list_elem_of_filter in Hk as [_ Hk].
  apply elem_of_seq in Hk as [_ Hk]. simpl in Hk.
  destruct (lookup_lt_is_Some_2 pageItems k Hk) as [t Ht].
  unfold itemIndexAt. rewrite Ht. simpl.
  by rewrite (indexedFrom_lookup 0 pageItems k t).
Qed.

(** [pageOffset] is where a fragment's text lies in the joined page text. *)
Lemma join_fragment_at pageItems k t :
  pageItems !! k = Some t ->
  occursAt (join (map TextPosition.text pageItems)) (TextPosition.text t)
    (pageOffset pageItems k).
Proof.
  revert k; induction pageItems as [|item rest IH]; intros k Hk; [done|].
  destruct k as [|k]; simpl in Hk.
  - injection Hk as ->. rewrite pageOffset_0.
    exists [], (match rest with
                | [] => []
                | _ :: _ => (Latin1 " ") :: join (map TextPosition.text rest)
                end).
    split; [|done]. destruct rest; simpl; [by rewrite app_nil_r | done].
  - destruct (IH k Hk) as (pre & post & Hjoin & Hlen).
    exists (TextPosition.text item ++ (Latin1 " ") :: pre), post.
    rewrite pageOffset_S, length_app. simpl. split; [|lia].
    destruct rest as [|item' rest]; [done|].
    cbn [map join] in *. rewrite Hjoin. by rewrite <- app_assoc.
Qed.

Lemma seq_consecutive a n j x y :
  seq a n !! j = Some x -> seq a n !! S j = Some y -> y = x + 1.
Proof. intros [-> _]%lookup_seq [-> _]%lookup_seq. lia. Qed.

Lemma seq_StronglySorted a n : StronglySorted lt (seq a n).
Proof.
  revert a; induction n as [|n IH]; intros a; simpl; constructor; [done|].
  apply Forall_forall. intros x [? ?]%elem_of_seq. lia.
Qed.

(** ** The citation matcher *)

Lemma searchForCitedText_Some textIndex query hintPage m :
  searchForCitedText textIndex query hintPage = Some m ->
  exists p i,
    hintPage = Some p /\ p <> 0 /\ 12 <= length query /\
    isPureNumber (trim query) = false /\
    indexOf (normalizedPageTextOf (pageItemsOf textIndex p))
      (normalizeQuery query) = Some i /\
    0 < length (SearchMatch.itemIndices m) <= 5 /\
    m = {| SearchMatch.pageNum := p;
           SearchMatch.itemIndices :=
             findItemsForCharRange (pageItemsOf textIndex p) i
               (i + length (normalizeQuery query));
           SearchMatch.exactMatch := true;
           SearchMatch.confidence := 1 |}.
Proof.
  unfold searchForCitedText.
  destruct (_ || _) eqn:Hguard; [done|].
  apply orb_false_iff in Hguard as [[_ Hlen%Nat.ltb_ge]%orb_false_iff _].
  destruct (isPureNumber (trim query)) eqn:Hnum; [done|].
  destruct hintPage as [[|p']|]; [done| |done].
  destruct (length (pageItemsOf textIndex (S p')) =? 0); [done|].
  destruct (indexOf _ _) as [i|] eqn:Hi; [|done].
  destruct (_ && _) eqn:Hsize; [|done].
  apply andb_true_iff in Hsize as [H0%Nat.ltb_lt H5%Nat.leb_le].
  intros [= <-]. exists (S p'), i. simpl. repeat split; try done; lia.
Qed.

Lemma searchForCitedText_intro textIndex query p i :
  12 <= length query -> isPureNumber (trim query) = false -> p <> 0 ->
  pageItemsOf textIndex p <> [] ->
  indexOf (normalizedPageTextOf (pageItemsOf textIndex p))
    (normalizeQuery query) = Some i ->
  findItemsForCharRange (pageItemsOf textIndex p) i
    (i + length (normalizeQuery query)) <> [] ->
  length (findItemsForCharRange (pageItemsOf textIndex p) i
            (i + length (normalizeQuery query))) <= 5 ->
  searchForCitedText textIndex query (Some p)
  = Some {| SearchMatch.pageNum := p;
            SearchMatch.itemIndices :=
              findItemsForCharRange (pageItemsOf textIndex p) i
                (i + length (normalizeQuery query));
            SearchMatch.exactMatch := true;
            SearchMatch.confidence := 1 |}.
Proof.
  intros Hlen Hnum Hp Hitems Hi Hne Hspan. unfold searchForCitedText.
  replace (length query <? 12) with false by (symmetry; by apply Nat.ltb_ge).
  assert (textIndex <> []) as Hindex by (by intros ->).
  destruct query as [|c query']; [simpl in Hlen; lia|].
  destruct textIndex as [|t index']; [done|].
  cbn [length Nat.eqb orb]. rewrite Hnum.
  destruct p as [|p']; [done|].
  destruct (pageItemsOf (t :: index') (S p')) as [|t0 items'] eqn:Hpi; [done|].
  cbn [length Nat.eqb]. rewrite Hi.
  replace (length _ <=? 5) with true by (symmetry; by apply Nat.leb_le).
  by destruct (findItemsForCharRange _ _ _).
Qed.

(** C6 -- length floor.  A query shorter than 12 characters, the empty one
    included, is never matched, whatever the index and the hint page. *)
Theorem length_floor (textIndex : list TextPosition.t) (query : jsstring)
    (hintPage : option nat) :
  length query < 12 -> searchForCitedText textIndex query hintPage = None.
Proof.
  intros Hlen. unfold searchForCitedText.
  replace (length query <? 12) with true by (symmetry; by apply Nat.ltb_lt).
  by rewrite orb_true_r.
Qed.

(** C7 -- numeric rejection.  A query whose trimmed form matches
    [^\d+\.?\d*$] is never matched, whatever the index (so also when the
    page contains the number) and the hint page; in particular 45 and 8.5
    are never matched. *)
Theorem numeric_rejection :
  (forall textIndex query hintPage,
     isPureNumber (trim query) = true ->
     searchForCitedText textIndex query hintPage = None) /\
  (forall textIndex hintPage,
     searchForCitedText textIndex (str "45") hintPage = None) /\
  (forall textIndex hintPage,
     searchForCitedText textIndex (str "8.5") hintPage = None).
Proof.
  split; [|done]. intros textIndex query hintPage Hnum.
  unfold searchForCitedText. rewrite Hnum. by destruct (_ || _).
Qed.

(** C8 -- no hint page.  Without a hint page nothing is matched, whatever
    the query and the index. *)
Theorem no_hint_page (textIndex : list TextPosition.t) (query : jsstring) :
  searchForCitedText textIndex query None = None.
Proof.
  unfold searchForCitedText.
  destruct (_ || _); [done|]. by destruct (isPureNumber _).
Qed.

Lemma keepsLength_join pageItems :
  keepsLength pageItems -> DottedI ∉ join (map TextPosition.text pageItems).
Proof.
  induction pageItems as [|t rest IH]; [intros _; apply not_elem_of_nil|].
  intros [Ht Hrest]%Forall_cons. apply length_toLowerCase in Ht.
  destruct rest as [|u rest]; [done|].
  change (join (map TextPosition.text (t :: u :: rest)))
    with (TextPosition.text t
            ++ Latin1 " " :: join (map TextPosition.text (u :: rest))).
  rewrite not_elem_of_app, not_elem_of_cons. split; [done|].
  split; [done | by apply IH].
Qed.

Lemma length_normalizedPageTextOf pageItems :
  keepsLength pageItems ->
  length (normalizedPageTextOf pageItems)
  = length (join (map TextPosition.text pageItems)).
Proof. intros Hk. by apply length_toLowerCase, keepsLength_join. Qed.

Lemma overlapsFrom_lengths cur l1 l2 s e :
  map (fun t => length (TextPosition.text t)) l1
  = map (fun t => length (TextPosition.text t)) l2 ->
  filter (fun k => overlapsFrom cur l1 s e k = true) (seq 0 (length l1))
  = filter (fun k => overlapsFrom cur l2 s e k = true) (seq 0 (length l2)).
Proof.
  revert cur l2; induction l1 as [|t1 l1 IH]; intros cur [|t2 l2] Hlen;
    try done.
  injection Hlen as Ht Hlen. cbn [length seq].
  rewrite !filter_cons, !overlapsFrom_0, !filter_seq_S, Ht.
  rewrite (list_filter_iff
    (fun k => overlapsFrom cur (t1 :: l1) s e (S k) = true)
    (fun k => overlapsFrom (cur + length (TextPosition.text t2) + 1)
                l1 s e k = true))
    by (intros k; by rewrite overlapsFrom_S, Ht).
  rewrite (list_filter_iff
    (fun k => overlapsFrom cur (t2 :: l2) s e (S k) = true)
    (fun k => overlapsFrom (cur + length (TextPosition.text t2) + 1)
                l2 s e k = true))
    by (intros k; by rewrite overlapsFrom_S).
  by rewrite (IH _ l2 Hlen).
Qed.

(** Where lowercasing keeps the lengths, the fragments under a range of
    the lowercased text are those whose span in the text of the page
    overlaps it. *)
Lemma covering_overlapping pageItems s e :
  keepsLength pageItems ->
  covering pageItems s e = overlapping pageItems s e.
Proof.
  intros Hk. apply overlapsFrom_lengths.
  rewrite <- list_fmap_compose. apply Forall_fmap_ext_1.
  eapply Forall_impl; [exact Hk|]. by intros t Ht.
Qed.

Lemma pageItemsOf_buildIndex_0 pages : pageItemsOf (buildIndex pages) 0 = [].
Proof. rewrite buildIndex_blocks. apply pageItemsOf_blocks_lt. lia. Qed.

(** The fragments that the matcher returns for a range of the page text of
    the built index: a run [a, a + 1, ...] of positions of that page. *)
Lemma findItemsForCharRange_buildIndex pages p s e :
  exists a n,
    findItemsForCharRange (pageItemsOf (buildIndex pages) p) s e = seq a n /\
    a + n <= length (pageItemsOf (buildIndex pages) p).
Proof.
  destruct (findItemsLoop_block 0 (pageItemsOf (buildIndex pages) p) s e 0
              (pageItemsOf_buildIndex_indexed pages p))
    as (a & n & Heq & _ & Hn).
  exists a, n. split; [done | lia].
Qed.

(** The span ceiling, where lowercasing keeps the lengths.  When the
    normalised query occurs in the lowercased text of the hint page, first
    at offset [i], and that occurrence lies over more than 5 fragments of
    the page, nothing is matched, provided that lowercasing keeps the length
    of every fragment of the page. *)
Theorem span_ceiling (textIndex : list TextPosition.t) (query : jsstring)
    (p i : nat) :
  let pageItems := pageItemsOf textIndex p in
  keepsLength pageItems ->
  firstOccurrence (toLowerCase (join (map TextPosition.text pageItems)))
    (normalizeQuery query) i ->
  5 < length (covering pageItems i (i + length (normalizeQuery query))) ->
  searchForCitedText textIndex query (Some p) = None.
Proof.
  intros pageItems Hkeep Hfirst Hspan.
  rewrite covering_overlapping in Hspan by done.
  rewrite <- length_findItemsForCharRange in Hspan.
  destruct (searchForCitedText _ _ _) as [m|] eqn:Hm; [|done].
  apply searchForCitedText_Some in Hm
    as (p' & i' & [= <-] & _ & _ & _ & Hi' & Hlen & ->).
  apply indexOf_first in Hi'.
  rewrite (firstOccurrence_unique _ _ _ _ Hi' Hfirst) in Hlen.
  simpl in Hlen. unfold pageItems in Hspan. lia.
Qed.

(** Exact containment, where lowercasing keeps the lengths.  Let [q] be
    the normalised query, with at least 12 characters and not a pure number,
    and let lowercasing keep the length of the query and of every fragment
    of the hint page.  If [q] occurs in the lowercased, space-joined text of
    the hint page of the built index, first at offset [i], and that
    occurrence lies over at most 5 fragments, then the matcher returns a
    match for that page, with [exactMatch = true], [confidence = 1], and
    item indices that are not empty, strictly increasing, and all below the
    number of fragments of the page: they are the positions of the
    fragments under the occurrence. *)
Theorem exact_containment (pages : list (list TextItem.t)) (query : jsstring)
    (p i : nat) :
  let q := normalizeQuery query in
  let pageItems := pageItemsOf (buildIndex pages) p in
  length (toLowerCase query) = length query ->
  keepsLength pageItems ->
  12 <= length q ->
  isPureNumber q = false ->
  firstOccurrence (toLowerCase (join (map TextPosition.text pageItems))) q i ->
  length (covering pageItems i (i + length q)) <= 5 ->
  exists m,
    searchForCitedText (buildIndex pages) query (Some p) = Some m /\
    SearchMatch.pageNum m = p /\
    SearchMatch.exactMatch m = true /\
    SearchMatch.confidence m = 1%Q /\
    SearchMatch.itemIndices m = covering pageItems i (i + length q) /\
    SearchMatch.itemIndices m <> [] /\
    StronglySorted lt (SearchMatch.itemIndices m) /\
    Forall (fun idx => idx < length pageItems) (SearchMatch.itemIndices m).
Proof.
  intros q pageItems Hquery Hkeep Hlen Hnum Hfirst Hspan.
  rewrite covering_overlapping in Hspan |- * by done.
  rewrite <- length_findItemsForCharRange in Hspan.
  pose proof (length_normalizeQuery query) as Hraw. fold q in Hraw.
  pose proof Hfirst as [Hocc%occursAt_bound _].
  fold (normalizedPageTextOf pageItems) in Hocc, Hfirst.
  rewrite length_normalizedPageTextOf in Hocc by done.
  assert (pageItems <> []) as Hitems.
  { intros Heq. rewrite Heq in Hocc. simpl in Hocc. lia. }
  assert (p <> 0) as Hp.
  { intros ->. apply Hitems. apply pageItemsOf_buildIndex_0. }
  assert (findItemsForCharRange pageItems i (i + length q) <> []) as Hne.
  { apply findItemsLoop_nonempty; [done | lia | lia | simpl; lia]. }
  eexists. split.
  - apply searchForCitedText_intro with (i := i); try done.
    + lia.
    + by rewrite <- isPureNumber_normalizeQuery.
    + by apply indexOf_first.
  - simpl. repeat split; try done.
    + apply findItemsForCharRange_indexed, pageItemsOf_buildIndex_indexed.
    + destruct (findItemsForCharRange_buildIndex pages p i
                  (i + length (normalizeQuery query))) as (a & n & -> & _).
      apply seq_StronglySorted.
    + destruct (findItemsForCharRange_buildIndex pages p i
                  (i + length (normalizeQuery query))) as (a & n & -> & Hn).
      apply Forall_forall. intros x [? ?]%elem_of_seq. unfold pageItems. lia.
Qed.

Lemma pageOffset_lowered pageItems k :
  keepsLength pageItems ->
  pageOffset (map lowered pageItems) k = pageOffset pageItems k.
Proof.
  unfold pageOffset, textWeight. revert k.
  induction pageItems as [|t rest IH]; intros k Hkeep; [by destruct k|].
  apply Forall_cons in Hkeep as [Ht Hrest]. destruct k as [|k]; [done|].
  cbn [map firstn take sum_list_with]. rewrite (IH k Hrest).
  simpl. by rewrite Ht.
Qed.

(** The matched fragments are a contiguous block.  Every match that the
    matcher returns on the built index lists consecutive item indices, each
    one more than the one before.  A fragment of the hint page with empty
    text is among them exactly when the offset that it has in the text of
    the page lies strictly inside the range that the first occurrence of
    the normalised query has in the lowercased text of the page.  Where
    lowercasing keeps the length of every fragment of the page, this is the
    offset that the fragment has in the lowercased text: the fragment is
    then listed exactly when it lies strictly inside the matched range. *)
Theorem match_span_contiguous (pages : list (list TextItem.t))
    (query : jsstring) (hintPage : option nat) (m : SearchMatch.t) :
  searchForCitedText (buildIndex pages) query hintPage = Some m ->
  exists p i,
    hintPage = Some p /\
    firstOccurrence
      (toLowerCase
         (join (map TextPosition.text (pageItemsOf (buildIndex pages) p))))
      (normalizeQuery query) i /\
    (forall j x y,
       SearchMatch.itemIndices m !! j = Some x ->
       SearchMatch.itemIndices m !! S j = Some y -> y = x + 1) /\
    (forall k t,
       pageItemsOf (buildIndex pages) p !! k = Some t ->
       TextPosition.text t = [] ->
       (TextPosition.itemIndex t ∈ SearchMatch.itemIndices m <->
        i < pageOffset (pageItemsOf (buildIndex pages) p) k
          < i + length (normalizeQuery query))) /\
    (keepsLength (pageItemsOf (buildIndex pages) p) ->
     forall k t,
       pageItemsOf (buildIndex pages) p !! k = Some t ->
       TextPosition.text t = [] ->
       (TextPosition.itemIndex t ∈ SearchMatch.itemIndices m <->
        i < pageOffset (map lowered (pageItemsOf (buildIndex pages) p)) k
          < i + length (normalizeQuery query))).
Proof.
  intros (p & i & -> & _ & _ & _ & Hi & _ & ->)%searchForCitedText_Some.
  exists p, i. split; [done|]. split; [by apply indexOf_first|]. simpl.
  pose proof (pageItemsOf_buildIndex_indexed pages p) as Hidx.
  assert (forall k t,
            pageItemsOf (buildIndex pages) p !! k = Some t ->
            TextPosition.text t = [] ->
            (TextPosition.itemIndex t
               ∈ findItemsForCharRange (pageItemsOf (buildIndex pages) p) i
                   (i + length (normalizeQuery query)) <->
             i < pageOffset (pageItemsOf (buildIndex pages) p) k
               < i + length (normalizeQuery query))) as Hempty.
  { intros k t Hk Htext. unfold findItemsForCharRange.
    rewrite findItemsLoop_elem. split.
    + intros (k' & t' & Hk' & Heq & Hs & He).
      rewrite (indexedFrom_lookup _ _ _ _ Hidx Hk),
        (indexedFrom_lookup _ _ _ _ Hidx Hk') in Heq.
      simpl in Heq. subst k'. rewrite Hk in Hk'. injection Hk' as <-.
      rewrite Htext in Hs. simpl in Hs. lia.
    + intros [Hs He]. exists k, t. rewrite Htext. simpl.
      repeat split; try done; lia. }
  split; [|split].
  - destruct (findItemsForCharRange_buildIndex pages p i
                (i + length (normalizeQuery query))) as (a & n & -> & _).
    apply seq_consecutive.
  - exact Hempty.
  - intros Hkeep k t Hk Htext. rewrite pageOffset_lowered by done.
    by apply Hempty.
Qed.

(** ** Highlight keys *)

Lemma str_inj s1 s2 : str s1 = str s2 -> s1 = s2.
Proof.
  unfold str. intros H.
  assert (list_ascii_of_string s1 = list_ascii_of_string s2) as Heq.
  { revert H. generalize (list_ascii_of_string s1) (list_ascii_of_string s2).
    induction l as [|a l IH]; intros [|b l'] H; try done.
    injection H as -> H. by rewrite (IH l' H). }
  by rewrite <- (string_of_list_ascii_of_string s1), Heq,
    string_of_list_ascii_of_string.
Qed.

Lemma pretty_N_char_not_dash x : pretty_N_char x <> "-"%char.
Proof. unfold pretty_N_char. by repeat case_match. Qed.

Lemma pretty_N_go_no_dash x s :
  (Latin1 "-") ∉ str s -> (Latin1 "-") ∉ str (pretty_N_go x s).
Proof.
  revert s. induction (N.lt_wf_0 x) as [x _ IH]; intros s Hs.
  assert (x = 0 \/ 0 < x)%N as [->|Hx] by lia.
  - by rewrite pretty_N_go_0.
  - rewrite pretty_N_go_step by done. apply IH.
    + by apply N.div_lt.
    + unfold str in *. cbn [list_ascii_of_string map].
      rewrite elem_of_cons. intros [[= Heq]|?]; [|done].
      by apply (pretty_N_char_not_dash (x `mod` 10)%N).
Qed.

(** The decimal representation of a non-negative integer has no dash. *)
Lemma pretty_nat_no_dash (n : nat) : (Latin1 "-") ∉ str (pretty n).
Proof.
  unfold pretty, pretty_nat, pretty, pretty_N. case_decide.
  - unfold str. cbn [list_ascii_of_string map].
    rewrite elem_of_cons. intros [?|?%elem_of_nil]; done.
  - apply pretty_N_go_no_dash. apply not_elem_of_nil.
Qed.

Lemma app_pivot_inj (c : CodeUnit) (l1 l2 r1 r2 : jsstring) :
  c ∉ l1 -> c ∉ l2 -> l1 ++ c :: r1 = l2 ++ c :: r2 -> l1 = l2 /\ r1 = r2.
Proof.
  revert l2; induction l1 as [|a l1 IH]; intros [|b l2] H1 H2 Heq; simpl in *.
  - by injection Heq as ->.
  - injection Heq as <- _. exfalso. apply H2. by left.
  - injection Heq as -> _. exfalso. apply H1. by left.
  - injection Heq as -> Heq. apply not_elem_of_cons in H1 as [_ H1].
    apply not_elem_of_cons in H2 as [_ H2].
    destruct (IH l2 H1 H2 Heq) as [-> ->]. done.
Qed.

(** Two keys are equal only for the same page and the same item. *)
Lemma highlightKey_inj p1 i1 p2 i2 :
  highlightKey p1 i1 = highlightKey p2 i2 -> p1 = p2 /\ i1 = i2.
Proof.
  unfold highlightKey.
  intros [Hp%str_inj Hi%str_inj]%app_pivot_inj;
    [|apply pretty_nat_no_dash..].
  split; by apply (inj pretty).
Qed.

(** ** The highlight map *)

Lemma setHighlights_cons mapping q p idx idxs highlights :
  setHighlights mapping q (SearchMatch.mk p (idx :: idxs) true 1) highlights
  = setHighlights mapping q (SearchMatch.mk p idxs true 1)
      (<[ highlightKey p idx := highlightOf mapping q p idx ]> highlights).
Proof. reflexivity. Qed.

(** Items that are not in the match keep what the map had for them. *)
Lemma setHighlights_other mapping q p idxs highlights pg idx :
  ~ (p = pg /\ idx ∈ idxs) ->
  setHighlights mapping q (SearchMatch.mk p idxs true 1) highlights
    !! highlightKey pg idx
  = highlights !! highlightKey pg idx.
Proof.
  revert highlights; induction idxs as [|x idxs IH]; intros highlights Hnot;
    [done|].
  rewrite setHighlights_cons, IH.
  - apply lookup_insert_ne. intros [-> ->]%highlightKey_inj.
    apply Hnot. split; [done | by left].
  - intros [-> Hin]. apply Hnot. split; [done | by right].
Qed.

(** Items that are in the match get the highlight of this mapping. *)
Lemma setHighlights_item mapping q p idxs highlights idx :
  idx ∈ idxs ->
  setHighlights mapping q (SearchMatch.mk p idxs true 1) highlights
    !! highlightKey p idx
  = Some (highlightOf mapping q p idx).
Proof.
  revert highlights; induction idxs as [|x idxs IH]; intros highlights Hin.
  - by apply elem_of_nil in Hin.
  - rewrite setHighlights_cons. destruct (decide (idx ∈ idxs)) as [Hin'|Hout].
    + by apply IH.
    + apply elem_of_cons in Hin as [->|?]; [|done].
      rewrite setHighlights_other by (by intros [_ ?]).
      apply lookup_insert_eq.
Qed.

Lemma searchForCitedText_shape textIndex query hintPage m :
  searchForCitedText textIndex query hintPage = Some m ->
  hintPage = Some (SearchMatch.pageNum m) /\
  m = SearchMatch.mk (SearchMatch.pageNum m) (SearchMatch.itemIndices m) true 1.
Proof.
  by intros (p & i & -> & _ & _ & _ & _ & _ & ->)%searchForCitedText_Some.
Qed.

Lemma highlightMapping_touched textIndex highlights mapping q m idx :
  searchQueryOf mapping = Some q ->
  searchForCitedText textIndex q (Some (MappingItem.page mapping)) = Some m ->
  idx ∈ SearchMatch.itemIndices m ->
  highlightMapping textIndex highlights mapping
    !! highlightKey (SearchMatch.pageNum m) idx
  = Some (highlightOf mapping q (SearchMatch.pageNum m) idx).
Proof.
  intros Hq Hm Hin. unfold highlightMapping. rewrite Hq, Hm.
  apply searchForCitedText_shape in Hm as [_ Hm]. rewrite Hm. simpl.
  by apply setHighlights_item.
Qed.

Lemma highlightMapping_untouched textIndex highlights mapping pg idx :
  ~ touches textIndex mapping pg idx ->
  highlightMapping textIndex highlights mapping !! highlightKey pg idx
  = highlights !! highlightKey pg idx.
Proof.
  intros Hnot. unfold highlightMapping.
  destruct (searchQueryOf mapping) as [q|] eqn:Hq; [|done].
  destruct (searchForCitedText _ _ _) as [m|] eqn:Hm; [|done].
  pose proof Hm as [_ Hshape]%searchForCitedText_shape. rewrite Hshape.
  apply setHighlights_other. intros [Hp Hin].
  apply Hnot. by exists q, m.
Qed.

Lemma foldl_highlightMapping_untouched textIndex highlights mappings pg idx :
  Forall (fun mapping => ~ touches textIndex mapping pg idx) mappings ->
  foldl (highlightMapping textIndex) highlights mappings !! highlightKey pg idx
  = highlights !! highlightKey pg idx.
Proof.
  revert highlights; induction mappings as [|mapping rest IH];
    intros highlights Hall; [done|].
  apply Forall_cons in Hall as [Hm Hrest]. simpl.
  rewrite IH by done. by apply highlightMapping_untouched.
Qed.

(** The map holds, for an item, the highlight of the last mapping of the
    sequence that touches it. *)
Lemma buildPreciseHighlights_last textIndex before mapping after q m idx :
  searchQueryOf mapping = Some q ->
  searchForCitedText textIndex q (Some (MappingItem.page mapping)) = Some m ->
  idx ∈ SearchMatch.itemIndices m ->
  Forall (fun later => ~ touches textIndex later (SearchMatch.pageNum m) idx)
    after ->
  buildPreciseHighlights textIndex (before ++ mapping :: after)
    !! highlightKey (SearchMatch.pageNum m) idx
  = Some (highlightOf mapping q (SearchMatch.pageNum m) idx).
Proof.
  intros Hq Hm Hin Hafter. unfold buildPreciseHighlights.
  rewrite foldl_app. simpl.
  rewrite foldl_highlightMapping_untouched by done.
  by apply highlightMapping_touched.
Qed.

(** C5 -- last writer wins.  When two mappings of a sequence, with
    different paths, both match item [idx] of page [pg], and no mapping
    after the second one matches that item, the map built from the sequence
    holds at the key of [(pg, idx)] the highlight of the second mapping,
    with its path and not the path of the first. *)
Theorem last_writer_wins (textIndex : list TextPosition.t)
    (before between after : list MappingItem.t) (first second : MappingItem.t)
    (pg idx : nat) :
  touches textIndex first pg idx ->
  touches textIndex second pg idx ->
  MappingItem.path first <> MappingItem.path second ->
  Forall (fun later => ~ touches textIndex later pg idx) after ->
  exists q e,
    searchQueryOf second = Some q /\
    buildPreciseHighlights textIndex
      (before ++ first :: between ++ second :: after) !! highlightKey pg idx
    = Some e /\
    e = highlightOf second q pg idx /\
    PreciseHighlight.path e = MappingItem.path second /\
    PreciseHighlight.path e <> MappingItem.path first.
Proof.
  intros _ (q & m & Hq & Hm & <- & Hin) Hpath Hafter.
  exists q, (highlightOf second q (SearchMatch.pageNum m) idx).
  split; [done|]. split; [|by repeat split].
  replace (before ++ first :: between ++ second :: after)
    with ((before ++ first :: between) ++ second :: after)
    by (by rewrite <- app_assoc).
  by apply buildPreciseHighlights_last.
Qed.

(** ** Field-path inference *)

(** C9, as amended -- the doi rule.  A context whose lowercased form
    contains "doi", and neither "author" nor "citation", is given the path
    [studyId.doi]. *)
Theorem doi_rule (context : jsstring) :
  contains (toLowerCase context) (str "doi") ->
  ~ contains (toLowerCase context) (str "author") ->
  ~ contains (toLowerCase context) (str "citation") ->
  inferFieldPath context = str "studyId.doi".
Proof.
  unfold contains. rewrite <- !includes_true. intros Hdoi Hauthor Hcitation.
  apply not_true_is_false in Hauthor, Hcitation.
  unfold inferFieldPath. by rewrite Hauthor, Hcitation, Hdoi.
Qed.

(** ** Worked examples *)

(** The fragments [size | was | 42 | patients] of page 3 are found. *)
Example scenario_A :
  searchForCitedText sampleIndex (str "size was 42 patients") (Some 3)
  = Some (SearchMatch.mk 3 [1; 2; 3; 4] true 1).
Proof. vm_compute. reflexivity. Qed.

(** A number alone is not searched. *)
Example scenario_B : searchForCitedText sampleIndex (str "42") (Some 3) = None.
Proof. vm_compute. reflexivity. Qed.

(** A sentence that is on page 5, over ten fragments, is not matched. *)
Example scenario_C :
  includes (normalizedPageTextOf (pageItemsOf sampleIndex 5))
    (str "mortality rate was twenty percent in this cohort of patients")
  = true /\
  searchForCitedText sampleIndex
    (str "mortality rate was twenty percent in this cohort of patients")
    (Some 5) = None.
Proof. split; vm_compute; reflexivity. Qed.

(** A cited phrase over two fragments of page 4 gives two highlights. *)
Example scenario_D :
  let mapping :=
    sampleMapping 4 "imaging.brainstemInvolvement" "true"
      (Some "brainstem compression") in
  let highlights := buildPreciseHighlights sampleIndex [mapping] in
  size highlights = 2 /\
  highlights !! highlightKey 4 1
  = Some (highlightOf mapping (str "brainstem compression") 4 1) /\
  highlights !! highlightKey 4 2
  = Some (highlightOf mapping (str "brainstem compression") 4 2).
Proof. repeat split; vm_compute; reflexivity. Qed.

(** A query in another case and with other white space than the page. *)
Example scenario_normalised :
  normalizeQuery (str "  Size   WAS 42 patients ") = str "size was 42 patients".
Proof. vm_compute. reflexivity. Qed.

(** ** The matcher after U+0130

    The matcher finds the occurrence in the lowercased text of the page and
    looks for its fragments with the lengths of the texts that are not
    lowercased.  The lower case of U+0130 has two code units, so after a
    U+0130 the offsets of the two texts differ. *)

(** C1 -- exact containment, lost after U+0130.  The page has the fragments
    [25 times U+0130 | size was 42 patients | next].  The query
    [size was 42 patients] is its own normal form, has 20 characters and is
    not a pure number; it occurs in the lowercased, space-joined text of the
    page, first at offset 51, and that occurrence lies over one fragment,
    the second.  The matcher returns [null]: the text of the page that is
    not lowercased has 51 characters, and no fragment of it overlaps the
    range that starts at 51. *)
Theorem exact_containment_lost :
  let pageItems := pageItemsOf (buildIndex lostMatchPages) 1 in
  let query := str "size was 42 patients" in
  normalizeQuery query = query /\
  length query = 20 /\
  isPureNumber query = false /\
  firstOccurrence (toLowerCase (join (map TextPosition.text pageItems)))
    query 51 /\
  covering pageItems 51 (51 + 20) = [1] /\
  length (join (map TextPosition.text pageItems)) = 51 /\
  findItemsForCharRange pageItems 51 (51 + 20) = [] /\
  searchForCitedText (buildIndex lostMatchPages) query (Some 1) = None.
Proof.
  repeat split; try (vm_compute; reflexivity);
    apply indexOf_first; vm_compute; reflexivity.
Qed.

(** C2 -- span ceiling, missed after U+0130.  The page has the fragments
    [20 times U+0130 | aa | bb | cc | dd | ee | ff | 20 times g].  The
    query [aa bb cc dd ee ff] occurs in the lowercased text of the page,
    first at offset 41, and that occurrence lies over the six fragments 1
    to 6.  The matcher does not return [null]: it returns a match with the
    one fragment 7, the only one whose span in the text that is not
    lowercased overlaps the range from 41 to 58. *)
Theorem span_ceiling_missed :
  let pageItems := pageItemsOf (buildIndex widePages) 1 in
  let query := str "aa bb cc dd ee ff" in
  normalizeQuery query = query /\
  firstOccurrence (toLowerCase (join (map TextPosition.text pageItems)))
    query 41 /\
  covering pageItems 41 (41 + length query) = [1; 2; 3; 4; 5; 6] /\
  searchForCitedText (buildIndex widePages) query (Some 1)
  = Some (SearchMatch.mk 1 [7] true 1).
Proof.
  repeat split; try (vm_compute; reflexivity);
    apply indexOf_first; vm_compute; reflexivity.
Qed.

(** C10 -- an empty fragment after the citation is listed.  The page has
    the fragments [2 times U+0130 | abcdefghijkl | (empty) | 16 times z].
    The query [abcdefghijkl] occurs in the lowercased text of the page,
    first at offset 5, in the range from 5 to 17, which lies over fragment 1
    alone; the empty fragment 2 is at offset 18 of that text, after the
    range.  The matcher returns the fragments 1 and 2: they are consecutive,
    and the empty fragment is among them although it is not inside the
    matched range. *)
Theorem empty_fragment_listed :
  let pageItems := pageItemsOf (buildIndex emptyAfterPages) 1 in
  let query := str "abcdefghijkl" in
  normalizeQuery query = query /\
  firstOccurrence (toLowerCase (join (map TextPosition.text pageItems)))
    query 5 /\
  covering pageItems 5 (5 + length query) = [1] /\
  TextPosition.text <$> pageItems !! 2 = Some [] /\
  pageOffset (map lowered pageItems) 2 = 18 /\
  searchForCitedText (buildIndex emptyAfterPages) query (Some 1)
  = Some (SearchMatch.mk 1 [1; 2] true 1).
Proof.
  repeat split; try (vm_compute; reflexivity);
    apply indexOf_first; vm_compute; reflexivity.
Qed.

Lemma exact_containment_witness :
  exists m,
    searchForCitedText (buildIndex samplePages) (str "Size was  42 patients")
      (Some 3) = Some m /\
    SearchMatch.pageNum m = 3 /\
    SearchMatch.exactMatch m = true /\
    SearchMatch.confidence m = 1%Q /\
    SearchMatch.itemIndices m
    = covering (pageItemsOf (buildIndex samplePages) 3) 7
        (7 + length (normalizeQuery (str "Size was  42 patients"))) /\
    SearchMatch.itemIndices m <> [] /\
    StronglySorted lt (SearchMatch.itemIndices m) /\
    Forall (fun idx => idx < length (pageItemsOf (buildIndex samplePages) 3))
      (SearchMatch.itemIndices m).
Proof.
  apply (exact_containment samplePages (str "Size was  42 patients") 3 7).
  - vm_compute. reflexivity.
  - vm_compute. repeat constructor.
  - vm_compute. lia.
  - vm_compute. reflexivity.
  - apply indexOf_first. vm_compute. reflexivity.
  - vm_compute. lia.
Defined.

Lemma span_ceiling_witness :
  searchForCitedText sampleIndex
    (str "mortality rate was twenty percent in this cohort of patients")
    (Some 5) = None.
Proof.
  apply (span_ceiling sampleIndex _ 5 0).
  - vm_compute. repeat constructor.
  - apply indexOf_first. vm_compute. reflexivity.
  - vm_compute. lia.
Defined.

Lemma buildIndex_offset_invariant_witness :
  exists t t',
    buildIndex samplePages !! 1 = Some t /\
    buildIndex samplePages !! 2 = Some t' /\
    TextPosition.charEnd t
    = TextPosition.charStart t + length (TextPosition.text t) /\
    TextPosition.charStart t' = TextPosition.charEnd t + 1.
Proof.
  destruct (buildIndex_offset_invariant samplePages) as [Hend Hnext].
  eexists _, _. split; [vm_compute; reflexivity|].
  split; [vm_compute; reflexivity|]. split.
  - apply (Hend 1). vm_compute. reflexivity.
  - apply (Hnext 1); vm_compute; reflexivity.
Defined.

Lemma last_writer_wins_witness :
  exists q e,
    searchQueryOf surgicalNMapping = Some q /\
    buildPreciseHighlights sampleIndex
      ([] ++ totalNMapping :: [] ++ surgicalNMapping :: [])
      !! highlightKey 3 2 = Some e /\
    e = highlightOf surgicalNMapping q 3 2 /\
    PreciseHighlight.path e = MappingItem.path surgicalNMapping /\
    PreciseHighlight.path e <> MappingItem.path totalNMapping.
Proof.
  apply (last_writer_wins sampleIndex [] [] [] totalNMapping surgicalNMapping).
  - exists (str "size was 42 patients"), (SearchMatch.mk 3 [1; 2; 3; 4] true 1).
    repeat split; try (vm_compute; reflexivity).
    apply list_elem_of_In. simpl. tauto.
  - exists (str "was 42 patients total."),
      (SearchMatch.mk 3 [2; 3; 4; 5] true 1).
    repeat split; try (vm_compute; reflexivity).
    apply list_elem_of_In. simpl. tauto.
  - vm_compute. discriminate.
  - constructor.
Defined.

Lemma length_floor_witness :
  searchForCitedText sampleIndex (str "size was 42") (Some 3) = None.
Proof. apply length_floor. vm_compute. lia. Defined.

Lemma numeric_rejection_witness :
  isPureNumber (trim (str "  1234567890123.5 ")) = true /\
  searchForCitedText sampleIndex (str "  1234567890123.5 ") (Some 3) = None.
Proof.
  split; [vm_compute; reflexivity|].
  apply (proj1 numeric_rejection). vm_compute. reflexivity.
Defined.

Lemma doi_rule_witness :
  inferFieldPath (str "The DOI is 10.1016/j.inat.2020.100822")
  = str "studyId.doi".
Proof.
  apply doi_rule.
  - apply includes_true. vm_compute. reflexivity.
  - unfold contains. rewrite <- includes_true. vm_compute. discriminate.
  - unfold contains. rewrite <- includes_true. vm_compute. discriminate.
Defined.

Lemma match_span_contiguous_witness :
  exists p i,
    Some 1 = Some p /\
    firstOccurrence
      (toLowerCase
         (join (map TextPosition.text
                  (pageItemsOf (buildIndex emptyAfterPages) p))))
      (normalizeQuery (str "abcdefghijkl")) i /\
    (forall j x y,
       [1; 2] !! j = Some x -> [1; 2] !! S j = Some y -> y = x + 1) /\
    (forall k t,
       pageItemsOf (buildIndex emptyAfterPages) p !! k = Some t ->
       TextPosition.text t = [] ->
       (TextPosition.itemIndex t ∈ [1; 2] <->
        i < pageOffset (pageItemsOf (buildIndex emptyAfterPages) p) k
          < i + length (normalizeQuery (str "abcdefghijkl")))) /\
    (keepsLength (pageItemsOf (buildIndex emptyAfterPages) p) ->
     forall k t,
       pageItemsOf (buildIndex emptyAfterPages) p !! k = Some t ->
       TextPosition.text t = [] ->
       (TextPosition.itemIndex t ∈ [1; 2] <->
        i < pageOffset
              (map lowered (pageItemsOf (buildIndex emptyAfterPages) p)) k
          < i + length (normalizeQuery (str "abcdefghijkl")))).
Proof.
  apply (match_span_contiguous emptyAfterPages (str "abcdefghijkl")
           (Some 1) (SearchMatch.mk 1 [1; 2] true 1)).
  vm_compute. reflexivity.
Defined.

(** The doi rule fails on a context that also has the word "author": the
    rule for [studyId.citation] comes first. *)
Lemma doi_rule_counterexample :
  contains (toLowerCase (str "Author DOI: 10.1016/j.inat.2020.100822"))
    (str "doi") /\
  inferFieldPath (str "Author DOI: 10.1016/j.inat.2020.100822")
  = str "studyId.citation" /\
  inferFieldPath (str "Author DOI: 10.1016/j.inat.2020.100822")
  <> str "studyId.doi".
Proof.
  split; [|split].
  - apply includes_true. vm_compute. reflexivity.
  - vm_compute. reflexivity.
  - vm_compute. discriminate.
Qed.

(** * Further properties of the matcher, the index and the highlight map *)

(** ** The matcher *)

(** A match is sound: it is for the hinted page, it is an exact match with
    full confidence, it has between 1 and 5 item indices, each the index of
    an item of that page, and the normalised query is a substring of the
    lowercased text of the page. *)
Theorem searchForCitedText_sound (textIndex : list TextPosition.t)
    (query : jsstring) (hintPage : option nat) (m : SearchMatch.t) :
  searchForCitedText textIndex query hintPage = Some m ->
  hintPage = Some (SearchMatch.pageNum m) /\
  SearchMatch.pageNum m <> 0 /\
  SearchMatch.exactMatch m = true /\
  SearchMatch.confidence m = 1%Q /\
  1 <= length (SearchMatch.itemIndices m) <= 5 /\
  contains (normalizedPageTextOf (pageItemsOf textIndex (SearchMatch.pageNum m)))
    (normalizeQuery query) /\
  Forall (fun idx =>
            exists t, t ∈ textIndex /\
                      TextPosition.pageNum t = SearchMatch.pageNum m /\
                      TextPosition.itemIndex t = idx)
    (SearchMatch.itemIndices m).
Proof.
  intros (p & i & -> & Hp & _ & _ & Hi & Hlen & ->)%searchForCitedText_Some.
  simpl in *. repeat split; try done; try lia.
  - apply indexOf_first in Hi as [(pre & post & Heq & _) _]. by exists pre, post.
  - apply Forall_forall. intros idx Hin.
    apply findItemsLoop_elem in Hin as (k & t & Hk & Hidx & _).
    apply list_elem_of_lookup_2, list_elem_of_filter in Hk as [Hpage Ht].
    by exists t.
Qed.

Lemma searchForCitedText_sound_witness :
  contains (normalizedPageTextOf (pageItemsOf sampleIndex 3))
    (normalizeQuery (str "size was 42 patients")).
Proof.
  apply (searchForCitedText_sound sampleIndex (str "size was 42 patients")
           (Some 3) (SearchMatch.mk 3 [1; 2; 3; 4] true 1)).
  vm_compute. reflexivity.
Defined.

(** The matcher sees a query of 12 characters or more only through its
    normalised form: two such queries that differ in case and in white
    space only get the same answer. *)
Theorem searchForCitedText_normalised (textIndex : list TextPosition.t)
    (query1 query2 : jsstring) (hintPage : option nat) :
  12 <= length query1 -> 12 <= length query2 ->
  normalizeQuery query1 = normalizeQuery query2 ->
  searchForCitedText textIndex query1 hintPage
  = searchForCitedText textIndex query2 hintPage.
Proof.
  intros H1 H2 Heq. unfold searchForCitedText.
  rewrite <- !isPureNumber_normalizeQuery, Heq.
  replace (length query1 <? 12) with false by (symmetry; by apply Nat.ltb_ge).
  replace (length query2 <? 12) with false by (symmetry; by apply Nat.ltb_ge).
  destruct query1; [simpl in H1; lia|]. destruct query2; [simpl in H2; lia|].
  done.
Qed.

Lemma searchForCitedText_normalised_witness :
  searchForCitedText sampleIndex (str "  SIZE was   42 Patients ") (Some 3)
  = searchForCitedText sampleIndex (str "size was 42 patients") (Some 3).
Proof.
  apply searchForCitedText_normalised.
  - vm_compute. lia.
  - vm_compute. lia.
  - vm_compute. reflexivity.
Defined.

Lemma pageItemsOf_blocks_beyond i off pages p :
  i + length pages <= p -> pageItemsOf (blocks i off pages) p = [].
Proof.
  intros Hp.
  destruct (pageItemsOf_blocks i off pages p)
    as [Hnil|(k & items & off' & Hk & Hlook & _)]; [done|].
  apply lookup_lt_Some in Hlook. lia.
Qed.

(** Only the first ten pages are indexed: on a page after the tenth, or
    after the last page of the document, nothing is ever matched. *)
Theorem searchForCitedText_beyond_index (pages : list (list TextItem.t))
    (query : jsstring) (p : nat) :
  10 < p \/ length pages < p ->
  searchForCitedText (buildIndex pages) query (Some p) = None.
Proof.
  intros Hp.
  assert (pageItemsOf (buildIndex pages) p = []) as Hnil.
  { rewrite buildIndex_blocks. apply pageItemsOf_blocks_beyond.
    rewrite length_take. lia. }
  unfold searchForCitedText. rewrite Hnil.
  destruct (_ || _); [done|]. destruct (isPureNumber _); [done|].
  by destruct p.
Qed.

Lemma searchForCitedText_beyond_index_witness :
  searchForCitedText (buildIndex (replicate 11 (map rawItem
      ["Sample"; "size"; "was"; "42"; "patients"; "total."])))
    (str "size was 42 patients") (Some 11) = None.
Proof. apply searchForCitedText_beyond_index. left. lia. Defined.

(** ** The text index *)

(** The index keeps the renderer's items of each of the first ten pages:
    the fragments of page [p] in the index have the texts of the items of
    that page, in the renderer's order, and their item indices are their
    positions [0, 1, 2, ...] on the page. *)
Theorem buildIndex_page_fragments (pages : list (list TextItem.t))
    (p : nat) (items : list TextItem.t) :
  1 <= p <= 10 -> pages !! (p - 1) = Some items ->
  map TextPosition.text (pageItemsOf (buildIndex pages) p)
  = map itemText items /\
  map TextPosition.itemIndex (pageItemsOf (buildIndex pages) p)
  = seq 0 (length items).
Proof.
  intros Hp Hitems.
  pose proof (pageItemsOf_buildIndex_text pages p items Hp Hitems) as Htext.
  split; [done|].
  rewrite (pageItemsOf_buildIndex_indexed pages p).
  by rewrite <- (length_map TextPosition.text), Htext, length_map.
Qed.

Lemma buildIndex_page_fragments_witness :
  map TextPosition.text (pageItemsOf (buildIndex samplePages) 1)
  = map itemText [rawItem "Title"; blankItem] /\
  map TextPosition.itemIndex (pageItemsOf (buildIndex samplePages) 1)
  = seq 0 2.
Proof.
  apply (buildIndex_page_fragments samplePages 1 [rawItem "Title"; blankItem]).
  - lia.
  - reflexivity.
Defined.

Lemma length_blocks i off pages :
  length (blocks i off pages) = sum_list_with length pages.
Proof.
  revert i off; induction pages as [|items rest IH]; intros i off; [done|].
  simpl. by rewrite length_app, length_block, IH.
Qed.

(** The index has one entry for each item of the first ten pages, the items
    without text included, and none for the pages after the tenth. *)
Theorem buildIndex_length (pages : list (list TextItem.t)) :
  length (buildIndex pages) = sum_list_with length (take 10 pages).
Proof. rewrite buildIndex_blocks. apply length_blocks. Qed.

Lemma chained_charStart off l k t :
  chained off l -> l !! k = Some t ->
  TextPosition.charStart t = off + textWeight (take k l).
Proof.
  revert off k; induction l as [|t0 r IH]; intros off k; [done|].
  intros (Hs & He & Hr). destruct k as [|k]; simpl.
  - intros [= <-]. unfold textWeight. simpl. lia.
  - intros Hk. rewrite (IH _ _ Hr Hk), He. unfold textWeight. simpl. lia.
Qed.

(** [charStart] is an offset into the whole-document concatenation: the
    text of every fragment of the index lies at its [charStart] in the texts
    of all the fragments joined with single spaces, and [charStart] is the
    sum of the lengths, plus one each, of the fragments before it. *)
Theorem buildIndex_charStart_in_document (pages : list (list TextItem.t))
    (k : nat) (t : TextPosition.t) :
  buildIndex pages !! k = Some t ->
  TextPosition.charStart t = textWeight (take k (buildIndex pages)) /\
  occursAt (join (map TextPosition.text (buildIndex pages)))
    (TextPosition.text t) (TextPosition.charStart t).
Proof.
  intros Hk.
  assert (TextPosition.charStart t = textWeight (take k (buildIndex pages)))
    as Hstart.
  { rewrite (chained_charStart 0 (buildIndex pages) k t); [done| |done].
    rewrite buildIndex_blocks. apply chained_blocks. }
  split; [done|]. rewrite Hstart. by apply join_fragment_at.
Qed.

Lemma buildIndex_charStart_in_document_witness :
  occursAt (join (map TextPosition.text (buildIndex samplePages)))
    (str "size") 14.
Proof.
  destruct (buildIndex_charStart_in_document samplePages 3
              (TextPosition.mk 3 1 (str "size") (str "size") 14 18 0 0))
    as [_ H]; [vm_compute; reflexivity | exact H].
Defined.

(** ** The highlight map *)

Lemma setHighlights_lookup_inv mapping q p idxs highlights k e :
  setHighlights mapping q (SearchMatch.mk p idxs true 1) highlights !! k
  = Some e ->
  highlights !! k = Some e \/
  exists idx, idx ∈ idxs /\ k = highlightKey p idx /\
              e = highlightOf mapping q p idx.
Proof.
  revert highlights; induction idxs as [|x idxs IH]; intros highlights;
    [by left|].
  rewrite setHighlights_cons. intros [Hk|(idx & Hin & -> & ->)]%IH.
  - destruct (decide (highlightKey p x = k)) as [<-|Hne].
    + rewrite lookup_insert_eq in Hk. injection Hk as <-.
      right. exists x. split; [by left | done].
    + rewrite lookup_insert_ne in Hk by done. by left.
  - right. exists idx. split; [by right | done].
Qed.

Lemma highlightMapping_lookup_inv textIndex highlights mapping k e :
  highlightMapping textIndex highlights mapping !! k = Some e ->
  highlights !! k = Some e \/
  exists q,
    searchQueryOf mapping = Some q /\
    touches textIndex mapping (PreciseHighlight.pageNum e)
      (PreciseHighlight.itemIndex e) /\
    k = highlightKey (PreciseHighlight.pageNum e)
          (PreciseHighlight.itemIndex e) /\
    e = highlightOf mapping q (PreciseHighlight.pageNum e)
          (PreciseHighlight.itemIndex e).
Proof.
  unfold highlightMapping.
  destruct (searchQueryOf mapping) as [q|] eqn:Hq; [|by left].
  destruct (searchForCitedText _ _ _) as [m|] eqn:Hm; [|by left].
  pose proof Hm as [_ Hshape]%searchForCitedText_shape. rewrite Hshape.
  intros [Hk|(idx & Hin & -> & ->)]%setHighlights_lookup_inv; [by left|].
  right. exists q. simpl. repeat split; try done. by exists q, m.
Qed.

Lemma buildPreciseHighlights_snoc textIndex mappings mapping :
  buildPreciseHighlights textIndex (mappings ++ [mapping])
  = highlightMapping textIndex (buildPreciseHighlights textIndex mappings)
      mapping.
Proof. unfold buildPreciseHighlights. by rewrite foldl_snoc. Qed.

(** No highlight comes from nowhere: every entry of the built map is keyed
    by its own page and item, and is the highlight (path, verified flag,
    cited text) of a mapping of the sequence whose match has that item. *)
Theorem buildPreciseHighlights_sound (textIndex : list TextPosition.t)
    (mappings : list MappingItem.t) (k : jsstring) (e : PreciseHighlight.t) :
  buildPreciseHighlights textIndex mappings !! k = Some e ->
  exists mapping q,
    mapping ∈ mappings /\
    searchQueryOf mapping = Some q /\
    touches textIndex mapping (PreciseHighlight.pageNum e)
      (PreciseHighlight.itemIndex e) /\
    k = highlightKey (PreciseHighlight.pageNum e)
          (PreciseHighlight.itemIndex e) /\
    e = highlightOf mapping q (PreciseHighlight.pageNum e)
          (PreciseHighlight.itemIndex e).
Proof.
  induction mappings as [|mapping mappings IH] using rev_ind; [done|].
  rewrite buildPreciseHighlights_snoc.
  intros [Hk|(q & Hq & Ht & Hkey & He)]%highlightMapping_lookup_inv.
  - destruct (IH Hk) as (m' & q & Hin & H). exists m', q.
    split; [|done]. apply elem_of_app. by left.
  - exists mapping, q. split; [|done]. apply elem_of_app. right. by left.
Qed.

Lemma buildPreciseHighlights_sound_witness :
  exists mapping q,
    mapping ∈ [totalNMapping; surgicalNMapping] /\
    searchQueryOf mapping = Some q /\
    touches sampleIndex mapping 3 5 /\
    highlightKey 3 5 = highlightKey 3 5 /\
    highlightOf surgicalNMapping (str "was 42 patients total.") 3 5
    = highlightOf mapping q 3 5.
Proof.
  apply (buildPreciseHighlights_sound sampleIndex
           [totalNMapping; surgicalNMapping] (highlightKey 3 5)
           (highlightOf surgicalNMapping (str "was 42 patients total.") 3 5)).
  vm_compute. reflexivity.
Defined.

Lemma touches_dec textIndex mapping pg idx :
  touches textIndex mapping pg idx \/ ~ touches textIndex mapping pg idx.
Proof.
  unfold touches.
  destruct (searchQueryOf mapping) as [q|] eqn:Hq;
    [|right; by intros (? & ? & ? & _)].
  destruct (searchForCitedText textIndex q (Some (MappingItem.page mapping)))
    as [m|] eqn:Hm; [|right; intros (? & ? & [= <-] & ? & _); congruence].
  destruct (decide (SearchMatch.pageNum m = pg)) as [Hp|Hp];
    [|right; intros (? & ? & [= <-] & ? & ? & _); congruence].
  destruct (decide (idx ∈ SearchMatch.itemIndices m)) as [Hin|Hin];
    [left; by exists q, m|].
  right. intros (? & ? & [= <-] & ? & ? & ?). congruence.
Qed.

(** The keys of the built map: item [idx] of page [pg] is highlighted
    exactly when some mapping of the sequence is not skipped and has that
    item in its match. *)
Theorem buildPreciseHighlights_dom (textIndex : list TextPosition.t)
    (mappings : list MappingItem.t) (pg idx : nat) :
  is_Some (buildPreciseHighlights textIndex mappings !! highlightKey pg idx)
  <-> Exists (fun mapping => touches textIndex mapping pg idx) mappings.
Proof.
  split.
  - intros [e He]. revert He.
    induction mappings as [|mapping mappings IH] using rev_ind; [done|].
    rewrite buildPreciseHighlights_snoc.
    intros [Hk|(q & _ & Ht & Hkey & _)]%highlightMapping_lookup_inv;
      apply Exists_app.
    + left. by apply IH.
    + apply highlightKey_inj in Hkey as [-> ->]. right. by constructor.
  - induction mappings as [|mapping mappings IH] using rev_ind.
    + by intros ?%Exists_nil.
    + rewrite buildPreciseHighlights_snoc. intros Hex.
      destruct (touches_dec textIndex mapping pg idx)
        as [(q & m & Hq & Hm & <- & Hin)|Hnot].
      * erewrite highlightMapping_touched by done. done.
      * rewrite highlightMapping_untouched by done. apply IH.
        apply Exists_app in Hex as [Hex|Hex]; [done|].
        apply Exists_cons in Hex as [?|?%Exists_nil]; done.
Qed.

Lemma size_setHighlights mapping q p idxs highlights :
  size (setHighlights mapping q (SearchMatch.mk p idxs true 1) highlights)
  <= size highlights + length idxs.
Proof.
  revert highlights; induction idxs as [|x idxs IH]; intros highlights;
    [unfold setHighlights; simpl; lia|].
  rewrite setHighlights_cons. etrans; [apply IH|].
  rewrite map_size_insert. simpl. destruct (highlights !! _); simpl; lia.
Qed.

Lemma size_highlightMapping textIndex highlights mapping :
  size (highlightMapping textIndex highlights mapping) <= size highlights + 5.
Proof.
  unfold highlightMapping.
  destruct (searchQueryOf mapping) as [q|]; [|lia].
  destruct (searchForCitedText _ _ _) as [m|] eqn:Hm; [|lia].
  pose proof Hm as [_ Hshape]%searchForCitedText_shape. rewrite Hshape.
  apply searchForCitedText_Some in Hm as (_ & _ & _ & _ & _ & _ & _ & Hlen & _).
  etrans; [apply size_setHighlights|]. lia.
Qed.

(** Each mapping adds at most five highlights: the built map has at most
    five entries for every mapping of the sequence. *)
Theorem buildPreciseHighlights_size (textIndex : list TextPosition.t)
    (mappings : list MappingItem.t) :
  size (buildPreciseHighlights textIndex mappings) <= 5 * length mappings.
Proof.
  induction mappings as [|mapping mappings IH] using rev_ind.
  - unfold buildPreciseHighlights. simpl. by rewrite map_size_empty.
  - rewrite buildPreciseHighlights_snoc, length_app. simpl.
    etrans; [apply size_highlightMapping|]. lia.
Qed.

Lemma searchForCitedText_empty_index query hintPage :
  searchForCitedText [] query hintPage = None.
Proof. unfold searchForCitedText. simpl. by rewrite orb_true_r. Qed.

Lemma buildPreciseHighlights_empty_index mappings :
  buildPreciseHighlights [] mappings = ∅.
Proof.
  induction mappings as [|mapping mappings IH] using rev_ind; [done|].
  rewrite buildPreciseHighlights_snoc, IH. unfold highlightMapping.
  destruct (searchQueryOf mapping); [|done].
  by rewrite searchForCitedText_empty_index.
Qed.

(** The guard of the rebuilding effect changes nothing: with an empty index
    or without mappings the builder itself returns the empty map, so the
    effect always stores what [buildPreciseHighlights] returns. *)
Theorem rebuildPreciseHighlights_build (textIndex : list TextPosition.t)
    (mappings : list MappingItem.t) :
  rebuildPreciseHighlights textIndex mappings
  = buildPreciseHighlights textIndex mappings.
Proof.
  unfold rebuildPreciseHighlights.
  destruct textIndex as [|t textIndex].
  - by rewrite buildPreciseHighlights_empty_index.
  - by destruct mappings.
Qed.

Lemma buildPreciseHighlights_dom_witness :
  Exists (fun mapping => touches sampleIndex mapping 3 5)
    [totalNMapping; surgicalNMapping].
Proof.
  apply (proj1 (buildPreciseHighlights_dom sampleIndex
                  [totalNMapping; surgicalNMapping] 3 5)).
  eexists. vm_compute. reflexivity.
Defined.

(** ** Field-path inference *)

Lemma lowerUnit_idemp c : toLowerCase (lowerUnit c) = lowerUnit c.
Proof. by_code_units c. Qed.

Lemma toLowerCase_idemp s : toLowerCase (toLowerCase s) = toLowerCase s.
Proof.
  induction s as [|c r IH]; [done|].
  by rewrite toLowerCase_cons, toLowerCase_app, lowerUnit_idemp, IH.
Qed.

(** The inference ignores the case of the context: lowercasing the context
    first does not change the inferred path. *)
Theorem inferFieldPath_case_insensitive (context : jsstring) :
  inferFieldPath (toLowerCase context) = inferFieldPath context.
Proof. unfold inferFieldPath. by rewrite toLowerCase_idemp. Qed.

Lemma includes_female_male s :
  includes s (str "female") = true -> includes s (str "male") = true.
Proof.
  rewrite !includes_true. intros (pre & post & ->).
  exists (pre ++ str "fe"), post. by rewrite <- app_assoc.
Qed.

(** The rule for [baseline.gender.femaleN] can never fire: a context with
    "female" has "male", and the rule for "male" comes first.  So the
    inference never returns [baseline.gender.femaleN]. *)
Theorem inferFieldPath_never_femaleN (context : jsstring) :
  inferFieldPath context <> str "baseline.gender.femaleN".
Proof.
  unfold inferFieldPath.
  pose proof (includes_female_male (toLowerCase context)) as Hfm.
  destruct (includes (toLowerCase context) (str "male")) eqn:Hmale;
    destruct (includes (toLowerCase context) (str "female")) eqn:Hfemale;
    try (by discriminate Hfm); clear Hfm;
    repeat match goal with
           | |- context [includes (toLowerCase context) ?k] =>
               destruct (includes (toLowerCase context) k); simpl
           end;
    vm_compute; discriminate.
Qed.

(** ** Parsing a response of the Citations API *)

Lemma parseBlocks_acc blocks cited_data raw_text context :
  parseBlocks blocks cited_data raw_text context
  = (cited_data ++ fst (parseBlocks blocks [] [] context),
     raw_text ++ snd (parseBlocks blocks [] [] context)).
Proof.
  revert cited_data raw_text context.
  induction blocks as [|block rest IH]; intros cited_data raw_text context.
  - simpl. by rewrite !app_nil_r.
  - destruct block as [text|c d sp ep|]; simpl.
    + rewrite IH, (IH [] text). simpl. by rewrite app_assoc.
    + rewrite IH, (IH [_] []). simpl. by rewrite <- app_assoc.
    + apply IH.
Qed.

Lemma parseBlocks_app pre rest cited_data raw_text context :
  parseBlocks (pre ++ rest) cited_data raw_text context
  = parseBlocks rest (fst (parseBlocks pre cited_data raw_text context))
      (snd (parseBlocks pre cited_data raw_text context))
      (contextAfter pre context).
Proof.
  revert cited_data raw_text context.
  induction pre as [|block pre IH]; intros cited_data raw_text context;
    [done|].
  destruct block; simpl; apply IH.
Qed.

Lemma length_parseBlocks blocks context :
  length (fst (parseBlocks blocks [] [] context)) = citeCount blocks.
Proof.
  revert context; induction blocks as [|block rest IH]; intros context;
    [done|].
  unfold citeCount in *. destruct block as [text|c d sp ep|]; simpl.
  - rewrite parseBlocks_acc, filter_cons_False by done. apply IH.
  - rewrite parseBlocks_acc. simpl. by rewrite IH.
  - rewrite filter_cons_False by done. apply IH.
Qed.

(** The parser keeps all the text and all the citations: [raw_text] is the
    concatenation of the texts of the text blocks, in order, and there is
    one cited data point for each citation block. *)
Theorem parseCitationResponse_complete (blocks : list ContentBlock) :
  snd (parseCitationResponse blocks) = concat (map blockText blocks) /\
  length (fst (parseCitationResponse blocks)) = citeCount blocks.
Proof.
  unfold parseCitationResponse. split; [|apply length_parseBlocks].
  generalize (@nil CodeUnit) at 2 as context.
  induction blocks as [|block rest IH]; intros context; [done|].
  destruct block as [text|c d sp ep|]; simpl.
  - rewrite parseBlocks_acc. simpl. by rewrite IH.
  - rewrite parseBlocks_acc. simpl. by rewrite IH.
  - apply IH.
Qed.

(** Attribution: a citation block is read in the context of the last text
    block before it.  Its data point, at the position of the citation among
    the citation blocks, gets the path inferred from that text and the last
    line of that text, trimmed; a citation before any text gets them from
    the empty context.  A missing document index is 0. *)
Theorem parseCitationResponse_attribution (pre post : list ContentBlock)
    (cited_text : jsstring)
    (document_index start_page_number end_page_number : option nat) :
  fst (parseCitationResponse
         (pre ++ CiteBlock cited_text document_index start_page_number
                   end_page_number :: post))
    !! citeCount pre
  = Some {| CitedDataPoint.field_path := inferFieldPath (contextAfter pre []);
            CitedDataPoint.extracted_value := lastLineOf (contextAfter pre []);
            CitedDataPoint.citation :=
              {| CitationBlock.cited_text := cited_text;
                 CitationBlock.document_index := default 0 document_index;
                 CitationBlock.start_page_number := start_page_number;
                 CitationBlock.end_page_number := end_page_number |} |}.
Proof.
  unfold parseCitationResponse. rewrite parseBlocks_app. simpl.
  rewrite parseBlocks_acc. simpl.
  rewrite <- (length_parseBlocks pre []).
  rewrite <- app_assoc. rewrite lookup_app_r by done.
  rewrite Nat.sub_diag. simpl. by destruct document_index.
Qed.

Lemma splitOn_no_sep sep s seg : seg ∈ splitOn sep s -> sep ∉ seg.
Proof.
  revert seg; induction s as [|c r IH]; intros seg; simpl.
  - intros ->%list_elem_of_singleton. apply not_elem_of_nil.
  - destruct (eqbUnit c sep) eqn:Hc.
    + intros [->|Hin]%elem_of_cons; [apply not_elem_of_nil | by apply IH].
    + apply eqbUnit_neq in Hc.
      destruct (splitOn sep r) as [|seg0 segs].
      * intros ->%list_elem_of_singleton.
        intros [->|?%elem_of_nil]%elem_of_cons; done.
      * intros [->|Hin]%elem_of_cons.
        -- intros [->|Hin]%elem_of_cons; [done|].
           by apply (IH seg0); [left|].
        -- apply IH. by right.
Qed.

Lemma lastLineOf_no_newline context : (Latin1 "010") ∉ lastLineOf context.
Proof.
  unfold lastLineOf.
  destruct (last _) as [line|] eqn:Hlast; [|apply not_elem_of_nil].
  apply last_Some_elem_of in Hlast. by apply splitOn_no_sep in Hlast.
Qed.

Lemma parseBlocks_extracted_value blocks context d :
  d ∈ fst (parseBlocks blocks [] [] context) ->
  (Latin1 "010") ∉ CitedDataPoint.extracted_value d.
Proof.
  revert context; induction blocks as [|block rest IH]; intros context.
  - by intros ?%elem_of_nil.
  - destruct block as [text|c di sp ep|]; simpl.
    + rewrite parseBlocks_acc. apply IH.
    + rewrite parseBlocks_acc. simpl.
      intros [->|Hin]%elem_of_cons; [apply lastLineOf_no_newline | by eapply IH].
    + apply IH.
Qed.

(** The extracted value of a cited data point is a single line: it has no
    line feed. *)
Theorem parseCitationResponse_single_line (blocks : list ContentBlock)
    (d : CitedDataPoint.t) :
  d ∈ fst (parseCitationResponse blocks) ->
  (Latin1 "010") ∉ CitedDataPoint.extracted_value d.
Proof. apply parseBlocks_extracted_value. Qed.

Lemma parseCitationResponse_single_line_witness :
  (Latin1 "010") ∉ str "58.5".
Proof.
  apply (parseCitationResponse_single_line
           [TextBlock (str "Mean age
58.5 "); CiteBlock (str "mean age of 58.5 years") None (Some 3) None]
           (CitedDataPoint.mk (str "baseline.age.mean") (str "58.5")
              (CitationBlock.mk (str "mean age of 58.5 years") 0 (Some 3)
                 None))).
  vm_compute. left.
Defined.

(** ** The mappings of the result tree *)

Lemma traverse_Forall (P : MappingItem.t -> Prop) :
  (forall path sl c notes,
     SourceLocation.page sl <> 0 -> truthy c = true ->
     P (mappingOf path sl c notes)) ->
  forall obj path, Forall P (traverse obj path).
Proof.
  intros HP. fix IH 1. intros [|items|sl c notes fields] path; simpl.
  - constructor.
  - generalize 0.
    induction items as [|item rest IHitems]; intros i; [constructor|].
    apply Forall_app. split; [apply IH | apply IHitems].
  - apply Forall_app. split.
    + destruct sl as [sl|], c as [c|]; try constructor.
      destruct (negb (SourceLocation.page sl =? 0) && truthy c) eqn:Hc;
        constructor; [|constructor].
      apply andb_true_iff in Hc as [Hpage Hc].
      apply HP; [|done]. apply negb_true_iff, Nat.eqb_neq in Hpage. done.
    + induction fields as [|[key value] rest IHfields]; [constructor|].
      apply Forall_app. split; [|apply IHfields].
      destruct (reservedKey key); [constructor | apply IH].
Qed.

Lemma mappingOf_text path sl c notes cited :
  MappingItem.citedText (mappingOf path sl c notes) = Some cited ->
  cited <> [] ->
  MappingItem.text (mappingOf path sl c notes) = cited.
Proof. simpl. intros -> Hne. by destruct cited. Qed.




(** The mappings that [getMappings] makes are well formed for the highlight
    map builder: each has a page other than 0, its text is its cited text
    whenever that is present and not empty, and so the builder searches
    the text of the mapping, skipping it when the text is shorter than 2
    characters; this is also the query that the specification describes. *)
Theorem getMappings_wellformed (results : option Json) (m : MappingItem.t) :
  m ∈ getMappings results ->
  MappingItem.page m <> 0 /\
  (forall cited, MappingItem.citedText m = Some cited -> cited <> [] ->
     MappingItem.text m = cited) /\
  searchQueryOf m
  = (if 2 <=? length (MappingItem.text m) then Some (MappingItem.text m)
     else None) /\
  searchQueryOf m
  = (if specSkipped m then None else Some (specSearchQuery m)).
Proof.
  destruct results as [r|]; [|by intros ?%elem_of_nil]. simpl.
  revert m. apply Forall_forall, traverse_Forall.
  intros path sl c notes Hpage Hc. split; [done|].
  split; [apply mappingOf_text|].
  unfold searchQueryOf, specSkipped, specSearchQuery. simpl.
  destruct (SourceLocation.cited_text sl) as [[|c1 [|c2 cited]]|]; simpl;
    try done;
    by destruct (orElse _ _) as [|t1 [|t2 t]].
Qed.

Lemma getMappings_wellformed_witness :
  searchQueryOf
    (mappingOf (str "baseline.sampleSize.totalN")
       (SourceLocation.mk 3 None (Some (str "size was 42 patients"))
          (Some true))
       (CNumber 42 eq_refl) None)
  = Some (str "size was 42 patients").
Proof.
  apply (getMappings_wellformed (Some sampleResults)).
  vm_compute. right. left.
Defined.

(** ** Citations built from the results *)

Lemma head_seq a n : head (seq a (S n)) = Some a.
Proof. reflexivity. Qed.

Lemma last_seq a n : last (seq a (S n)) = Some (a + n).
Proof. rewrite seq_S. apply last_snoc. Qed.

(** The span of a citation.  On the built index, a citation made for a
    text that is not matched has no item, offsets 0 and confidence 0; one
    made for a matched text has confidence 1, and its [charStart] and
    [charEnd] are the first and the last item index of the match, at most
    4 apart, with the items of the citation the run from one to the
    other. *)
Theorem createCitationFromExtraction_span (pages : list (list TextItem.t))
    (fileName : option jsstring) (id text : jsstring) (pageNum : nat)
    (category : CitationCategory) (sectionName : option jsstring) :
  let c := createCitationFromExtraction (buildIndex pages) fileName id text
             pageNum category sectionName in
  (searchForCitedText (buildIndex pages) text (Some pageNum) = None /\
   Citation.itemIndices c = [] /\ Citation.charStart c = 0 /\
   Citation.charEnd c = 0 /\ Citation.confidence c = 0%Q) \/
  (Citation.itemIndices c
   = seq (Citation.charStart c)
       (S (Citation.charEnd c - Citation.charStart c)) /\
   Citation.charStart c <= Citation.charEnd c <= Citation.charStart c + 4 /\
   Citation.charEnd c < length (pageItemsOf (buildIndex pages) pageNum) /\
   Citation.confidence c = 1%Q).
Proof.
  unfold createCitationFromExtraction. simpl.
  destruct (searchForCitedText _ _ _) as [m|] eqn:Hm; [right | by left].
  apply searchForCitedText_Some in Hm
    as (p & i & [= <-] & _ & _ & _ & _ & Hlen & ->).
  simpl in *.
  destruct (findItemsForCharRange_buildIndex pages pageNum i
              (i + length (normalizeQuery text))) as (a & n & Heq & Hn).
  rewrite Heq in *. rewrite length_seq in Hlen.
  destruct n as [|n]; [lia|].
  rewrite head_seq, last_seq. simpl.
  replace (a + n - a) with n by lia. repeat split; try done; lia.
Qed.

Lemma extractFieldCitations_Forall (P : Citation.t -> Prop)
    textIndex fileName ids :
  (forall id text pageNum category sectionName,
     pageNum <> 0 ->
     Citation.itemIndices
       (createCitationFromExtraction textIndex fileName id text pageNum
          category sectionName) <> [] ->
     P (createCitationFromExtraction textIndex fileName id text pageNum
          category sectionName)) ->
  forall obj path category st,
    Forall P (fst st) ->
    Forall P (fst (extractFieldCitations textIndex fileName ids obj path
                     category st)).
Proof.
  intros HP. fix IH 1.
  intros [|items|sl c notes fields] path category st Hst; simpl; try done.
  match goal with
  | |- Forall P (fst (_ fields ?st1)) =>
      assert (Forall P (fst st1)) as Hst1; [|revert Hst1; generalize st1]
  end.
  - destruct sl as [sl|]; [|done].
    destruct (SourceLocation.cited_text sl) as [[|c1 cited]|]; try done.
    destruct (0 <? length _) eqn:Hlen; simpl; [|done].
    apply Forall_app. split; [done|]. constructor; [|constructor].
    apply HP; [by destruct (SourceLocation.page sl)|].
    apply Nat.ltb_lt in Hlen. intros Heq.
    unfold createCitationFromExtraction in Heq. simpl in Heq.
    rewrite Heq in Hlen. simpl in Hlen. lia.
  - clear Hst. induction fields as [|[key value] rest IHfields];
      intros st' Hst'; [done|].
    apply IHfields. destruct (bool_decide _); [done|]. by apply IH.
Qed.

(** Only matched citations are kept: every citation that
    [buildCitationsFromResults] returns is for a text of 12 characters or
    more that the matcher finds on the page of the citation, which is not
    page 0; it has the 1 to 5 items of that match and confidence 1. *)
Theorem buildCitationsFromResults_matched (textIndex : list TextPosition.t)
    (fileName : option jsstring) (ids : nat -> jsstring)
    (extractionResults : Json) (c : Citation.t) :
  c ∈ buildCitationsFromResults textIndex fileName ids extractionResults ->
  Citation.pageNum c <> 0 /\
  12 <= length (Citation.text c) /\
  1 <= length (Citation.itemIndices c) <= 5 /\
  Citation.confidence c = 1%Q /\
  searchForCitedText textIndex (Citation.text c) (Some (Citation.pageNum c))
  = Some (SearchMatch.mk (Citation.pageNum c) (Citation.itemIndices c) true 1).
Proof.
  revert c. apply Forall_forall. unfold buildCitationsFromResults.
  generalize citedSections as sections.
  assert (Forall
            (fun c =>
               Citation.pageNum c <> 0 /\
               12 <= length (Citation.text c) /\
               1 <= length (Citation.itemIndices c) <= 5 /\
               Citation.confidence c = 1%Q /\
               searchForCitedText textIndex (Citation.text c)
                 (Some (Citation.pageNum c))
               = Some (SearchMatch.mk (Citation.pageNum c)
                         (Citation.itemIndices c) true 1))
            (fst (@nil Citation.t, 0))) as Hinit by constructor.
  revert Hinit. generalize (@nil Citation.t, 0) as st.
  intros st Hst sections. revert st Hst.
  induction sections as [|section rest IH]; intros st Hst; [done|].
  simpl. apply IH.
  destruct (member extractionResults (str (fst section))) as [obj|]; [|done].
  apply extractFieldCitations_Forall; [|done].
  intros id text pageNum category sectionName Hpage Hne.
  unfold createCitationFromExtraction in *. simpl in *.
  destruct (searchForCitedText textIndex text (Some pageNum)) as [m|] eqn:Hm;
    [|done].
  pose proof Hm as (p & i & [= <-] & _ & Htext & _ & _ & Hlen & ->)
    %searchForCitedText_Some.
  simpl in *. repeat split; try done; lia.
Qed.

Lemma buildCitationsFromResults_matched_witness :
  searchForCitedText sampleIndex (str "size was 42 patients") (Some 3)
  = Some (SearchMatch.mk 3 [1; 2; 3; 4] true 1).
Proof.
  apply (buildCitationsFromResults_matched sampleIndex None sampleIds
           sampleResults
           (createCitationFromExtraction sampleIndex None (sampleIds 1)
              (str "size was 42 patients") 3 result
              (Some (str "baseline.sampleSize.totalN")))).
  vm_compute. left.
Defined.

(** ** The fragments of a match cover the citation *)

Lemma trimStart_head s c : head (trimStart s) = Some c -> isSpace c = false.
Proof.
  induction s as [|x r IH]; simpl; [done|].
  destruct (isSpace x) eqn:Hx; [done|]. simpl. by intros [= <-].
Qed.

Lemma trimStart_snoc s c :
  isSpace c = false -> trimStart (s ++ [c]) = trimStart s ++ [c].
Proof.
  intros Hc. induction s as [|x r IH]; simpl; [by rewrite Hc|].
  by destruct (isSpace x).
Qed.

Lemma trim_trimmed s : trimmed (trim s).
Proof.
  unfold trim, trimEnd. split.
  - intros c. destruct (trimStart s) as [|x r] eqn:Hs; [done|].
    assert (isSpace x = false) as Hx
      by (apply (trimStart_head s); by rewrite Hs).
    simpl. rewrite trimStart_snoc, rev_app_distr by done. simpl.
    by intros [= <-].
  - intros c. rewrite <- (rev_involutive (rev (trimStart _))).
    rewrite rev_involutive.
    destruct (trimStart (rev (trimStart s))) as [|x r] eqn:Hs; [done|].
    simpl. rewrite last_snoc. intros [= <-].
    apply (trimStart_head (rev (trimStart s))). by rewrite Hs.
Qed.

Lemma replaceSpaceRuns_snoc b s c :
  isSpace c = false ->
  replaceSpaceRuns b (s ++ [c]) = replaceSpaceRuns b s ++ [c].
Proof.
  intros Hc. revert b; induction s as [|x r IH]; intros b; simpl.
  - by rewrite Hc.
  - destruct (isSpace x), b; simpl; by rewrite IH.
Qed.

Lemma collapseSpaces_trimmed s : trimmed s -> trimmed (collapseSpaces s).
Proof.
  unfold collapseSpaces. intros [Hhead Hlast]. split.
  - destruct s as [|x r]; [done|]. simpl.
    rewrite (Hhead x) by done. simpl. intros c [= <-]. by apply Hhead.
  - destruct s as [|x r] using rev_ind; [done|].
    rewrite last_snoc in Hlast.
    rewrite replaceSpaceRuns_snoc by (by apply Hlast).
    intros c. rewrite last_snoc. intros [= <-]. by apply Hlast.
Qed.

(** A normalised query has no white space at its ends. *)
Lemma normalizeQuery_trimmed query : trimmed (normalizeQuery query).
Proof. apply collapseSpaces_trimmed, trim_trimmed. Qed.

Lemma join_cons_nonempty t l :
  l <> [] -> join (t :: l) = t ++ (Latin1 " ") :: join l.
Proof. by destruct l. Qed.

Lemma join_nil_inv l : join l <> [] -> l <> [].
Proof. by destruct l. Qed.

Lemma last_app_nonempty (l1 l2 : jsstring) : l2 <> [] -> last (l1 ++ l2) = last l2.
Proof.
  destruct l2 as [|x l2] using rev_ind; [done|]. intros _.
  by rewrite app_assoc, !last_snoc.
Qed.

(** Inside the range: when the range ends in the text of [items] and the
    first of them is selected, the text up to the end of the range is a
    prefix of the joined text of the selected items. *)
Lemma prefix_covers items cur s e U post :
  join (map TextPosition.text items) = U ++ post ->
  e = cur + length U -> U <> [] ->
  (forall c, last U = Some c -> isSpace c = false) ->
  (forall item rest, items = item :: rest ->
     s < cur + length (TextPosition.text item)) ->
  exists post',
    join (map TextPosition.text (selectedItems items s e cur)) = U ++ post'.
Proof.
  revert cur U; induction items as [|item rest IH];
    intros cur U Hjoin He HU Hlast Hfirst.
  - simpl in Hjoin. symmetry in Hjoin. by apply app_eq_nil in Hjoin as [? _].
  - pose proof (Hfirst item rest eq_refl) as Hs.
    assert (0 < length U) by (destruct U; [done | simpl; lia]).
    cbn [selectedItems].
    replace (s <? cur + length (TextPosition.text item)) with true
      by (symmetry; apply Nat.ltb_lt; lia).
    replace (cur <? e) with true by (symmetry; apply Nat.ltb_lt; lia).
    cbn [andb app map].
    destruct (decide (length U <= length (TextPosition.text item)))
      as [Hshort|Hlong].
    + assert (exists l, TextPosition.text item = U ++ l) as [l Hl].
      { cbn [map] in Hjoin. destruct rest as [|item' rest'].
        - simpl in Hjoin. by exists post.
        - rewrite join_cons_nonempty in Hjoin by done.
          apply app_eq_app in Hjoin as [l [[Ht _]|[HUeq _]]]; [by exists l|].
          exists []. rewrite app_nil_r.
          assert (l = []) as ->; [|by rewrite app_nil_r in HUeq].
          apply (f_equal length) in HUeq. rewrite length_app in HUeq.
          destruct l; [done | simpl in HUeq; lia]. }
      destruct (map TextPosition.text (selectedItems rest s e
                  (cur + length (TextPosition.text item) + 1)))
        as [|t' ts'] eqn:Hsel.
      * exists l. by rewrite Hl.
      * rewrite join_cons_nonempty by done. rewrite Hl, <- app_assoc. eauto.
    + destruct rest as [|item' rest'].
      { simpl in Hjoin. apply (f_equal length) in Hjoin.
        rewrite length_app in Hjoin. lia. }
      cbn [map] in Hjoin. rewrite join_cons_nonempty in Hjoin by done.
      apply app_eq_app in Hjoin as [l [[Ht _]|[HUeq Hrest]]].
      { apply (f_equal length) in Ht. rewrite length_app in Ht. lia. }
      destruct l as [|sp U'].
      { rewrite app_nil_r in HUeq. subst U. lia. }
      injection Hrest as <- Hrest. subst U.
      destruct U' as [|u U'].
      { exfalso. rewrite last_snoc in Hlast.
        by specialize (Hlast (Latin1 " ") eq_refl). }
      destruct (IH (cur + length (TextPosition.text item) + 1) (u :: U'))
        as [post' Hpost'].
      * exact Hrest.
      * rewrite length_app in He. simpl in *. lia.
      * done.
      * intros c Hc. apply Hlast. by rewrite last_app_nonempty.
      * intros item0 rest0 [= <- <-]. lia.
      * exists post'. rewrite join_cons_nonempty.
        -- rewrite Hpost'. by rewrite <- app_assoc.
        -- intros Hnil. apply (f_equal join) in Hnil.
           rewrite Hpost' in Hnil. done.
Qed.

(** Before the range: a range of the text of [items] that begins and ends
    with a character other than white space lies in the joined text of the
    selected items. *)
Lemma selected_covers items cur s e pre mid post :
  join (map TextPosition.text items) = pre ++ mid ++ post ->
  s = cur + length pre -> e = s + length mid -> trimmed mid -> mid <> [] ->
  contains (join (map TextPosition.text (selectedItems items s e cur))) mid.
Proof.
  intros Hjoin Hs He [Hhead Hlast] Hmid.
  revert cur pre Hjoin Hs He; induction items as [|item rest IH];
    intros cur pre Hjoin Hs He.
  - simpl in Hjoin. symmetry in Hjoin.
    apply app_eq_nil in Hjoin as [_ [? _]%app_eq_nil]. done.
  - assert (0 < length mid) by (destruct mid; [done | simpl; lia]).
    destruct (decide (length pre < length (TextPosition.text item)))
      as [Hin|Hout].
    + destruct (prefix_covers (item :: rest) cur s e (pre ++ mid) post)
        as [post' Hpost'].
      * by rewrite <- app_assoc.
      * rewrite length_app. lia.
      * by destruct pre.
      * intros c. rewrite last_app_nonempty by done. apply Hlast.
      * intros item0 rest0 [= <- <-]. lia.
      * exists pre, post'. by rewrite Hpost', <- app_assoc.
    + cbn [selectedItems].
      replace (s <? cur + length (TextPosition.text item)) with false
        by (symmetry; apply Nat.ltb_ge; lia).
      cbn [andb app].
      destruct rest as [|item' rest'].
      { simpl in Hjoin. apply (f_equal length) in Hjoin.
        rewrite !length_app in Hjoin. lia. }
      cbn [map] in Hjoin. rewrite join_cons_nonempty in Hjoin by done.
      apply app_eq_app in Hjoin as [l [[Ht Hrest]|[Hpre Hrest]]].
      { exfalso. apply (f_equal length) in Ht. rewrite length_app in Ht.
        destruct l; [|simpl in Ht; lia].
        simpl in Hrest. destruct mid as [|m0 mid']; [done|].
        injection Hrest as -> _. by specialize (Hhead (Latin1 " ") eq_refl). }
      destruct l as [|sp pre'].
      { exfalso. simpl in Hrest. destruct mid as [|m0 mid']; [done|].
        injection Hrest as <- _. by specialize (Hhead (Latin1 " ") eq_refl). }
      injection Hrest as <- Hrest.
      apply (IH (cur + length (TextPosition.text item) + 1) pre').
      * done.
      * subst pre. rewrite length_app in Hs. simpl in Hs. lia.
      * done.
Qed.

Lemma findItemsLoop_selected items s e cur :
  findItemsLoop items s e cur []
  = map TextPosition.itemIndex (selectedItems items s e cur).
Proof.
  revert cur; induction items as [|item rest IH]; intros cur; [done|].
  rewrite findItemsLoop_cons, IH. cbn [selectedItems].
  rewrite map_app. by destruct (_ && _).
Qed.

Lemma selectedItems_index_ge base items s e cur :
  indexedFrom base items ->
  Forall (fun idx => base <= idx)
    (map TextPosition.itemIndex (selectedItems items s e cur)).
Proof.
  revert base cur; induction items as [|item rest IH]; intros base cur Hidx;
    [constructor|].
  apply indexedFrom_cons in Hidx as [Hitem Hrest].
  cbn [selectedItems]. rewrite map_app. apply Forall_app. split.
  - destruct (_ && _); constructor; [simpl; lia | constructor].
  - eapply Forall_impl; [by apply (IH (S base))|]. simpl. lia.
Qed.

Lemma fragmentsAt_selected_from base items s e cur :
  indexedFrom base items ->
  omap (fun idx => items !! (idx - base))
    (map TextPosition.itemIndex (selectedItems items s e cur))
  = selectedItems items s e cur.
Proof.
  revert base cur; induction items as [|item rest IH]; intros base cur Hidx;
    [done|].
  pose proof Hidx as [Hitem Hrest]%indexedFrom_cons.
  cbn [selectedItems]. rewrite map_app, omap_app. f_equal.
  - destruct (_ && _); [|done]. simpl. by rewrite Hitem, Nat.sub_diag.
  - rewrite <- (IH (S base) (cur + length (TextPosition.text item) + 1) Hrest)
      at 2.
    pose proof (selectedItems_index_ge (S base) rest s e
                  (cur + length (TextPosition.text item) + 1) Hrest) as Hge.
    induction Hge as [|idx idxs Hle _ IHge]; [done|].
    unfold omap in *. simpl. rewrite IHge.
    by replace (idx - base) with (S (idx - S base)) by lia.
Qed.

Lemma fragmentsAt_selected items s e :
  indexedFrom 0 items ->
  fragmentsAt items (findItemsForCharRange items s e)
  = selectedItems items s e 0.
Proof.
  intros Hidx. unfold fragmentsAt, findItemsForCharRange.
  rewrite findItemsLoop_selected.
  rewrite <- (fragmentsAt_selected_from 0 items s e 0 Hidx) at 2.
  induction (map _ _) as [|idx idxs IH]; [done|].
  unfold omap in *. simpl. by rewrite Nat.sub_0_r, IH.
Qed.

Lemma contains_toLowerCase s sub :
  contains s sub -> contains (toLowerCase s) (toLowerCase sub).
Proof.
  intros (pre & post & ->). exists (toLowerCase pre), (toLowerCase post).
  by rewrite !toLowerCase_app.
Qed.

Lemma toLowerCase_trimmed s : trimmed (toLowerCase s) -> trimmed s.
Proof.
  intros [Hhead Hlast]. split.
  - destruct s as [|x r]; [done|]. simpl. intros c [= <-].
    destruct (isSpace x) eqn:Hx; [|done].
    rewrite toLowerCase_cons, (lowerUnit_space x Hx) in Hhead.
    by rewrite <- (Hhead x eq_refl).
  - destruct s as [|x r] using rev_ind; [done|].
    intros c. rewrite last_snoc. intros [= <-].
    destruct (isSpace x) eqn:Hx; [|done].
    rewrite toLowerCase_app in Hlast.
    change (toLowerCase [x]) with (lowerUnit x ++ []) in Hlast.
    rewrite app_nil_r, (lowerUnit_space x Hx) in Hlast.
    by rewrite <- (Hlast x (last_snoc _ _)).
Qed.

(** Where lowercasing keeps the lengths, an occurrence in the lowercased
    text of the page is the lower case of what the text of the page has at
    the same offset. *)
Lemma lowered_occurrence items q i :
  keepsLength items ->
  occursAt (normalizedPageTextOf items) q i ->
  exists pre0 mid0 post0,
    join (map TextPosition.text items) = pre0 ++ mid0 ++ post0 /\
    length pre0 = i /\ length mid0 = length q /\ toLowerCase mid0 = q.
Proof.
  intros Hkeep (pre & post & Heq & Hpre).
  pose proof (keepsLength_join items Hkeep) as Hdot.
  unfold normalizedPageTextOf in Heq. rewrite toLowerCase_map in Heq by done.
  apply map_eq_app in Heq as (pre0 & rest0 & Hjoin & Hpre0 & Hrest0).
  apply map_eq_app in Hrest0 as (mid0 & post0 & -> & Hmid0 & Hpost0).
  rewrite Hjoin, !not_elem_of_app in Hdot. destruct Hdot as (_ & Hdot & _).
  rewrite <- (toLowerCase_map mid0 Hdot) in Hmid0.
  exists pre0, mid0, post0. repeat split; try done.
  - by rewrite <- Hpre, <- Hpre0, length_map.
  - rewrite <- Hmid0. symmetry. by apply length_toLowerCase.
Qed.

(** The fragments of a match cover the citation, where lowercasing keeps
    the lengths: on the built index, when lowercasing keeps the length of
    every fragment of the hint page, the fragments of that page at the item
    indices of a match, joined with single spaces and lowercased, contain
    the normalised query, so that no part of the citation is outside the
    highlighted fragments. *)
Theorem match_covers_citation (pages : list (list TextItem.t))
    (query : jsstring) (hintPage : option nat) (m : SearchMatch.t) :
  keepsLength (pageItemsOf (buildIndex pages) (SearchMatch.pageNum m)) ->
  searchForCitedText (buildIndex pages) query hintPage = Some m ->
  contains
    (normalizedPageTextOf
       (fragmentsAt (pageItemsOf (buildIndex pages) (SearchMatch.pageNum m))
          (SearchMatch.itemIndices m)))
    (normalizeQuery query).
Proof.
  intros Hkeep
    (p & i & -> & _ & _ & _ & Hi & Hlen & ->)%searchForCitedText_Some.
  simpl in *.
  set (items := pageItemsOf (buildIndex pages) p) in *.
  set (q := normalizeQuery query) in *.
  rewrite fragmentsAt_selected by apply pageItemsOf_buildIndex_indexed.
  apply indexOf_first in Hi as [Hocc Hmin].
  destruct (lowered_occurrence items q i Hkeep Hocc)
    as (pre0 & mid0 & post0 & Hjoin & Hlpre & Hlmid & Hmid0).
  assert (mid0 <> []) as Hne.
  { intros ->. simpl in Hlmid.
    assert (i <= 0) as Hi0.
    { apply Hmin. exists [], (normalizedPageTextOf items).
      by rewrite <- Hmid0. }
    unfold findItemsForCharRange in Hlen.
    rewrite findItemsLoop_past in Hlen by lia. simpl in Hlen. lia. }
  assert (contains
            (join (map TextPosition.text
                     (selectedItems items i (i + length q) 0))) mid0) as Hc.
  { apply (selected_covers items 0 i (i + length q) pre0 mid0 post0);
      try done; try lia.
    apply toLowerCase_trimmed. rewrite Hmid0.
    apply normalizeQuery_trimmed. }
  apply contains_toLowerCase in Hc. by rewrite Hmid0 in Hc.
Qed.

Lemma match_covers_citation_witness :
  contains
    (normalizedPageTextOf
       (fragmentsAt (pageItemsOf (buildIndex samplePages) 3) [1; 2; 3; 4]))
    (normalizeQuery (str "Size was  42 patients")).
Proof.
  apply (match_covers_citation samplePages (str "Size was  42 patients")
           (Some 3) (SearchMatch.mk 3 [1; 2; 3; 4] true 1)).
  - vm_compute. repeat constructor.
  - vm_compute. reflexivity.
Defined.

(** After U+0130 the fragments of a match can miss the citation: on the
    page [13 times U+0130 | abcdefghijkl | mnopqrstuvwx] the match of
    [abcdefghijkl] is the fragment 2, which does not contain it. *)
Example match_beside_citation :
  searchForCitedText (buildIndex shiftedPages) (str "abcdefghijkl") (Some 1)
  = Some (SearchMatch.mk 1 [2] true 1) /\
  ~ contains
      (normalizedPageTextOf
         (fragmentsAt (pageItemsOf (buildIndex shiftedPages) 1) [2]))
      (normalizeQuery (str "abcdefghijkl")).
Proof.
  split; [vm_compute; reflexivity|].
  unfold contains. rewrite <- includes_true. vm_compute. discriminate.
Qed.

(** ** A match has no blank fragment *)

Lemma replaceSpaceRuns_noSpaceRun b s :
  noSpaceRun (replaceSpaceRuns b s) /\
  (b = true -> forall c, head (replaceSpaceRuns b s) = Some c ->
     isSpace c = false).
Proof.
  revert b; induction s as [|x r IH]; intros b; simpl; [done|].
  destruct (isSpace x) eqn:Hx.
  - destruct (IH true) as [Hrun Hhead]. destruct b; simpl.
    + split; [done|]. intros _. by apply Hhead.
    + split; [|done]. split; [|done]. intros _. by apply Hhead.
  - destruct (IH false) as [Hrun _]. simpl. split.
    + split; [|done]. intros Hx'. congruence.
    + intros _ c [= <-]. done.
Qed.

Lemma normalizeQuery_noSpaceRun query : noSpaceRun (normalizeQuery query).
Proof. apply replaceSpaceRuns_noSpaceRun. Qed.

Lemma noSpaceRun_app_r l1 l2 : noSpaceRun (l1 ++ l2) -> noSpaceRun l2.
Proof. induction l1 as [|x l1 IH]; simpl; [done|]. intros [_ H]. by apply IH. Qed.

Lemma noSpaceRun_after_space l c r :
  noSpaceRun (l ++ (Latin1 " ") :: c :: r) -> isSpace c = false.
Proof. intros [H _]%noSpaceRun_app_r. by apply H. Qed.

Lemma toLowerCase_noSpaceRun s : noSpaceRun (toLowerCase s) -> noSpaceRun s.
Proof.
  induction s as [|x r IH]; [done|].
  rewrite toLowerCase_cons. intros Hrun. split.
  - intros Hx c Hc. rewrite (lowerUnit_space x Hx) in Hrun.
    destruct Hrun as [Hrun _]. destruct r as [|y r]; [done|].
    simpl in Hc. injection Hc as <-.
    destruct (isSpace y) eqn:Hy; [|done].
    rewrite toLowerCase_cons, (lowerUnit_space y Hy) in Hrun.
    by rewrite <- (Hrun Hx y eq_refl).
  - by apply IH, (noSpaceRun_app_r (lowerUnit x)).
Qed.

Lemma selectedItems_past items s e cur :
  e <= cur -> selectedItems items s e cur = [].
Proof.
  revert cur; induction items as [|item rest IH]; intros cur Hle; [done|].
  cbn [selectedItems].
  replace (cur <? e) with false by (symmetry; apply Nat.ltb_ge; lia).
  rewrite andb_false_r. simpl. apply IH. lia.
Qed.

(** Inside the range, at the start of a fragment that follows a
    separator of the range. *)
Lemma inside_nonBlank items cur s e U post :
  join (map TextPosition.text items) = U ++ post ->
  e = cur + length U -> s < cur ->
  (forall c, head U = Some c -> isSpace c = false) -> noSpaceRun U ->
  Forall nonBlank (selectedItems items s e cur).
Proof.
  revert cur U; induction items as [|item rest IH];
    intros cur U Hjoin He Hs Hhead Hrun; [constructor|].
  destruct U as [|u U'].
  { rewrite selectedItems_past by (simpl in He; lia). constructor. }
  cbn [selectedItems]. apply Forall_app. split.
  - destruct (_ && _); constructor; [|constructor].
    exists u. split; [|by apply Hhead].
    cbn [map] in Hjoin. destruct (TextPosition.text item) as [|c0 t].
    + exfalso. destruct rest as [|item' rest']; [done|].
      rewrite join_cons_nonempty in Hjoin by done. simpl in Hjoin.
      injection Hjoin as <- _. by specialize (Hhead (Latin1 " ") eq_refl).
    + destruct rest as [|item' rest'].
      * simpl in Hjoin. injection Hjoin as -> _. by left.
      * rewrite join_cons_nonempty in Hjoin by done. simpl in Hjoin.
        injection Hjoin as -> _. by left.
  - destruct (decide (length (u :: U') <= length (TextPosition.text item) + 1))
      as [Hshort|Hlong].
    { apply Forall_forall. rewrite selectedItems_past by lia.
      by intros ? ?%elem_of_nil. }
    destruct rest as [|item' rest'].
    { simpl in Hjoin. apply (f_equal length) in Hjoin.
      simpl in Hjoin, Hlong. rewrite length_app in Hjoin. lia. }
    cbn [map] in Hjoin. rewrite join_cons_nonempty in Hjoin by done.
    apply app_eq_app in Hjoin as [l [[Ht _]|[HUeq Hrest]]].
    { apply (f_equal length) in Ht. rewrite length_app in Ht. lia. }
    destruct l as [|sp U''].
    { rewrite app_nil_r in HUeq. rewrite HUeq in Hlong. lia. }
    injection Hrest as <- Hrest.
    apply (IH (cur + length (TextPosition.text item) + 1) U'').
    + exact Hrest.
    + rewrite HUeq, length_app in He. simpl in He. lia.
    + lia.
    + intros c Hc. destruct U'' as [|u2 U3]; [done|]. injection Hc as <-.
      rewrite HUeq in Hrun. by apply noSpaceRun_after_space in Hrun.
    + rewrite HUeq in Hrun. apply noSpaceRun_app_r in Hrun. apply Hrun.
Qed.

(** A range of the text of [items] that starts with a character other
    than white space and has no run of white space selects only fragments
    with a character other than white space. *)
Lemma selected_nonBlank items cur s e pre mid post :
  join (map TextPosition.text items) = pre ++ mid ++ post ->
  s = cur + length pre -> e = s + length mid -> mid <> [] ->
  (forall c, head mid = Some c -> isSpace c = false) -> noSpaceRun mid ->
  Forall nonBlank (selectedItems items s e cur).
Proof.
  intros Hjoin Hs He Hmid Hhead Hrun.
  revert cur pre Hjoin Hs He; induction items as [|item rest IH];
    intros cur pre Hjoin Hs He; [constructor|].
  assert (0 < length mid) by (destruct mid; [done | simpl; lia]).
  destruct (decide (length pre < length (TextPosition.text item)))
    as [Hin|Hout].
  - assert (exists l X, TextPosition.text item = pre ++ l /\ l <> [] /\
                        l ++ X = mid ++ post /\
                        join (map TextPosition.text (item :: rest))
                        = TextPosition.text item ++ X /\
                        (rest <> [] ->
                         X = (Latin1 " ") :: join (map TextPosition.text rest)))
      as (l & X & Ht & Hl & HlX & HX & HXrest).
    { cbn [map] in Hjoin. destruct rest as [|item' rest'].
      - simpl in Hjoin.
        assert (exists l, TextPosition.text item = pre ++ l) as [l Hl].
        { exists (mid ++ post). done. }
        exists l, []. rewrite Hl in Hjoin.
        apply app_inv_head in Hjoin. rewrite app_nil_r. repeat split; try done.
        + intros ->. rewrite app_nil_r in Hl. rewrite Hl in Hin. lia.
        + simpl. by rewrite app_nil_r.
      - rewrite join_cons_nonempty in Hjoin by done.
        apply app_eq_app in Hjoin as [l [[Ht Hrest]|[Hpre _]]].
        + exists l, ((Latin1 " ") :: join (map TextPosition.text (item' :: rest'))).
          repeat split; try done.
          intros ->. rewrite app_nil_r in Ht. rewrite Ht in Hin. lia.
        + apply (f_equal length) in Hpre. rewrite length_app in Hpre. lia. }
    cbn [selectedItems]. apply Forall_app. split.
    + destruct (_ && _); constructor; [|constructor].
      destruct l as [|c0 l']; [done|]. destruct mid as [|m0 mid']; [done|].
      simpl in HlX. injection HlX as -> _.
      exists m0. split; [|by apply Hhead].
      rewrite Ht. apply elem_of_app. right. by left.
    + destruct (decide (length mid <= length l + 1)) as [Hshort|Hlong].
      { apply Forall_forall. rewrite selectedItems_past.
        - by intros ? ?%elem_of_nil.
        - rewrite Ht, length_app. lia. }
      destruct rest as [|item' rest'].
      { apply (f_equal length) in HX. simpl in HX.
        rewrite length_app in HX.
        apply (f_equal length) in HlX. rewrite !length_app in HlX. lia. }
      rewrite HXrest in HlX by done.
      apply app_eq_app in HlX as [l2 [[Hl2 _]|[Hmideq Hrest]]].
      { apply (f_equal length) in Hl2. rewrite length_app in Hl2. lia. }
      destruct l2 as [|sp U''].
      { rewrite app_nil_r in Hmideq. rewrite Hmideq in Hlong. lia. }
      injection Hrest as <- Hrest.
      apply (inside_nonBlank (item' :: rest')
               (cur + length (TextPosition.text item) + 1) s e U'' post).
      * exact Hrest.
      * rewrite Hmideq, length_app in He. rewrite Ht, length_app.
        simpl in He. lia.
      * lia.
      * intros c Hc. destruct U'' as [|u2 U3]; [done|]. injection Hc as <-.
        rewrite Hmideq in Hrun. by apply noSpaceRun_after_space in Hrun.
      * rewrite Hmideq in Hrun. apply noSpaceRun_app_r in Hrun. apply Hrun.
  - cbn [selectedItems].
    replace (s <? cur + length (TextPosition.text item)) with false
      by (symmetry; apply Nat.ltb_ge; lia).
    cbn [andb app].
    destruct rest as [|item' rest'].
    { simpl in Hjoin. apply (f_equal length) in Hjoin.
      rewrite !length_app in Hjoin. lia. }
    cbn [map] in Hjoin. rewrite join_cons_nonempty in Hjoin by done.
    apply app_eq_app in Hjoin as [l [[Ht Hrest]|[Hpre Hrest]]].
    { exfalso. apply (f_equal length) in Ht. rewrite length_app in Ht.
      destruct l; [|simpl in Ht; lia].
      simpl in Hrest. destruct mid as [|m0 mid']; [done|].
      injection Hrest as -> _. by specialize (Hhead (Latin1 " ") eq_refl). }
    destruct l as [|sp pre'].
    { exfalso. simpl in Hrest. destruct mid as [|m0 mid']; [done|].
      injection Hrest as <- _. by specialize (Hhead (Latin1 " ") eq_refl). }
    injection Hrest as <- Hrest.
    apply (IH (cur + length (TextPosition.text item) + 1) pre').
    + done.
    + subst pre. rewrite length_app in Hs. simpl in Hs. lia.
    + done.
Qed.

(** A match takes no blank fragment, where lowercasing keeps the lengths:
    on the built index, when lowercasing keeps the length of every fragment
    of the hint page, every fragment of that page at an item index of a
    match has a character that is not white space, so that empty and
    white-space-only fragments are not highlighted. *)
Theorem match_no_blank_fragment (pages : list (list TextItem.t))
    (query : jsstring) (hintPage : option nat) (m : SearchMatch.t) :
  keepsLength (pageItemsOf (buildIndex pages) (SearchMatch.pageNum m)) ->
  searchForCitedText (buildIndex pages) query hintPage = Some m ->
  Forall nonBlank
    (fragmentsAt (pageItemsOf (buildIndex pages) (SearchMatch.pageNum m))
       (SearchMatch.itemIndices m)).
Proof.
  intros Hkeep
    (p & i & -> & _ & _ & _ & Hi & Hlen & ->)%searchForCitedText_Some.
  simpl in *.
  set (items := pageItemsOf (buildIndex pages) p) in *.
  set (q := normalizeQuery query) in *.
  rewrite fragmentsAt_selected by apply pageItemsOf_buildIndex_indexed.
  apply indexOf_first in Hi as [Hocc Hmin].
  destruct (lowered_occurrence items q i Hkeep Hocc)
    as (pre0 & mid0 & post0 & Hjoin & Hlpre & Hlmid & Hmid0).
  assert (mid0 <> []) as Hne.
  { intros ->. simpl in Hlmid.
    assert (i <= 0) as Hi0.
    { apply Hmin. exists [], (normalizedPageTextOf items).
      by rewrite <- Hmid0. }
    unfold findItemsForCharRange in Hlen.
    rewrite findItemsLoop_past in Hlen by lia. simpl in Hlen. lia. }
  apply (selected_nonBlank items 0 i (i + length q) pre0 mid0 post0);
    try done; try lia.
  - apply toLowerCase_trimmed. rewrite Hmid0.
    apply normalizeQuery_trimmed.
  - apply toLowerCase_noSpaceRun. rewrite Hmid0.
    apply normalizeQuery_noSpaceRun.
Qed.

Lemma match_no_blank_fragment_witness :
  Forall nonBlank
    (fragmentsAt (pageItemsOf (buildIndex samplePages) 3) [1; 2; 3; 4]).
Proof.
  apply (match_no_blank_fragment samplePages (str "size was 42 patients")
           (Some 3) (SearchMatch.mk 3 [1; 2; 3; 4] true 1)).
  - vm_compute. repeat constructor.
  - vm_compute. reflexivity.
Defined.

(** After U+0130 a match can take a fragment without text: fragment 2 of
    the page [2 times U+0130 | abcdefghijkl | (empty) | 16 times z]. *)
Example match_with_blank_fragment :
  searchForCitedText (buildIndex emptyAfterPages) (str "abcdefghijkl")
    (Some 1)
  = Some (SearchMatch.mk 1 [1; 2] true 1) /\
  ~ Forall nonBlank
      (fragmentsAt (pageItemsOf (buildIndex emptyAfterPages) 1) [1; 2]).
Proof.
  split; [vm_compute; reflexivity|].
  intros H. apply Forall_cons in H as [_ H]. apply Forall_cons in H as [H _].
  destruct H as (c & Hc & _). vm_compute in Hc. by apply elem_of_nil in Hc.
Qed.

(** ** The normal form of a query *)

Lemma replaceSpaceRuns_not_space b l s :
  l <> [] -> forallb (fun d => negb (isSpace d)) l = true ->
  replaceSpaceRuns b (l ++ s) = l ++ replaceSpaceRuns false s.
Proof.
  revert b; induction l as [|d l IH]; intros b Hne Hl; [done|].
  simpl in Hl. apply andb_true_iff in Hl as [Hd%negb_true_iff Hl].
  simpl. rewrite Hd. f_equal.
  destruct l as [|d' l]; [done|]. by apply IH.
Qed.

Lemma replaceSpaceRuns_toLowerCase b s :
  toLowerCase (replaceSpaceRuns b s) = replaceSpaceRuns b (toLowerCase s).
Proof.
  revert b; induction s as [|x r IH]; intros b; [done|].
  rewrite toLowerCase_cons. simpl. destruct (isSpace x) eqn:Hx.
  - rewrite (lowerUnit_space x Hx). simpl. rewrite Hx.
    destruct b; [apply IH|]. by rewrite toLowerCase_cons, IH.
  - rewrite toLowerCase_cons, IH.
    by rewrite replaceSpaceRuns_not_space
      by (apply lowerUnit_nonempty || by apply lowerUnit_not_space).
Qed.

Lemma replaceSpaceRuns_only_spaces b s c :
  c ∈ replaceSpaceRuns b s -> isSpace c = true -> c = (Latin1 " ").
Proof.
  revert b; induction s as [|x r IH]; intros b; simpl.
  - by intros ?%elem_of_nil.
  - destruct (isSpace x) eqn:Hx.
    + destruct b; [apply IH|].
      intros [->|Hin]%elem_of_cons; [done | by apply (IH true)].
    + intros [->|Hin]%elem_of_cons; [congruence | by apply (IH false)].
Qed.

Lemma trimStart_id s :
  (forall c, head s = Some c -> isSpace c = false) -> trimStart s = s.
Proof. destruct s as [|x r]; [done|]. simpl. intros H. by rewrite (H x). Qed.

Lemma trim_id s : trimmed s -> trim s = s.
Proof.
  intros [Hhead Hlast]. unfold trim, trimEnd.
  rewrite (trimStart_id s Hhead).
  destruct s as [|x r] using rev_ind; [done|].
  rewrite rev_app_distr. simpl. rewrite last_snoc in Hlast.
  rewrite (Hlast x eq_refl). simpl. by rewrite rev_involutive.
Qed.

Lemma replaceSpaceRuns_id b s :
  noSpaceRun s ->
  (forall c, c ∈ s -> isSpace c = true -> c = (Latin1 " ")) ->
  (b = true -> forall c, head s = Some c -> isSpace c = false) ->
  replaceSpaceRuns b s = s.
Proof.
  revert b; induction s as [|x r IH]; intros b Hrun Honly Hhead; [done|].
  destruct Hrun as [Hx Hr]. simpl.
  assert (forall c, c ∈ r -> isSpace c = true -> c = (Latin1 " ")) as Honly'
    by (intros c Hc; apply Honly; by right).
  destruct (isSpace x) eqn:Hsp.
  - destruct b; [by rewrite (Hhead eq_refl x eq_refl) in Hsp|].
    rewrite (Honly x) by (done || by left).
    f_equal. apply IH; done.
  - f_equal. apply IH; done.
Qed.

Lemma normalizeQuery_lowercase query :
  toLowerCase (normalizeQuery query) = normalizeQuery query.
Proof.
  unfold normalizeQuery, collapseSpaces.
  by rewrite replaceSpaceRuns_toLowerCase, <- trim_toLowerCase,
    toLowerCase_idemp.
Qed.

(** The normal form of a query.  A normalised query is in lower case, has
    no white space at its ends, a single space as its only white space
    between words; and normalising is idempotent: a normalised query is its
    own normal form. *)
Theorem normalizeQuery_normal_form (query : jsstring) :
  toLowerCase (normalizeQuery query) = normalizeQuery query /\
  trimmed (normalizeQuery query) /\
  noSpaceRun (normalizeQuery query) /\
  (forall c, c ∈ normalizeQuery query -> isSpace c = true -> c = (Latin1 " ")) /\
  normalizeQuery (normalizeQuery query) = normalizeQuery query.
Proof.
  pose proof (normalizeQuery_lowercase query) as Hlow.
  pose proof (normalizeQuery_trimmed query) as Htrim.
  pose proof (normalizeQuery_noSpaceRun query) as Hrun.
  assert (forall c, c ∈ normalizeQuery query -> isSpace c = true ->
                    c = (Latin1 " ")) as Honly
    by (intros c; apply replaceSpaceRuns_only_spaces).
  repeat split; try done; try apply Htrim.
  unfold normalizeQuery at 1. rewrite Hlow, (trim_id _ Htrim).
  apply replaceSpaceRuns_id; done.
Qed.

(** ** The citation map and the citation of a field *)

Lemma mapGet_elem {V} key (citationMap : JsMap V) d :
  mapGet key citationMap = Some d -> (key, d) ∈ citationMap.
Proof.
  induction citationMap as [|[k v] rest IH]; simpl; [done|].
  case_bool_decide as Hk.
  - intros [= ->]. subst. by left.
  - intros H. right. by apply IH.
Qed.

Lemma mapGet_None {V} key (citationMap : JsMap V) :
  mapGet key citationMap = None <-> key ∉ citationMap.*1.
Proof.
  induction citationMap as [|[k v] rest IH]; simpl.
  - split; [intros _; apply not_elem_of_nil | done].
  - case_bool_decide as Hk.
    + split; [done|]. intros Hnot. destruct Hnot. subst. by left.
    + rewrite IH, not_elem_of_cons.
      split; [intros ?; split; [congruence | done] | by intros [_ ?]].
Qed.

Lemma mapGet_NoDup {V} key (citationMap : JsMap V) d :
  NoDup citationMap.*1 -> (key, d) ∈ citationMap ->
  mapGet key citationMap = Some d.
Proof.
  induction citationMap as [|[k v] rest IH]; simpl.
  - by intros _ ?%elem_of_nil.
  - intros [Hk Hnd]%NoDup_cons [[= -> ->]|Hin]%elem_of_cons.
    + by rewrite bool_decide_eq_true_2.
    + case_bool_decide as Heq; [|by apply IH].
      subst. destruct Hk. apply list_elem_of_fmap. by exists (key, d).
Qed.

Lemma mapGet_mapSet {V} key value (citationMap : JsMap V) key' :
  mapGet key' (mapSet key value citationMap)
  = if decide (key = key') then Some value else mapGet key' citationMap.
Proof.
  induction citationMap as [|[k v] rest IH]; simpl.
  - case_bool_decide; by case_decide.
  - case_bool_decide as Hk; simpl.
    + subst. case_bool_decide; by case_decide.
    + rewrite IH. case_bool_decide; case_decide; congruence.
Qed.

Lemma keys_mapSet {V} key value (citationMap : JsMap V) :
  (mapSet key value citationMap).*1
  = if decide (key ∈ citationMap.*1) then citationMap.*1
    else citationMap.*1 ++ [key].
Proof.
  induction citationMap as [|[k v] rest IH].
  - rewrite decide_False; [done | apply not_elem_of_nil].
  - cbn [mapSet]. case_bool_decide as Hk.
    + subst. rewrite decide_True; [done | by left].
    + rewrite !fmap_cons, IH. cbn [fst].
      destruct (decide (key ∈ rest.*1)) as [Hin|Hin].
      * rewrite decide_True; [done | by right].
      * rewrite decide_False; [done|].
        rewrite not_elem_of_cons. split; [congruence | done].
Qed.

Lemma citationMapOf_snoc cited_data d :
  citationMapOf (cited_data ++ [d])
  = mapSet (CitedDataPoint.field_path d) d (citationMapOf cited_data).
Proof. unfold citationMapOf. by rewrite foldl_snoc. Qed.

Lemma citationMapOf_NoDup cited_data : NoDup (citationMapOf cited_data).*1.
Proof.
  induction cited_data as [|d cited_data IH] using rev_ind;
    [apply NoDup_nil_2|].
  rewrite citationMapOf_snoc, keys_mapSet. case_decide as Hin; [done|].
  apply NoDup_app. repeat split; [done | | apply NoDup_singleton].
  intros x Hx ->%list_elem_of_singleton. by destruct Hin.
Qed.

Lemma citationMapOf_get cited_data key d :
  mapGet key (citationMapOf cited_data) = Some d ->
  CitedDataPoint.field_path d = key /\ d ∈ cited_data.
Proof.
  induction cited_data as [|x cited_data IH] using rev_ind; [done|].
  rewrite citationMapOf_snoc, mapGet_mapSet. case_decide as Hk.
  - intros [= <-]. split; [done|]. apply elem_of_app. right. by left.
  - intros [? ?]%IH. split; [done|]. apply elem_of_app. by left.
Qed.

(** The order of the citation map.  Its keys are the field paths of the
    cited data points, each once, in the order of their first citation. *)
Theorem citationMapOf_keys (cited_data : list CitedDataPoint.t) :
  (citationMapOf cited_data).*1
  = reverse (remove_dups
               (reverse (CitedDataPoint.field_path <$> cited_data))).
Proof.
  induction cited_data as [|d cited_data IH] using rev_ind; [done|].
  rewrite citationMapOf_snoc, keys_mapSet, fmap_app, reverse_app, IH.
  change (reverse (CitedDataPoint.field_path <$> [d]))
    with [CitedDataPoint.field_path d].
  set (paths := reverse (CitedDataPoint.field_path <$> cited_data)).
  cbn [app remove_dups].
  destruct (decide (CitedDataPoint.field_path d ∈ reverse (remove_dups paths)))
    as [Hin|Hin];
    rewrite elem_of_reverse, elem_of_remove_dups in Hin.
  - by destruct (decide_rel elem_of _ paths).
  - destruct (decide_rel elem_of _ paths); [done | by rewrite reverse_cons].
Qed.

(** The last citation of a field path wins: the citation map gives for a
    field path the last cited data point that has this path. *)
Theorem citationMapOf_last (pre post : list CitedDataPoint.t)
    (d : CitedDataPoint.t) :
  Forall (fun d' => CitedDataPoint.field_path d'
                    <> CitedDataPoint.field_path d) post ->
  mapGet (CitedDataPoint.field_path d) (citationMapOf (pre ++ d :: post))
  = Some d.
Proof.
  induction post as [|x post IH] using rev_ind; intros Hpost.
  - rewrite citationMapOf_snoc, mapGet_mapSet. by rewrite decide_True.
  - apply Forall_app in Hpost as [Hpost Hx].
    rewrite Forall_singleton in Hx.
    replace (pre ++ d :: post ++ [x]) with ((pre ++ d :: post) ++ [x])
      by (by rewrite <- app_assoc).
    rewrite citationMapOf_snoc, mapGet_mapSet, decide_False by done.
    by apply IH.
Qed.

Lemma citationMapOf_last_witness :
  mapGet (str "baseline.sampleSize.totalN") (citationMapOf sampleCitedData)
  = Some (samplePoint "baseline.sampleSize.totalN" "42 patients in total").
Proof.
  apply (citationMapOf_last
           [ samplePoint "baseline.sampleSize.totalN" "42 patients";
             samplePoint "outcomes.mortality" "4 deaths" ] []
           (samplePoint "baseline.sampleSize.totalN" "42 patients in total")).
  constructor.
Defined.

Lemma splitOn_nonempty sep s : splitOn sep s <> [].
Proof.
  destruct s as [|c r]; simpl; [done|].
  destruct (eqbUnit c sep); [done|]. by destruct (splitOn sep r).
Qed.

Lemma joinWith_splitOn sep s : joinWith sep (splitOn sep s) = s.
Proof.
  induction s as [|c r IH]; [done|]. simpl.
  pose proof (splitOn_nonempty sep r) as Hne.
  destruct (eqbUnit c sep) eqn:Hc.
  - apply eqbUnit_eq in Hc as ->.
    destruct (splitOn sep r) as [|seg segs]; [done|].
    simpl in *. by rewrite IH.
  - destruct (splitOn sep r) as [|seg segs]; [done|].
    destruct segs; simpl in *; by rewrite <- IH.
Qed.

Lemma joinWith_prefix sep a b :
  a <> [] -> exists r, joinWith sep (a ++ b) = joinWith sep a ++ r.
Proof.
  induction a as [|t a IH]; [done|]. intros _.
  destruct a as [|u a].
  - destruct b as [|v b]; simpl; [exists []; by rewrite app_nil_r|].
    by eexists.
  - destruct IH as [r Hr]; [done|].
    exists r. change (t ++ sep :: joinWith sep ((u :: a) ++ b)
                      = (t ++ sep :: joinWith sep (u :: a)) ++ r).
    by rewrite Hr, <- app_assoc.
Qed.

Lemma startsWith_refl s : startsWith s s = true.
Proof. apply startsWith_true. exists []. by rewrite app_nil_r. Qed.

Lemma parentLoop_cons x rest citationMap :
  rest <> [] ->
  parentLoop (x :: rest) citationMap
  = match mapGet (joinWith (Latin1 ".") (rev rest)) citationMap with
    | Some dataPoint => Some dataPoint
    | None => parentLoop rest citationMap
    end.
Proof. by destruct rest. Qed.

Lemma parentLoop_Some rparts citationMap d :
  parentLoop rparts citationMap = Some d ->
  exists pre rest,
    rparts = pre ++ rest /\ rest <> [] /\
    mapGet (joinWith (Latin1 ".") (rev rest)) citationMap = Some d.
Proof.
  induction rparts as [|x rest IH]; [done|].
  destruct (decide (rest = [])) as [->|Hne]; [done|].
  rewrite parentLoop_cons by done.
  destruct (mapGet _ citationMap) as [d'|] eqn:Hget.
  - intros [= ->]. by exists [x], rest.
  - intros (pre & rest' & -> & Hne' & Hd)%IH. by exists (x :: pre), rest'.
Qed.

Lemma parentLoop_prefix fieldPath citationMap d :
  parentLoop (rev (splitOn (Latin1 ".") fieldPath)) citationMap = Some d ->
  exists path,
    mapGet path citationMap = Some d /\ startsWith path fieldPath = true.
Proof.
  intros (pre & rest & Hparts & Hne & Hget)%parentLoop_Some.
  eexists. split; [exact Hget|].
  apply (f_equal (@rev _)) in Hparts.
  rewrite rev_involutive, rev_app_distr in Hparts.
  destruct (joinWith_prefix (Latin1 ".") (rev rest) (rev pre)) as [r Hr].
  { intros Hnil. apply (f_equal (@rev _)) in Hnil.
    by rewrite rev_involutive in Hnil. }
  apply startsWith_true. exists r.
  by rewrite <- Hr, <- Hparts, joinWith_splitOn.
Qed.

Lemma partialMatch_prefix fieldPath path :
  startsWith path fieldPath = true -> partialMatch fieldPath path = true.
Proof. unfold partialMatch. by intros ->. Qed.

(** What decides that a field has a citation.  [findBestMatchingCitation]
    finds a citation for a field path exactly when the path passes the
    partial-match test with some key of the map: the lookups of the path
    itself and of its ancestors, which come first, decide which citation is
    returned, not whether there is one. *)
Theorem findBestMatchingCitation_found (fieldPath : jsstring)
    (citationMap : CitationMap) :
  is_Some (findBestMatchingCitation fieldPath citationMap)
  <-> exists path d,
        (path, d) ∈ citationMap /\ partialMatch fieldPath path = true.
Proof.
  unfold findBestMatchingCitation. split.
  - destruct (mapGet fieldPath citationMap) as [d|] eqn:Hget.
    { intros _. exists fieldPath, d. split; [by apply mapGet_elem|].
      apply partialMatch_prefix, startsWith_refl. }
    destruct (parentLoop _ citationMap) as [d|] eqn:Hloop.
    { intros _. apply parentLoop_prefix in Hloop as (path & Hp & Hs).
      exists path, d. split; [by apply mapGet_elem|].
      by apply partialMatch_prefix. }
    destruct (find _ citationMap) as [[path d]|] eqn:Hfind;
      [|by intros [? ?]].
    intros _. apply find_some in Hfind as [Hin Hm].
    exists path, d. split; [by apply list_elem_of_In | done].
  - intros (path & d & Hin & Hm).
    destruct (mapGet fieldPath citationMap); [done|].
    destruct (parentLoop _ citationMap); [done|].
    destruct (find _ citationMap) as [[path' d']|] eqn:Hfind; [done|].
    apply list_elem_of_In in Hin.
    pose proof (find_none _ _ Hfind _ Hin) as Hno. simpl in Hno. congruence.
Qed.

Lemma findBestMatchingCitation_found_witness :
  is_Some (findBestMatchingCitation (str "outcomes[1]")
             (citationMapOf sampleCitedData)).
Proof.
  apply (findBestMatchingCitation_found (str "outcomes[1]")
           (citationMapOf sampleCitedData)).
  exists (str "outcomes.mortality"), (samplePoint "outcomes.mortality" "4 deaths").
  split; [|vm_compute; reflexivity].
  right. left.
Defined.

(** The citation of a field is a citation of the response.  On the map
    built from the cited data points, the data point found for a field path
    is one of the cited data points, the one that the map holds for its own
    field path, and this field path passes the partial-match test. *)
Theorem findBestMatchingCitation_sound (cited_data : list CitedDataPoint.t)
    (fieldPath : jsstring) (d : CitedDataPoint.t) :
  findBestMatchingCitation fieldPath (citationMapOf cited_data) = Some d ->
  d ∈ cited_data /\
  mapGet (CitedDataPoint.field_path d) (citationMapOf cited_data) = Some d /\
  partialMatch fieldPath (CitedDataPoint.field_path d) = true.
Proof.
  unfold findBestMatchingCitation.
  assert (forall path, mapGet path (citationMapOf cited_data) = Some d ->
                       startsWith path fieldPath = true ->
                       d ∈ cited_data /\
                       mapGet (CitedDataPoint.field_path d)
                         (citationMapOf cited_data) = Some d /\
                       partialMatch fieldPath (CitedDataPoint.field_path d)
                       = true) as Hkey.
  { intros path Hget Hs.
    pose proof (citationMapOf_get _ _ _ Hget) as [<- Hin].
    repeat split; try done. by apply partialMatch_prefix. }
  destruct (mapGet fieldPath _) as [d'|] eqn:Hget.
  { intros [= ->]. apply (Hkey fieldPath Hget), startsWith_refl. }
  destruct (parentLoop _ _) as [d'|] eqn:Hloop.
  { intros [= ->]. apply parentLoop_prefix in Hloop as (path & Hp & Hs).
    by apply (Hkey path). }
  destruct (find _ _) as [[path d']|] eqn:Hfind; [|done].
  intros [= ->]. apply find_some in Hfind as [Hin Hm]. simpl in Hm.
  apply list_elem_of_In in Hin.
  apply mapGet_NoDup in Hin; [|apply citationMapOf_NoDup].
  pose proof (citationMapOf_get _ _ _ Hin) as [<- Hd].
  by repeat split.
Qed.

Lemma findBestMatchingCitation_sound_witness :
  samplePoint "baseline.sampleSize.totalN" "42 patients in total"
    ∈ sampleCitedData /\
  mapGet (str "baseline.sampleSize.totalN") (citationMapOf sampleCitedData)
  = Some (samplePoint "baseline.sampleSize.totalN" "42 patients in total") /\
  partialMatch (str "baseline") (str "baseline.sampleSize.totalN") = true.
Proof.
  apply (findBestMatchingCitation_sound sampleCitedData (str "baseline")
           (samplePoint "baseline.sampleSize.totalN" "42 patients in total")).
  vm_compute. reflexivity.
Defined.

Lemma parentLoop_take parts citationMap d k n :
  1 <= k -> k <= n -> n < length parts ->
  mapGet (joinWith (Latin1 ".") (take k parts)) citationMap = Some d ->
  (forall j, k < j <= n ->
     mapGet (joinWith (Latin1 ".") (take j parts)) citationMap = None) ->
  parentLoop (rev (take (S n) parts)) citationMap = Some d.
Proof.
  intros Hk. induction n as [|n IH]; intros Hkn Hn Hget Hnone; [lia|].
  destruct (lookup_lt_is_Some_2 parts (S n) Hn) as [x Hx].
  rewrite (take_S_r _ _ _ Hx), rev_app_distr. cbn [rev app].
  rewrite parentLoop_cons.
  2:{ intros Hnil. apply (f_equal length) in Hnil.
      rewrite length_rev, length_take in Hnil. cbn [length] in Hnil. lia. }
  rewrite rev_involutive.
  destruct (decide (k = S n)) as [->|Hne]; [by rewrite Hget|].
  rewrite Hnone by lia. apply IH; [lia | lia | done |].
  intros j Hj. apply Hnone. lia.
Qed.

(** The nearest ancestor wins.  When neither the field path nor any of its
    ancestors of more than [k] parts is a key of the map, and its ancestor
    of [k] parts is, the citation of the field is the one of that
    ancestor. *)
Theorem findBestMatchingCitation_nearest_ancestor (fieldPath : jsstring)
    (citationMap : CitationMap) (k : nat) (d : CitedDataPoint.t) :
  1 <= k < length (splitOn (Latin1 ".") fieldPath) ->
  mapGet (ancestor fieldPath k) citationMap = Some d ->
  (forall j, k < j <= length (splitOn (Latin1 ".") fieldPath) ->
     mapGet (ancestor fieldPath j) citationMap = None) ->
  findBestMatchingCitation fieldPath citationMap = Some d.
Proof.
  unfold ancestor, findBestMatchingCitation. intros Hk Hget Hnone.
  set (parts := splitOn (Latin1 ".") fieldPath) in *.
  pose proof (Hnone (length parts) ltac:(lia)) as Hself.
  rewrite firstn_all in Hself. unfold parts in Hself.
  rewrite joinWith_splitOn in Hself. rewrite Hself.
  fold parts.
  rewrite <- (firstn_all parts) at 1.
  destruct (length parts) as [|n] eqn:Hlen; [lia|].
  rewrite (parentLoop_take parts citationMap d k n); try done; try lia.
  intros j Hj. apply Hnone. lia.
Qed.

Lemma findBestMatchingCitation_nearest_ancestor_witness :
  findBestMatchingCitation (str "outcomes.mortality.deathsN")
    (citationMapOf sampleCitedData)
  = Some (samplePoint "outcomes.mortality" "4 deaths").
Proof.
  apply (findBestMatchingCitation_nearest_ancestor
           (str "outcomes.mortality.deathsN") (citationMapOf sampleCitedData)
           2 (samplePoint "outcomes.mortality" "4 deaths")).
  - vm_compute. lia.
  - vm_compute. reflexivity.
  - intros j Hj. assert (j = 3) as -> by (vm_compute in Hj; lia).
    vm_compute. reflexivity.
Defined.

(** The index stripper on a path with array indices, an empty pair of
    brackets, a bracket that is no index and one that is not closed. *)
Example stripIndices_sample :
  stripIndices (str "a[0].b[12]c[]d[x]e[3") = str "a.bc[]d[x]e[3".
Proof. reflexivity. Qed.

(** ** Citations of the Search Results API *)

Lemma mapSet_elem {V} key value (map : JsMap V) k v :
  (k, v) ∈ mapSet key value map -> (k, v) = (key, value) \/ (k, v) ∈ map.
Proof.
  induction map as [|[k0 v0] rest IH]; simpl.
  - intros [->|Hnil%elem_of_nil]%elem_of_cons; [by left | done].
  - case_bool_decide as Hk.
    + subst. intros [->|Hin]%elem_of_cons; [by left|]. right. by right.
    + intros [->|Hin]%elem_of_cons; [right; by left|].
      destruct (IH Hin) as [?|?]; [by left|]. right. by right.
Qed.

Lemma keys_mapSet_mono {V} key value (map : JsMap V) k :
  k ∈ map.*1 -> k ∈ (mapSet key value map).*1.
Proof.
  rewrite keys_mapSet. case_decide; [done|].
  intros ?. apply elem_of_app. by left.
Qed.

Lemma keys_mapSet_key {V} key value (map : JsMap V) :
  key ∈ (mapSet key value map).*1.
Proof.
  rewrite keys_mapSet. case_decide; [done|].
  apply elem_of_app. right. by left.
Qed.

Lemma collectCitations_flat content :
  collectCitations content
  = foldl (fun citationsMap citation =>
             mapSet (citationKeyOf citation)
               (SearchResultCitation.cited_text citation) citationsMap)
      [] (citationsOf content).
Proof.
  unfold collectCitations, citationsOf. generalize (@nil (jsstring * jsstring)).
  induction content as [|block content IH]; intros acc; [done|].
  simpl. rewrite foldl_app, IH.
  by destruct block as [[citations|]|].
Qed.

Lemma collectCitations_entry content k v :
  (k, v) ∈ collectCitations content ->
  exists c, c ∈ citationsOf content /\ k = citationKeyOf c /\
            v = SearchResultCitation.cited_text c.
Proof.
  rewrite collectCitations_flat.
  induction (citationsOf content) as [|c cs IH] using rev_ind.
  - by intros ?%elem_of_nil.
  - rewrite foldl_snoc. intros [[= -> ->]|Hin]%mapSet_elem.
    + exists c. split; [|done]. apply elem_of_app. right. by left.
    + destruct (IH Hin) as (c' & Hc' & ?). exists c'.
      split; [|done]. apply elem_of_app. by left.
Qed.

Lemma collectCitations_key content c :
  c ∈ citationsOf content -> citationKeyOf c ∈ (collectCitations content).*1.
Proof.
  rewrite collectCitations_flat.
  induction (citationsOf content) as [|c' cs IH] using rev_ind.
  - by intros ?%elem_of_nil.
  - rewrite foldl_snoc.
    intros [Hin|Heq%list_elem_of_singleton]%elem_of_app.
    + by apply keys_mapSet_mono, IH.
    + subst c'. apply keys_mapSet_key.
Qed.

Lemma pretty_N_char_digit x : isDigit (pretty_N_char x) = true.
Proof. unfold pretty_N_char. by repeat case_match. Qed.

Lemma pretty_N_go_digits x s :
  Forall (fun c => isDigit c = true) (str s) ->
  Forall (fun c => isDigit c = true) (str (pretty_N_go x s)).
Proof.
  revert s. induction (N.lt_wf_0 x) as [x _ IH]; intros s Hs.
  assert (x = 0 \/ 0 < x)%N as [->|Hx] by lia.
  - by rewrite pretty_N_go_0.
  - rewrite pretty_N_go_step by done. apply IH.
    + by apply N.div_lt.
    + simpl. constructor; [apply pretty_N_char_digit | done].
Qed.

(** The decimal representation of a non-negative integer is made of
    digits. *)
Lemma pretty_nat_digits (n : nat) :
  Forall (fun c => isDigit c = true) (str (pretty n)).
Proof.
  unfold pretty, pretty_nat, pretty, pretty_N. case_decide.
  - by repeat constructor.
  - apply pretty_N_go_digits. constructor.
Qed.

Lemma startsWith_app_same p a b : startsWith (p ++ a) (p ++ b) = startsWith a b.
Proof.
  induction p as [|c p IH]; [done|].
  simpl. by rewrite eqbUnit_refl.
Qed.

Lemma startsWith_digits_colon d e r :
  Forall (fun c => isDigit c = true) d ->
  startsWith d (e ++ (Latin1 ":") :: r) = startsWith d e.
Proof.
  revert e; induction d as [|c d IH]; intros e Hd; [done|].
  apply Forall_cons in Hd as [Hc Hd].
  destruct e as [|x e]; simpl.
  - destruct (eqbUnit c (Latin1 ":")) eqn:Heq; [|done].
    apply eqbUnit_eq in Heq as ->. done.
  - by rewrite IH.
Qed.

Lemma startsWith_pageKey page N r :
  startsWith (pageKeyOf page) (pageKeyOf N ++ (Latin1 ":") :: r)
  = startsWith (str (pretty page)) (str (pretty N)).
Proof.
  unfold pageKeyOf. rewrite <- app_assoc, startsWith_app_same.
  apply startsWith_digits_colon, pretty_nat_digits.
Qed.

(** The citation of a page comes from a page whose number starts with the
    digits of this page.  When every citation of the response has a source
    [page-N], the text found for a page is the cited text of a citation of
    the response, of a page [N] whose decimal representation has the one of
    the page as a prefix: the same page, or one such as page 10 for
    page 1. *)
Theorem firstCitationOf_sound (content : list ResponseBlock) (page : nat)
    (citedText : jsstring) :
  Forall (fun c => exists N, SearchResultCitation.source c = pageKeyOf N)
    (citationsOf content) ->
  firstCitationOf (pageKeyOf page) (collectCitations content)
  = Some citedText ->
  exists c N,
    c ∈ citationsOf content /\
    SearchResultCitation.source c = pageKeyOf N /\
    SearchResultCitation.cited_text c = citedText /\
    startsWith (str (pretty page)) (str (pretty N)) = true.
Proof.
  intros Hsrc. unfold firstCitationOf.
  destruct (find _ _) as [[k v]|] eqn:Hfind; [|done].
  intros [= ->]. apply find_some in Hfind as [Hin Hs]. cbn [fst] in Hs.
  apply list_elem_of_In, collectCitations_entry in Hin as (c & Hc & -> & ->).
  rewrite Forall_forall in Hsrc. destruct (Hsrc c Hc) as [N HN].
  exists c, N. repeat split; try done.
  unfold citationKeyOf in Hs. by rewrite HN, startsWith_pageKey in Hs.
Qed.

Lemma firstCitationOf_sound_witness :
  exists c N,
    c ∈ citationsOf sampleResponse /\
    SearchResultCitation.source c = pageKeyOf N /\
    SearchResultCitation.cited_text c
    = str "Mortality at 90 days was 4 of 42." /\
    startsWith (str (pretty 1)) (str (pretty N)) = true.
Proof.
  apply (firstCitationOf_sound sampleResponse 1
           (str "Mortality at 90 days was 4 of 42.")).
  - repeat constructor; [by exists 10 | by exists 2].
  - vm_compute. reflexivity.
Defined.

(** Every page whose number is a prefix is served.  A citation of page [N]
    gives a citation to every page whose decimal representation is a prefix
    of the one of [N]; so a citation of page 10 is found for page 1, when
    the response has none that comes before it in the map. *)
Theorem firstCitationOf_complete (content : list ResponseBlock)
    (c : SearchResultCitation.t) (page N : nat) :
  c ∈ citationsOf content ->
  SearchResultCitation.source c = pageKeyOf N ->
  startsWith (str (pretty page)) (str (pretty N)) = true ->
  is_Some (firstCitationOf (pageKeyOf page) (collectCitations content)).
Proof.
  intros Hc HN Hpre. unfold firstCitationOf.
  destruct (find _ _) as [[k v]|] eqn:Hfind; [done|].
  apply collectCitations_key, list_elem_of_fmap in Hc as ([k v] & Hk & Hin).
  cbn [fst] in Hk. apply list_elem_of_In in Hin.
  pose proof (find_none _ _ Hfind _ Hin) as Hno. cbn [fst] in Hno.
  rewrite <- Hk in Hno. unfold citationKeyOf in Hno.
  rewrite HN, startsWith_pageKey in Hno. congruence.
Qed.

Lemma firstCitationOf_complete_witness :
  is_Some (firstCitationOf (pageKeyOf 1) (collectCitations sampleResponse)).
Proof.
  apply (firstCitationOf_complete sampleResponse
           (SearchResultCitation.mk (pageKeyOf 10)
              (str "Mortality at 90 days was 4 of 42.")) 1 10).
  - left.
  - reflexivity.
  - vm_compute. reflexivity.
Defined.

Lemma enrichSourceLocation_page citationsMap sl :
  SourceLocation.page (enrichSourceLocation citationsMap sl)
  = SourceLocation.page sl.
Proof.
  unfold enrichSourceLocation.
  destruct (SourceLocation.page sl =? 0); [done|].
  by destruct (firstCitationOf _ _).
Qed.

Lemma mappingOf_enriched citationsMap path sl c notes :
  SourceLocation.page sl <> 0 ->
  enriched citationsMap (mappingOf path sl c notes)
    (mappingOf path (enrichSourceLocation citationsMap sl) c notes).
Proof.
  intros Hpage. unfold enriched.
  cbn [mappingOf MappingItem.path MappingItem.page MappingItem.label
       MappingItem.type MappingItem.verified MappingItem.citedText
       MappingItem.text].
  rewrite enrichSourceLocation_page. repeat split; try done.
  unfold enrichSourceLocation.
  apply Nat.eqb_neq in Hpage. rewrite Hpage.
  destruct (firstCitationOf _ _) as [citedText|]; [|done].
  simpl. repeat split; try done. intros Hne. by destruct citedText.
Qed.

Lemma traverse_enriched citationsMap :
  forall obj path,
    Forall2 (enriched citationsMap) (traverse obj path)
      (traverse (enrichExtractionWithSearchCitations citationsMap obj) path).
Proof.
  fix IH 1. intros [|items|sl c notes fields] path; simpl.
  - constructor.
  - generalize 0.
    induction items as [|item rest IHitems]; intros i; [constructor|].
    simpl. apply Forall2_app; [apply IH | apply IHitems].
  - apply Forall2_app.
    + destruct sl as [sl|], c as [c|]; try constructor.
      rewrite enrichSourceLocation_page.
      destruct (negb (SourceLocation.page sl =? 0) && truthy c) eqn:Hc;
        constructor; [|constructor].
      apply andb_true_iff in Hc as [Hpage _].
      apply mappingOf_enriched.
      by apply negb_true_iff, Nat.eqb_neq in Hpage.
    + induction fields as [|[key value] rest IHfields]; [constructor|].
      simpl. apply Forall2_app; [|apply IHfields].
      destruct (reservedKey key); [constructor | apply IH].
Qed.

(** Enrichment keeps the mappings in place.  The mappings of the enriched
    results are those of the results, one for one and in the same order,
    each with its path, page, label and type; a mapping of a page without a
    citation is unchanged, and one of a page with a citation is verified
    and has that citation as its cited text. *)
Theorem enrichExtractionWithSearchCitations_mappings
    (citationsMap : JsMap jsstring) (results : Json) :
  Forall2 (enriched citationsMap)
    (getMappings (Some results))
    (getMappings
       (Some (enrichExtractionWithSearchCitations citationsMap results))).
Proof. unfold getMappings. apply traverse_enriched. Qed.

(** One query for all the fields of a page.  After enrichment, for every
    mapping of a page that has a citation of 2 characters or more, the
    highlight map builder searches this citation, whatever the field and
    its content are, and the mapping is verified. *)
Theorem enriched_mappings_query (citationsMap : JsMap jsstring)
    (results : Json) (m : MappingItem.t) (citedText : jsstring) :
  m ∈ getMappings
        (Some (enrichExtractionWithSearchCitations citationsMap results)) ->
  firstCitationOf (pageKeyOf (MappingItem.page m)) citationsMap
  = Some citedText ->
  2 <= length citedText ->
  searchQueryOf m = Some citedText /\ MappingItem.verified m = true.
Proof.
  intros Hin Hcit Hlen. unfold getMappings in Hin.
  apply list_elem_of_lookup_1 in Hin as [i Hi].
  destruct (Forall2_lookup_r _ _ _ _ _
              (traverse_enriched citationsMap results []) Hi)
    as (m0 & _ & _ & Hpage & _ & _ & Hm).
  rewrite <- Hpage, Hcit in Hm. destruct Hm as (Hv & Hc & _).
  split; [|done]. unfold searchQueryOf. rewrite Hc.
  destruct citedText as [|a citedText]; [simpl in Hlen; lia|].
  cbn [orElse orb]. by rewrite (proj2 (Nat.ltb_ge _ _) Hlen).
Qed.

Lemma enriched_mappings_query_witness :
  searchQueryOf
    (mappingOf (str "baseline.sampleSize.totalN")
       (SourceLocation.mk 1 None
          (Some (str "Mortality at 90 days was 4 of 42.")) (Some true))
       (CNumber 42 eq_refl) None)
  = Some (str "Mortality at 90 days was 4 of 42.") /\
  MappingItem.verified
    (mappingOf (str "baseline.sampleSize.totalN")
       (SourceLocation.mk 1 None
          (Some (str "Mortality at 90 days was 4 of 42.")) (Some true))
       (CNumber 42 eq_refl) None)
  = true.
Proof.
  apply (enriched_mappings_query (collectCitations sampleResponse)
           (JObject None None None
              [ (str "baseline",
                 JObject None None None
                   [ (str "sampleSize",
                      JObject None None None
                        [ (str "totalN",
                           JObject (Some (SourceLocation.mk 1 None None None))
                             (Some (CNumber 42 eq_refl)) None []) ]) ]) ])
           _ (str "Mortality at 90 days was 4 of 42.")).
  - vm_compute. left.
  - vm_compute. reflexivity.
  - vm_compute. lia.
Defined.
